(** * Spiderman: wrapping a SpiderMonkey-style syntax tree

    A shallow embedding of [spiderman.js] (and of the two other revisions of
    the same file that the repository carries) together with the properties
    of its child extraction, diagnostic digest, descendant enumeration and
    scope resolution. *)

From Stdlib Require Import ZArith String Ascii List Lia.
From stdpp Require Import base tactics option list strings pretty.

Set Warnings "-register-all".

Local Open Scope string_scope.
Local Open Scope list_scope.

(** ** JavaScript values

    The raw tree is whatever the parser produced: plain data.  Objects keep
    their properties in enumeration order, the order [Object.keys] reports.
    Numbers are integers here; the code only asks whether a number is zero
    and what its [typeof] is. *)

Inductive value : Type :=
| VUndefined
| VNull
| VBool (b : bool)
| VNum (n : Z)
| VStr (s : string)
| VArr (elems : list value)
| VObj (props : list (string * value)).

(** What a JavaScript call can do: return, throw, or (in this model only)
    run out of fuel or follow a reference that is not in the store. *)

Inductive exn : Type :=
| TypeError
| Thrown (msg : string).

Inductive outcome (A : Type) : Type :=
| Ret (a : A)
| Exc (e : exn)
| Abort.

Arguments Ret {A} a.
Arguments Exc {A} e.
Arguments Abort {A}.

Definition obind {A B} (c : outcome A) (k : A -> outcome B) : outcome B :=
  match c with
  | Ret a => k a
  | Exc e => Exc e
  | Abort => Abort
  end.

Declare Scope js_scope.
Delimit Scope js_scope with js.
Notation "x <- c ;; k" := (obind c (fun x => k))
  (at level 100, c at next level, right associativity) : js_scope.

Fixpoint omap {A B} (f : A -> outcome B) (l : list A) : outcome (list B) :=
  match l with
  | [] => Ret []
  | a :: l' => (b <- f a ;; bs <- omap f l' ;; Ret (b :: bs))%js
  end.

(** [if (v)]: the falsy values are undefined, null, false, 0 and the empty
    string. *)
Definition truthy (v : value) : bool :=
  match v with
  | VUndefined | VNull => false
  | VBool b => b
  | VNum n => negb (n =? 0)%Z
  | VStr s => negb (String.eqb s "")
  | VArr _ | VObj _ => true
  end.

Definition typeof (v : value) : string :=
  match v with
  | VUndefined => "undefined"
  | VNull => "object"
  | VBool _ => "boolean"
  | VNum _ => "number"
  | VStr _ => "string"
  | VArr _ | VObj _ => "object"
  end.

Definition instanceof_Array (v : value) : bool :=
  match v with
  | VArr _ => true
  | _ => false
  end.

(** [v === 'label'] for a string label, as [switch] and [===] use it. *)
Definition strict_eq_str (v : value) (label : string) : bool :=
  match v with
  | VStr s => String.eqb s label
  | _ => false
  end.

(** String conversion, as [+] with a string operand performs it. *)
Fixpoint to_string (v : value) : string :=
  match v with
  | VUndefined => "undefined"
  | VNull => "null"
  | VBool true => "true"
  | VBool false => "false"
  | VNum n => pretty n
  | VStr s => s
  | VArr elems =>
      String.concat ","
        (map (fun e => match e with
                       | VUndefined | VNull => ""
                       | _ => to_string e
                       end) elems)
  | VObj _ => "[object Object]"
  end.

Fixpoint assoc (key : string) (props : list (string * value)) : option value :=
  match props with
  | [] => None
  | (k, v) :: rest => if String.eqb k key then Some v else assoc key rest
  end.

(** The position an index key such as "2" names, among [n] elements. *)
Definition index_of_key (key : string) (n : nat) : option nat :=
  List.find (fun i => String.eqb (pretty i) key) (seq 0 n).

Fixpoint chars (s : string) : list value :=
  match s with
  | EmptyString => []
  | String c rest => VStr (String c EmptyString) :: chars rest
  end.

Definition indexed (key : string) (elems : list value) : value :=
  if String.eqb key "length" then VNum (Z.of_nat (length elems))
  else match index_of_key key (length elems) with
       | Some i => nth i elems VUndefined
       | None => VUndefined
       end.

(** [v.key] when [v] is known not to be null or undefined: a missing
    property reads as undefined. *)
Definition prop (v : value) (key : string) : value :=
  match v with
  | VObj props => match assoc key props with Some x => x | None => VUndefined end
  | VArr elems => indexed key elems
  | VStr s => indexed key (chars s)
  | _ => VUndefined
  end.

Definition nullish (v : value) : bool :=
  match v with
  | VUndefined | VNull => true
  | _ => false
  end.

(** [v.key] in general: reading a property of null or undefined throws. *)
Definition get (v : value) (key : string) : outcome value :=
  if nullish v then Exc TypeError else Ret (prop v key).

Notation "v .[ k ]" := (prop v k)
  (at level 1, left associativity, format "v .[ k ]") : js_scope.

Definition Object_keys (v : value) : outcome (list string) :=
  match v with
  | VObj props => Ret (map fst props)
  | VArr elems => Ret (map pretty (seq 0 (length elems)))
  | VStr s => Ret (map pretty (seq 0 (String.length s)))
  | VBool _ | VNum _ => Ret []
  | VUndefined | VNull => Exc TypeError
  end.

(** [arr.concat(item)]: an array argument is spliced in, anything else is
    appended as one element. *)
Definition concat (arr : list value) (item : value) : list value :=
  match item with
  | VArr more => arr ++ more
  | _ => arr ++ [item]
  end.

Infix "+++" := concat (at level 50, left associativity) : js_scope.

(** ** formatNode *)

Definition formatProperty (node : value) (key : string) : outcome string :=
  (value <- get node key ;;
   if truthy value && truthy (value.["type"]) then
     Ret (key +:+ ":" +:+ to_string (value.["type"]))
   else if instanceof_Array value then
     Ret (key +:+ ":[]")
   else if truthy value then
     Ret (key +:+ ":" +:+ typeof value)
   else
     Ret key)%js.

Definition formatNode (node : value) : outcome string :=
  (keys <- Object_keys node ;;
   properties <- omap (formatProperty node) keys ;;
   Ret (to_string (node.["type"]) +:+ " (" +:+ String.concat ", " properties +:+ ")"))%js.

(** ** The child extractor: [Spiderman.Node.prototype._children]

    The [switch] over [node.type] is a table: each row lists the [case]
    labels that share a body, in source order.  Every body returns, so there
    is no fall-through between rows. *)

Local Open Scope js_scope.

Definition case_table : Type := list (list string * (value -> value)).

Fixpoint switch (v : value) (cases : case_table) : option (value -> value) :=
  match cases with
  | [] => None
  | (labels, body) :: rest =>
      if existsb (strict_eq_str v) labels then Some body else switch v rest
  end.

(** The cases from 'Program' down to 'ReturnStatement'. *)
Definition cases_Program_to_Return : case_table :=
  [ (["Program"], fun node => node.["body"]);
    (["FunctionDeclaration"; "FunctionExpression"], fun node => VArr [node.["body"]]);
    (["EmptyStatement"], fun node => VArr []);
    (["BlockStatement"], fun node => node.["body"]);
    (["ExpressionStatement"], fun node => VArr [node.["expression"]]);
    (["IfStatement"], fun node =>
       VArr ([node.["test"]; node.["consequent"]] +++
             (if truthy node.["alternate"] then VArr [node.["alternate"]] else VArr [])));
    (["LabeledStatement"], fun node => VArr [node.["body"]]);
    (["BreakStatement"; "ContinueStatement"], fun node => VArr []);
    (["WithStatement"], fun node => VArr [node.["object"]; node.["body"]]);
    (["SwitchStatement"], fun node => VArr ([node.["discriminant"]] +++ node.["cases"]));
    (["ReturnStatement"], fun node =>
       if truthy node.["argument"] then VArr [node.["argument"]] else VArr []) ].

(** The body that [spiderman.js] puts under 'ThrowStatement'; the later
    revision has it under 'TryStatement'. *)
Definition block_handler_finalizer (node : value) : value :=
  VArr ([node.["block"]] +++
        (if truthy node.["handler"] then VArr [node.["handler"]] else VArr []) +++
        (if truthy node.["finalizer"] then VArr [node.["finalizer"]] else VArr [])).

(** The cases from 'WhileStatement' down to 'Literal'. *)
Definition cases_While_to_Literal : case_table :=
  [ (["WhileStatement"], fun node => VArr [node.["test"]; node.["body"]]);
    (["DoWhileStatement"], fun node => VArr [node.["body"]; node.["test"]]);
    (["ForStatement"], fun node =>
       VArr ([] +++
             (if truthy node.["init"] then VArr [node.["init"]] else VArr []) +++
             (if truthy node.["test"] then VArr [node.["test"]] else VArr []) +++
             (if truthy node.["update"] then VArr [node.["update"]] else VArr []) +++
             VArr [node.["body"]]));
    (["ForInStatement"; "ForOfStatement"], fun node =>
       VArr [node.["left"]; node.["right"]; node.["body"]]);
    (["LetStatement"], fun node => VArr [node.["head"]; node.["body"]]);
    (["DebuggerStatement"], fun node => VArr []);
    (["VariableDeclaration"], fun node => node.["declarations"]);
    (["VariableDeclarator"], fun node => VArr [node.["init"]]);
    (["ThisExpression"], fun node => VArr []);
    (["ArrayExpression"], fun node => node.["elements"]);
    (["ObjectExpression"], fun node => node.["properties"]);
    (["Property"], fun node => VArr [node.["key"]; node.["value"]]);
    (["ArrowExpression"], fun node => VArr [node.["body"]]);
    (["SequenceExpression"], fun node => node.["expressions"]);
    (["UnaryExpression"], fun node => VArr [node.["argument"]]);
    (["BinaryExpression"], fun node => VArr [node.["left"]; node.["right"]]);
    (["AssignmentExpression"], fun node => VArr [node.["left"]; node.["right"]]);
    (["UpdateExpression"], fun node => VArr [node.["argument"]]);
    (["LogicalExpression"], fun node => VArr [node.["left"]; node.["right"]]);
    (["ConditionalExpression"], fun node =>
       VArr [node.["test"]; node.["consequent"]; node.["alternate"]]);
    (["NewExpression"], fun node => VArr ([node.["callee"]] +++ node.["arguments"]));
    (["CallExpression"], fun node => VArr ([node.["callee"]] +++ node.["arguments"]));
    (["MemberExpression"], fun node => VArr [node.["object"]; node.["property"]]);
    (["YieldExpression"], fun node => VArr [node.["argument"]]);
    (["SwitchCase"], fun node =>
       VArr ((if truthy node.["test"] then [node.["test"]] else []) +++ node.["consequent"]));
    (["CatchClause"], fun node => VArr [node.["param"]; node.["body"]]);
    (["Identifier"], fun node => VArr []);
    (["Literal"], fun node => VArr []) ].

Definition LF : string := String (ascii_of_nat 10) EmptyString.

(** The string thrown by the [default] branch. *)
Definition unknown_node_type (digest : string) : exn :=
  Thrown ("Unknown node type: " +:+ digest +:+ LF +:+ LF +:+
          "Report this to https://github.com/dtao/spiderman/issues").

Definition children_by (cases : case_table) (node : value) : outcome value :=
  kind <- get node "type" ;;
  match switch kind cases with
  | Some body => Ret (body node)
  | None => digest <- formatNode node ;; Exc (unknown_node_type digest)
  end.

(** [spiderman.js] (the revision without parent links has the same table). *)
Definition grammar : case_table :=
  cases_Program_to_Return ++
  [ (["ThrowStatement"], block_handler_finalizer) ] ++
  cases_While_to_Literal.

Definition _children (node : value) : outcome value :=
  children_by grammar node.

(** ** The store of wrapped nodes and scopes

    [Spiderman.Node] and [Spiderman.Scope] objects are mutable (each fills
    its caches on first use) and are compared by identity, so they live in a
    store and are named by their address.  An object is allocated at the end
    of its list and never moves. *)

Module Node.
Record t : Type := mk {
  node : value;
  type : value;
  parent : option nat;
  cachedChildren : option (list nat);
  cachedScope : option nat
}.

Definition set_cachedChildren (cs : list nat) (n : t) : t :=
  mk (node n) (type n) (parent n) (Some cs) (cachedScope n).

Definition set_cachedScope (s : nat) (n : t) : t :=
  mk (node n) (type n) (parent n) (cachedChildren n) (Some s).
End Node.

Module Scope.
Record t : Type := mk {
  node : nat;
  cachedIdentifiers : option (list value)
}.

Definition set_cachedIdentifiers (l : list value) (s : t) : t :=
  mk (node s) (Some l).
End Scope.

Record heap : Type := mkHeap {
  nodes : list Node.t;
  scopes : list Scope.t
}.

Definition empty_heap : heap := mkHeap [] [].

(** Computations over the store.  The store survives a throw. *)
Definition M (A : Type) : Type := heap -> outcome A * heap.

Definition ret {A} (a : A) : M A := fun h => (Ret a, h).

Definition bind {A B} (c : M A) (k : A -> M B) : M B :=
  fun h =>
    match c h with
    | (Ret a, h') => k a h'
    | (Exc e, h') => (Exc e, h')
    | (Abort, h') => (Abort, h')
    end.

Notation "x <~ c ;; k" := (bind c (fun x => k))
  (at level 100, c at next level, right associativity) : js_scope.

Definition lift {A} (c : outcome A) : M A := fun h => (c, h).
Definition throw {A} (e : exn) : M A := fun h => (Exc e, h).
Definition abort {A} : M A := fun h => (Abort, h).

Definition read_node (a : nat) : M Node.t :=
  fun h => match nodes h !! a with
           | Some n => (Ret n, h)
           | None => (Abort, h)
           end.

Definition read_scope (s : nat) : M Scope.t :=
  fun h => match scopes h !! s with
           | Some sc => (Ret sc, h)
           | None => (Abort, h)
           end.

Definition alloc_node (n : Node.t) : M nat :=
  fun h => (Ret (length (nodes h)), mkHeap (nodes h ++ [n]) (scopes h)).

Definition alloc_scope (sc : Scope.t) : M nat :=
  fun h => (Ret (length (scopes h)), mkHeap (nodes h) (scopes h ++ [sc])).

Definition update_node (a : nat) (f : Node.t -> Node.t) : M unit :=
  fun h => (Ret tt, mkHeap (alter f a (nodes h)) (scopes h)).

Definition update_scope (s : nat) (f : Scope.t -> Scope.t) : M unit :=
  fun h => (Ret tt, mkHeap (nodes h) (alter f s (scopes h))).

(** [arr.map(f)] for an effectful callback. *)
Fixpoint Mmap {A B} (f : A -> M B) (l : list A) : M (list B) :=
  match l with
  | [] => ret []
  | a :: l' => b <~ f a ;; bs <~ Mmap f l' ;; ret (b :: bs)
  end.

(** A loop over an array that threads one local variable. *)
Fixpoint Mfold {A S} (f : S -> A -> M S) (s : S) (l : list A) : M S :=
  match l with
  | [] => ret s
  | a :: l' => s' <~ f s a ;; Mfold f s' l'
  end.

(** ** Spiderman.Node *)

(** [new Spiderman.Node(node, parent)]: reading [node.type] throws when
    [node] is null or undefined. *)
Definition new_Node (node : value) (parent : option nat) : M nat :=
  type <~ lift (get node "type") ;;
  alloc_node (Node.mk node type parent None None).

Definition Spiderman (ast : value) : M nat :=
  new_Node ast None.

(** [children()]: the cache, or [_children().map(...)], which needs an
    array to call [map] on. *)
Definition children (this : nat) : M (list nat) :=
  self <~ read_node this ;;
  match Node.cachedChildren self with
  | Some cs => ret cs
  | None =>
      raw <~ lift (_children (Node.node self)) ;;
      match raw with
      | VArr elems =>
          cs <~ Mmap (fun child => new_Node child (Some this)) elems ;;
          _ <~ update_node this (Node.set_cachedChildren cs) ;;
          ret cs
      | _ => throw TypeError
      end
  end.

(** [descendents(list)]: pushes onto the one array [list] that the
    outermost call created; the array is local to the traversal, so it is
    threaded (as [lst]). *)
Fixpoint descendents (fuel : nat) (this : nat) (lst : list nat) : M (list nat) :=
  match fuel with
  | O => abort
  | S fuel' =>
      cs <~ children this ;;
      Mfold (fun lst child => descendents fuel' child (lst ++ [child])) lst cs
  end.

Definition is_scope_kind (type : value) : bool :=
  existsb (strict_eq_str type) ["Program"; "FunctionDeclaration"; "FunctionExpression"].

(** [new Spiderman.Scope(node)] *)
Definition new_Scope (node : nat) : M nat :=
  alloc_scope (Scope.mk node None).

(** The body of [_scope], with the [scope] it calls on the parent. *)
Definition _scope_with (scope : nat -> M nat) (this : nat) : M nat :=
  self <~ read_node this ;;
  if is_scope_kind (Node.type self) then new_Scope this
  else match Node.parent self with
       | Some p => scope p
       | None => throw TypeError
       end.

Fixpoint scope (fuel : nat) (this : nat) : M nat :=
  match fuel with
  | O => abort
  | S fuel' =>
      self <~ read_node this ;;
      match Node.cachedScope self with
      | Some s => ret s
      | None =>
          s <~ _scope_with (scope fuel') this ;;
          _ <~ update_node this (Node.set_cachedScope s) ;;
          ret s
      end
  end.

Definition _scope (fuel : nat) (this : nat) : M nat :=
  _scope_with (scope fuel) this.

Definition parentScope (fuel : nat) (this : nat) : M nat :=
  self <~ read_node this ;;
  match Node.parent self with
  | Some p => scope fuel p
  | None => throw TypeError
  end.

(** ** Spiderman.Scope *)

(** The callback of the [forEach] in [_identifiers]; [lst] is the array
    [list] it closes over. *)
Definition collect (fuel : nat) (scope : nat) (lst : list value) (d : nat)
  : M (list value) :=
  ps <~ parentScope fuel d ;;
  if negb (Nat.eqb ps scope) then ret lst
  else
    self <~ read_node d ;;
    id <~ lift (get (Node.node self) "id") ;;
    if truthy id && strict_eq_str id.["type"] "Identifier"
    then ret (lst ++ [id.["name"]])
    else ret lst.

Definition _identifiers (fuel : nat) (this : nat) : M (list value) :=
  sc <~ read_scope this ;;
  ds <~ descendents fuel (Scope.node sc) [] ;;
  Mfold (collect fuel this) [] ds.

Definition identifiers (fuel : nat) (this : nat) : M (list value) :=
  sc <~ read_scope this ;;
  match Scope.cachedIdentifiers sc with
  | Some l => ret l
  | None =>
      l <~ _identifiers fuel this ;;
      _ <~ update_scope this (Scope.set_cachedIdentifiers l) ;;
      ret l
  end.

(** ** The later revision of the file

    The table of this revision, written out from its own [switch]:
    'ThrowStatement' returns its argument and 'TryStatement' has a case of
    its own.  The [children] getter checks each entry before wrapping it. *)
Module Part000.

Definition grammar : case_table :=
  [ (["Program"], fun node => node.["body"]);
    (["FunctionDeclaration"; "FunctionExpression"], fun node => VArr [node.["body"]]);
    (["EmptyStatement"], fun node => VArr []);
    (["BlockStatement"], fun node => node.["body"]);
    (["ExpressionStatement"], fun node => VArr [node.["expression"]]);
    (["IfStatement"], fun node =>
       VArr ([node.["test"]; node.["consequent"]] +++
             (if truthy node.["alternate"] then VArr [node.["alternate"]] else VArr [])));
    (["LabeledStatement"], fun node => VArr [node.["body"]]);
    (["BreakStatement"; "ContinueStatement"], fun node => VArr []);
    (["WithStatement"], fun node => VArr [node.["object"]; node.["body"]]);
    (["SwitchStatement"], fun node => VArr ([node.["discriminant"]] +++ node.["cases"]));
    (["ReturnStatement"], fun node =>
       if truthy node.["argument"] then VArr [node.["argument"]] else VArr []);
    (["ThrowStatement"], fun node => VArr [node.["argument"]]);
    (["TryStatement"], fun node =>
       VArr ([node.["block"]] +++
             (if truthy node.["handler"] then VArr [node.["handler"]] else VArr []) +++
             (if truthy node.["finalizer"] then VArr [node.["finalizer"]] else VArr [])));
    (["WhileStatement"], fun node => VArr [node.["test"]; node.["body"]]);
    (["DoWhileStatement"], fun node => VArr [node.["body"]; node.["test"]]);
    (["ForStatement"], fun node =>
       VArr ([] +++
             (if truthy node.["init"] then VArr [node.["init"]] else VArr []) +++
             (if truthy node.["test"] then VArr [node.["test"]] else VArr []) +++
             (if truthy node.["update"] then VArr [node.["update"]] else VArr []) +++
             VArr [node.["body"]]));
    (["ForInStatement"; "ForOfStatement"], fun node =>
       VArr [node.["left"]; node.["right"]; node.["body"]]);
    (["LetStatement"], fun node => VArr [node.["head"]; node.["body"]]);
    (["DebuggerStatement"], fun node => VArr []);
    (["VariableDeclaration"], fun node => node.["declarations"]);
    (["VariableDeclarator"], fun node => VArr [node.["init"]]);
    (["ThisExpression"], fun node => VArr []);
    (["ArrayExpression"], fun node => node.["elements"]);
    (["ObjectExpression"], fun node => node.["properties"]);
    (["Property"], fun node => VArr [node.["key"]; node.["value"]]);
    (["ArrowExpression"], fun node => VArr [node.["body"]]);
    (["SequenceExpression"], fun node => node.["expressions"]);
    (["UnaryExpression"], fun node => VArr [node.["argument"]]);
    (["BinaryExpression"], fun node => VArr [node.["left"]; node.["right"]]);
    (["AssignmentExpression"], fun node => VArr [node.["left"]; node.["right"]]);
    (["UpdateExpression"], fun node => VArr [node.["argument"]]);
    (["LogicalExpression"], fun node => VArr [node.["left"]; node.["right"]]);
    (["ConditionalExpression"], fun node =>
       VArr [node.["test"]; node.["consequent"]; node.["alternate"]]);
    (["NewExpression"], fun node => VArr ([node.["callee"]] +++ node.["arguments"]));
    (["CallExpression"], fun node => VArr ([node.["callee"]] +++ node.["arguments"]));
    (["MemberExpression"], fun node => VArr [node.["object"]; node.["property"]]);
    (["YieldExpression"], fun node => VArr [node.["argument"]]);
    (["SwitchCase"], fun node =>
       VArr ((if truthy node.["test"] then [node.["test"]] else []) +++ node.["consequent"]));
    (["CatchClause"], fun node => VArr [node.["param"]; node.["body"]]);
    (["Identifier"], fun node => VArr []);
    (["Literal"], fun node => VArr []) ].

Definition _children (node : value) : outcome value :=
  children_by grammar node.

(** [Spiderman.formatNode(self)]: this revision declares [formatNode] as a
    function local to the file and never assigns it to [Spiderman], so the
    call finds undefined where it wants a function and throws a TypeError,
    whatever [self] is. *)
Definition Spiderman_formatNode (self : nat) : M string :=
  throw TypeError.

(** The callback of [map] in the [children] getter. *)
Definition wrap_child (self : nat) (child : value) : M nat :=
  if negb (truthy child) then
    digest <~ Spiderman_formatNode self ;;
    throw (Thrown ("Missing child: " +:+ digest))
  else new_Node child (Some self).

Definition children (this : nat) : M (list nat) :=
  self <~ read_node this ;;
  match Node.cachedChildren self with
  | Some cs => ret cs
  | None =>
      raw <~ lift (_children (Node.node self)) ;;
      match raw with
      | VArr elems =>
          cs <~ Mmap (wrap_child this) elems ;;
          _ <~ update_node this (Node.set_cachedChildren cs) ;;
          ret cs
      | _ => throw TypeError
      end
  end.

End Part000.

(** ** The revision without parent links

    An earlier revision of the file: a wrapper has no parent and no scope,
    the constructor accepts a missing node, and [descendents] concatenates
    the lists its recursive calls return.  Its wrappers are kept in the same
    store, with the parent and the scope cache left empty. *)
Module Part001.

(** [new Spiderman.Node(node)]: for a falsy [node] the constructor returns
    at once, and the object has neither [node] nor [type]. *)
Definition new_Node (node : value) : M nat :=
  if negb (truthy node)
  then alloc_node (Node.mk VUndefined VUndefined None None None)
  else type <~ lift (get node "type") ;;
       alloc_node (Node.mk node type None None None).

Definition Spiderman (ast : value) : M nat :=
  new_Node ast.

(** The table is the one of spiderman.js, and [Spiderman.formatNode] is
    defined in this revision. *)
Definition _children (node : value) : outcome value :=
  children_by grammar node.

(** [children()], with its cache [wrappedChildren]. *)
Definition children (this : nat) : M (list nat) :=
  self <~ read_node this ;;
  match Node.cachedChildren self with
  | Some cs => ret cs
  | None =>
      raw <~ lift (_children (Node.node self)) ;;
      match raw with
      | VArr elems =>
          cs <~ Mmap new_Node elems ;;
          _ <~ update_node this (Node.set_cachedChildren cs) ;;
          ret cs
      | _ => throw TypeError
      end
  end.

(** [descendents()]: each call builds its own array (the local variable
    [descendents], here [acc]) and appends to it the child and then the
    array the child's call returned. *)
Fixpoint descendents (fuel : nat) (this : nat) : M (list nat) :=
  match fuel with
  | O => abort
  | S fuel' =>
      cs <~ children this ;;
      Mfold (fun acc child =>
               ds <~ descendents fuel' child ;;
               ret (acc ++ child :: ds))
            [] cs
  end.

End Part001.

(** ** A sample program

    The tree a SpiderMonkey-style parser gives for

      var foo = { bar: 1 };
      for (var i = 0; i < 3; ++i) { foo.bar; }
      function f(x) { var inner = x; return inner; }
      f(foo);
      foo.bar = 2;
*)

Module Sample.

Definition Identifier (name : string) : value :=
  VObj [("type", VStr "Identifier"); ("name", VStr name)].

Definition Literal (n : Z) : value :=
  VObj [("type", VStr "Literal"); ("value", VNum n); ("raw", VStr (pretty n))].

Definition VariableDeclarator (id init : value) : value :=
  VObj [("type", VStr "VariableDeclarator"); ("id", id); ("init", init)].

Definition VariableDeclaration (declarations : list value) : value :=
  VObj [("type", VStr "VariableDeclaration");
        ("declarations", VArr declarations); ("kind", VStr "var")].

Definition MemberExpression (object property : value) : value :=
  VObj [("type", VStr "MemberExpression"); ("computed", VBool false);
        ("object", object); ("property", property)].

Definition ExpressionStatement (expression : value) : value :=
  VObj [("type", VStr "ExpressionStatement"); ("expression", expression)].

Definition BlockStatement (body : list value) : value :=
  VObj [("type", VStr "BlockStatement"); ("body", VArr body)].

Definition FunctionDeclaration (id : value) (params : list value) (body : value) : value :=
  VObj [("type", VStr "FunctionDeclaration"); ("id", id); ("params", VArr params);
        ("defaults", VArr []); ("body", body); ("rest", VNull);
        ("generator", VBool false); ("expression", VBool false)].

Definition FunctionExpression (id : value) (params : list value) (body : value) : value :=
  VObj [("type", VStr "FunctionExpression"); ("id", id); ("params", VArr params);
        ("defaults", VArr []); ("body", body); ("rest", VNull);
        ("generator", VBool false); ("expression", VBool false)].

Definition Program (body : list value) : value :=
  VObj [("type", VStr "Program"); ("body", VArr body)].

Definition var_foo : value :=
  VariableDeclaration
    [VariableDeclarator (Identifier "foo")
       (VObj [("type", VStr "ObjectExpression");
              ("properties",
               VArr [VObj [("type", VStr "Property"); ("key", Identifier "bar");
                           ("value", Literal 1); ("kind", VStr "init")]])])].

Definition for_i : value :=
  VObj [("type", VStr "ForStatement");
        ("init", VariableDeclaration [VariableDeclarator (Identifier "i") (Literal 0)]);
        ("test", VObj [("type", VStr "BinaryExpression"); ("operator", VStr "<");
                       ("left", Identifier "i"); ("right", Literal 3)]);
        ("update", VObj [("type", VStr "UpdateExpression"); ("operator", VStr "++");
                         ("argument", Identifier "i"); ("prefix", VBool true)]);
        ("body", BlockStatement
                   [ExpressionStatement
                      (MemberExpression (Identifier "foo") (Identifier "bar"))])].

Definition function_f : value :=
  FunctionDeclaration (Identifier "f") [Identifier "x"]
    (BlockStatement
       [VariableDeclaration [VariableDeclarator (Identifier "inner") (Identifier "x")];
        VObj [("type", VStr "ReturnStatement"); ("argument", Identifier "inner")]]).

Definition call_f : value :=
  ExpressionStatement
    (VObj [("type", VStr "CallExpression"); ("callee", Identifier "f");
           ("arguments", VArr [Identifier "foo"])]).

Definition assign_bar : value :=
  ExpressionStatement
    (VObj [("type", VStr "AssignmentExpression"); ("operator", VStr "=");
           ("left", MemberExpression (Identifier "foo") (Identifier "bar"));
           ("right", Literal 2)]).

Definition ast : value :=
  Program [var_foo; for_i; function_f; call_f; assign_bar].

(** [var x;] as a declarator: the parser sets [init] to null. *)
Definition declarator_without_init : value :=
  VariableDeclarator (Identifier "x") VNull.

(** [throw e;] *)
Definition throw_e : value :=
  VObj [("type", VStr "ThrowStatement"); ("argument", Identifier "e")].

(** [try { } catch (e) { } finally { }] *)
Definition try_catch_finally : value :=
  VObj [("type", VStr "TryStatement");
        ("block", BlockStatement []);
        ("handler", VObj [("type", VStr "CatchClause"); ("param", Identifier "e");
                          ("body", BlockStatement [])]);
        ("finalizer", BlockStatement [])].

(** An if statement whose required [consequent] is missing. *)
Definition if_without_consequent : value :=
  VObj [("type", VStr "IfStatement"); ("test", Identifier "c")].

End Sample.

(** ** The digest as the specification words it

    A field is shown as [name:kind] when its value is a node (an object that
    carries a kind), as [name:[]] when it is a list, and as [name:type] with
    its primitive type otherwise. *)

Definition spec_field (field : string * value) : string :=
  let '(key, v) := field in
  key +:+ ":" +:+
  match v with
  | VObj _ => if truthy v.["type"] then to_string v.["type"] else typeof v
  | VArr _ => "[]"
  | _ => typeof v
  end.

Definition spec_digest (props : list (string * value)) : string :=
  to_string (VObj props).["type"] +:+ " (" +:+
  String.concat ", " (map spec_field props) +:+ ")".

(** What the code shows for a field: the digest above when the value is
    truthy, the bare name when it is not. *)
Definition shown_field (field : string * value) : string :=
  if truthy (snd field) then spec_field field else fst field.

(** The kinds a case table has a row for. *)
Definition recognized (cases : case_table) (kind : value) : bool :=
  existsb (fun row => existsb (strict_eq_str kind) (fst row)) cases.

(** Decimal digits, to tell an index key from a property name. *)
Definition is_digit (c : ascii) : bool :=
  existsb (Ascii.eqb c) ["0"; "1"; "2"; "3"; "4"; "5"; "6"; "7"; "8"; "9"]%char.

Fixpoint all_digits (s : string) : bool :=
  match s with
  | EmptyString => true
  | String c rest => is_digit c && all_digits rest
  end.

(** The fields that are present, in order, as [cond ? [x] : []] keeps them. *)
Definition present (v : value) : list value :=
  if truthy v then [v] else [].

(** ** Well-formed stores

    What every store built by the operations above satisfies. *)

Fixpoint height (v : value) : nat :=
  match v with
  | VArr elems => S (list_max (map height elems))
  | VObj props => S (list_max (map (fun field => height (snd field)) props))
  | _ => 0
  end.

(** The cached children of the wrapper at [a] are wrappers of the entries
    the child extractor gives for its raw node, in order, each created
    after [a] and with [a] as parent. *)
Definition cached_children_ok (h : heap) (a : nat) (n : Node.t) (cs : list nat) : Prop :=
  ∃ elems,
    _children (Node.node n) = Ret (VArr elems) ∧
    Forall2 (fun c e => a < c ∧
                        ∃ m, nodes h !! c = Some m ∧
                             Node.node m = e ∧ Node.parent m = Some a)
            cs elems.

(** The cached scope of the wrapper at [a] is the scope made for [a] when
    [a] introduces one, and the cached scope of its parent otherwise. *)
Definition cached_scope_ok (h : heap) (a : nat) (n : Node.t) (s : nat) : Prop :=
  ∃ sc,
    scopes h !! s = Some sc ∧
    if is_scope_kind (Node.type n) then Scope.node sc = a
    else ∃ p m, Node.parent n = Some p ∧ nodes h !! p = Some m ∧
                Node.cachedScope m = Some s.

Record node_ok (h : heap) (a : nat) (n : Node.t) : Prop := {
  type_ok : get (Node.node n) "type" = Ret (Node.type n);
  parent_ok : ∀ p, Node.parent n = Some p -> p < a;
  children_ok : ∀ cs, Node.cachedChildren n = Some cs -> cached_children_ok h a n cs;
  scope_ok : ∀ s, Node.cachedScope n = Some s -> cached_scope_ok h a n s
}.

Record wf (h : heap) : Prop := {
  wf_nodes : ∀ a n, nodes h !! a = Some n -> node_ok h a n;
  wf_scopes : ∀ s sc, scopes h !! s = Some sc -> Scope.node sc < length (nodes h)
}.

(** A well-formed tree: a wrapper without parent is a root, and a root
    introduces a scope. *)
Definition rooted (h : heap) : Prop :=
  ∀ a n, nodes h !! a = Some n -> Node.parent n = None ->
         is_scope_kind (Node.type n) = true.

(** The nearest node, from [a] upwards, whose kind introduces a scope. *)
Fixpoint introducer (fuel : nat) (h : heap) (a : nat) : option nat :=
  match fuel with
  | O => None
  | S fuel' =>
      match nodes h !! a with
      | Some n =>
          if is_scope_kind (Node.type n) then Some a
          else match Node.parent n with
               | Some p => introducer fuel' h p
               | None => None
               end
      | None => None
      end
  end.

(** The same notions as the specification words them: the kinds that
    introduce a scope are named one by one, a tree is well formed when the
    wrapper without parent is of such a kind, and the scope of a node
    belongs to the nearest node of such a kind from it upwards. *)
Definition scope_kinds : list string :=
  ["Program"; "FunctionDeclaration"; "FunctionExpression"].

Definition introduces_scope (kind : value) : bool :=
  match kind with
  | VStr name => bool_decide (name ∈ scope_kinds)
  | _ => false
  end.

Definition well_rooted (h : heap) : Prop :=
  ∀ a n, nodes h !! a = Some n -> Node.parent n = None ->
         introduces_scope (Node.type n) = true.

Fixpoint nearest_introducer (fuel : nat) (h : heap) (a : nat) : option nat :=
  match fuel with
  | O => None
  | S fuel' =>
      match nodes h !! a with
      | Some n =>
          if introduces_scope (Node.type n) then Some a
          else match Node.parent n with
               | Some p => nearest_introducer fuel' h p
               | None => None
               end
      | None => None
      end
  end.

(** The store only grows: objects stay where they are, keep their fields,
    and a cache that is filled stays as it is; a wrapper that is added has a
    parent. *)
Definition node_le (n n' : Node.t) : Prop :=
  Node.node n' = Node.node n ∧
  Node.type n' = Node.type n ∧
  Node.parent n' = Node.parent n ∧
  (∀ cs, Node.cachedChildren n = Some cs -> Node.cachedChildren n' = Some cs) ∧
  (∀ s, Node.cachedScope n = Some s -> Node.cachedScope n' = Some s).

Definition scope_le (sc sc' : Scope.t) : Prop :=
  Scope.node sc' = Scope.node sc ∧
  (∀ l, Scope.cachedIdentifiers sc = Some l -> Scope.cachedIdentifiers sc' = Some l).

Definition heap_le (h h' : heap) : Prop :=
  (∀ a n, nodes h !! a = Some n -> ∃ n', nodes h' !! a = Some n' ∧ node_le n n') ∧
  (∀ s sc, scopes h !! s = Some sc -> ∃ sc', scopes h' !! s = Some sc' ∧ scope_le sc sc') ∧
  (∀ a n', nodes h' !! a = Some n' -> nodes h !! a = None -> is_Some (Node.parent n')).

Infix "⊑" := heap_le (at level 70).

(** The scope the parent of [d] has resolved to, if it has. *)
Definition resolved (h : heap) (d : nat) : option nat :=
  match nodes h !! d with
  | Some n =>
      match Node.parent n with
      | Some p => match nodes h !! p with
                  | Some m => Node.cachedScope m
                  | None => None
                  end
      | None => None
      end
  | None => None
  end.

(** The raw node of a wrapper. *)
Definition raw (h : heap) (d : nat) : value :=
  match nodes h !! d with
  | Some n => Node.node n
  | None => VUndefined
  end.

(** A raw node declares a name when it has an [id] of kind Identifier. *)
Definition has_identifier (v : value) : bool :=
  truthy v.["id"] && strict_eq_str v.["id"].["type"] "Identifier".

(** The descendants among [ds] that register a name in [scope]: those whose
    parent resolved to [scope] and whose raw node declares a name. *)
Definition declaring_sites (h : heap) (scope : nat) (ds : list nat) : list nat :=
  filter (fun d => resolved h d = Some scope ∧ has_identifier (raw h d) = true) ds.

Definition declared_name (h : heap) (d : nat) : value :=
  (raw h d).["id"].["name"].

(** Weakest preconditions, to reason about a computation piece by piece. *)
Definition wp {A} (c : M A) (h : heap) (Q : outcome A -> heap -> Prop) : Prop :=
  Q (c h).1 (c h).2.

(** ** Measures for the fuel *)

Definition smaller (node v : value) : Prop := height v < height node.

(** What [concat] makes of an item: its elements, or the item itself. *)
Definition spliced (node item : value) : Prop :=
  match item with
  | VArr more => Forall (smaller node) more
  | _ => smaller node item
  end.

Definition row_smaller (row : list string * (value -> value)) : Prop :=
  ∀ props elems, snd row (VObj props) = VArr elems -> Forall (smaller (VObj props)) elems.

(** ** Auxiliary notions for the traversals *)

(** The wrappers [children()] makes for the entries [elems]. *)
Definition fresh_children (this : nat) (elems : list value) : list Node.t :=
  map (fun e => Node.mk e e.["type"] (Some this) None None) elems.

(** One step of the concatenating traversal: the child, then its own
    descendants. *)
Definition child_then_descendants (fuel : nat) (acc : list nat) (child : nat)
  : M (list nat) :=
  ds <~ descendents fuel child [] ;; ret (acc ++ child :: ds).

(** The kinds whose case returns the empty list. *)
Definition leaf_kinds : list string :=
  ["EmptyStatement"; "BreakStatement"; "ContinueStatement"; "DebuggerStatement";
   "ThisExpression"; "Identifier"; "Literal"].

(** A run that does not stop for lack of fuel is reproduced by the other
    computation. *)
Definition refines {A} (c c' : M A) : Prop :=
  ∀ h r h', c h = (r, h') -> r ≠ Abort -> c' h = (r, h').

(** The store right after wrapping a tree. *)
Definition initial_heap (ast : value) : heap :=
  mkHeap [Node.mk ast ast.["type"] None None None] [].

Definition is_function_kind (type : value) : bool :=
  existsb (strict_eq_str type) ["FunctionDeclaration"; "FunctionExpression"].

(** ** Notions for the further properties *)

(** An entry is a part of the node: the value of one of its fields, or an
    element of a field that is a list. *)
Definition part_of (node e : value) : Prop :=
  (∃ key, node.[key] = e) ∨
  (∃ key elems, node.[key] = VArr elems ∧ In e elems).

Definition spliced_part (node item : value) : Prop :=
  match item with
  | VArr more => Forall (part_of node) more
  | _ => part_of node item
  end.

Definition row_parts (row : list string * (value -> value)) : Prop :=
  ∀ node v, snd row node = v ->
    match v with
    | VArr elems => Forall (part_of node) elems
    | _ => ∃ key, node.[key] = v
    end.

(** No wrapper of the store has the Scope [s] as its cached scope. *)
Definition uncached (h : heap) (s : nat) : Prop :=
  ∀ a n, nodes h !! a = Some n -> Node.cachedScope n ≠ Some s.

(** The computation [c] leaves the existing Scope [s] uncached, and what it
    returns satisfies [Q]. *)
Definition avoids {A} (s : nat) (c : M A) (Q : A -> Prop) : Prop :=
  ∀ h r h', c h = (r, h') -> s < length (scopes h) -> uncached h s ->
    uncached h' s ∧ s < length (scopes h') ∧ ∀ a, r = Ret a -> Q a.

(** The nearest scope-introducing node from the parent of [d] upwards. *)
Definition enclosing (h : heap) (d : nat) : option nat :=
  match nodes h !! d with
  | Some n =>
      match Node.parent n with
      | Some p => introducer d h p
      | None => None
      end
  | None => None
  end.

Definition declared_under (h : heap) (w : nat) (ds : list nat) : list nat :=
  filter (fun d => enclosing h d = Some w ∧ has_identifier (raw h d) = true) ds.

(** The names a raw node declares in the scope it lies in: those of its
    children and, for a child that does not introduce a scope of its own,
    those the child declares in turn. *)
Fixpoint declared_names (fuel : nat) (node : value) : list value :=
  match fuel with
  | O => []
  | S fuel' =>
      match _children node with
      | Ret (VArr elems) =>
          flat_map (fun e =>
                      (if has_identifier e then [e.["id"].["name"]] else []) ++
                      (if is_scope_kind e.["type"] then [] else declared_names fuel' e))
                   elems
      | _ => []
      end
  end.

(** The pre-order list of the raw nodes below a raw node. *)
Fixpoint preorder (fuel : nat) (node : value) : list value :=
  match fuel with
  | O => []
  | S fuel' =>
      match _children node with
      | Ret (VArr elems) => flat_map (fun e => e :: preorder fuel' e) elems
      | _ => []
      end
  end.

(** [ds] lists, child by child, each of [cs] followed by what [P] relates
    it to. *)
Fixpoint walked_list (P : nat -> list nat -> Prop) (cs ds : list nat) : Prop :=
  match cs with
  | [] => ds = []
  | c :: cs' => ∃ dc ds', P c dc ∧ walked_list P cs' ds' ∧ ds = c :: dc ++ ds'
  end.

(** The tree below [a] has been walked: every wrapper in it has its
    children cached, and [ds] is the pre-order list of its descendants. *)
Fixpoint walked (fuel : nat) (h : heap) (a : nat) (ds : list nat) : Prop :=
  match fuel with
  | O => False
  | S fuel' =>
      ∃ n cs, nodes h !! a = Some n ∧ Node.cachedChildren n = Some cs ∧
              walked_list (walked fuel' h) cs ds
  end.

(** The wrapper the revision without parents makes for an entry. *)
Definition Part001_wrapper (e : value) : Node.t :=
  if truthy e then Node.mk e e.["type"] None None None
  else Node.mk VUndefined VUndefined None None None.

(** A wrapper of spiderman.js as the revision without parents has it. *)
Definition erase_node (n : Node.t) : Node.t :=
  if truthy (Node.node n)
  then Node.mk (Node.node n) (Node.type n) None (Node.cachedChildren n) None
  else Node.mk VUndefined VUndefined None (Node.cachedChildren n) None.

Definition erase (h : heap) : heap :=
  mkHeap (erase_node <$> nodes h) [].

(** A wrapper with its scope cache emptied. *)
Definition without_scope (n : Node.t) : Node.t :=
  Node.mk (Node.node n) (Node.type n) (Node.parent n) (Node.cachedChildren n) None.

(** * Properties of the pure layer *)

Section Digits.

Lemma pretty_N_char_digit x : is_digit (pretty_N_char x) = true.
Proof. unfold pretty_N_char. repeat case_match; reflexivity. Qed.

Lemma pretty_N_go_digits x s :
  all_digits s = true -> all_digits (pretty_N_go x s) = true.
Proof.
  revert s. induction (N.lt_wf_0 x) as [x _ IH]; intros s Hs.
  assert (x = 0 ∨ 0 < x)%N as [->|Hpos] by lia.
  - by rewrite pretty_N_go_0.
  - rewrite pretty_N_go_step by done. apply IH.
    + by apply N.div_lt.
    + simpl. by rewrite pretty_N_char_digit, Hs.
Qed.

Lemma pretty_nat_digits (i : nat) : all_digits (pretty i) = true.
Proof.
  unfold pretty, pretty_nat, pretty, pretty_N.
  case_decide; [reflexivity|]. by apply pretty_N_go_digits.
Qed.

Lemma index_of_key_letters key n :
  all_digits key = false -> index_of_key key n = None.
Proof.
  intros Hkey. unfold index_of_key.
  induction (seq 0 n) as [|i l IH]; simpl; [done|].
  destruct (String.eqb_spec (pretty i) key) as [<-|]; [|done].
  by rewrite pretty_nat_digits in Hkey.
Qed.

Lemma indexed_type elems : indexed "type" elems = VUndefined.
Proof.
  unfold indexed. simpl. by rewrite index_of_key_letters.
Qed.

End Digits.

Lemma prop_type_not_object v :
  match v with VObj _ => False | _ => True end -> v.["type"] = VUndefined.
Proof. destruct v; simpl; intros; try done; apply indexed_type. Qed.

Lemma get_not_nullish v key : nullish v = false -> get v key = Ret v.[key].
Proof. unfold get. by intros ->. Qed.

Lemma truthy_not_nullish v : truthy v = true -> nullish v = false.
Proof. by destruct v. Qed.

Lemma switch_unrecognized kind cases :
  recognized cases kind = false -> switch kind cases = None.
Proof.
  induction cases as [|[labels body] rest IH]; simpl; [done|].
  intros [-> Hrest]%orb_false_iff. auto.
Qed.

(** [formatNode] returns for every value that has properties at all. *)
Lemma formatProperty_not_nullish node key :
  nullish node = false -> ∃ s, formatProperty node key = Ret s.
Proof.
  intros Hn. unfold formatProperty. rewrite get_not_nullish by done. simpl.
  repeat case_match; eauto.
Qed.

Lemma omap_formatProperty_not_nullish node keys :
  nullish node = false -> ∃ l, omap (formatProperty node) keys = Ret l.
Proof.
  intros Hn. induction keys as [|key keys [l IH]]; simpl; [eauto|].
  destruct (formatProperty_not_nullish node key Hn) as [s ->]. simpl.
  rewrite IH. simpl. eauto.
Qed.

Lemma formatNode_not_nullish node :
  nullish node = false ->
  ∃ fields, formatNode node = Ret (to_string node.["type"] +:+ " (" +:+ fields +:+ ")").
Proof.
  intros Hn. unfold formatNode.
  assert (∃ keys, Object_keys node = Ret keys) as [keys ->]
    by (destruct node; simpl in *; eauto; discriminate).
  simpl. destruct (omap_formatProperty_not_nullish node keys Hn) as [l ->].
  simpl. eauto.
Qed.

Lemma children_by_unrecognized cases node :
  nullish node = false ->
  recognized cases node.["type"] = false ->
  children_by cases node = (digest <- formatNode node ;; Exc (unknown_node_type digest)).
Proof.
  intros Hn Hk. unfold children_by. rewrite get_not_nullish by done. simpl.
  by rewrite switch_unrecognized.
Qed.

(** A field of an object with distinct keys reads back as its value. *)
Lemma assoc_NoDup key v props :
  NoDup (map fst props) -> In (key, v) props -> assoc key props = Some v.
Proof.
  induction props as [|[k x] rest IH]; simpl; [done|].
  intros Hnd [Heq|Hin].
  - injection Heq as -> ->. by rewrite String.eqb_refl.
  - apply NoDup_cons in Hnd as [Hk Hnd].
    destruct (String.eqb_spec k key) as [->|Hne]; [|auto].
    exfalso. apply Hk. apply list_elem_of_In.
    change key with (fst (key, v)). by apply in_map.
Qed.

Lemma formatProperty_field props key v :
  assoc key props = Some v ->
  formatProperty (VObj props) key = Ret (shown_field (key, v)).
Proof.
  intros Hk. unfold formatProperty, get, shown_field. simpl. rewrite Hk. simpl.
  destruct v as [| |b|n|s|elems|ps]; simpl; try done.
  - by destruct b.
  - by destruct (n =? 0)%Z.
  - rewrite indexed_type. simpl. by destruct (String.eqb s "").
  - by rewrite indexed_type.
  - by destruct (truthy _).
Qed.

Lemma omap_formatProperty_fields props fields :
  (∀ key v, In (key, v) fields -> assoc key props = Some v) ->
  omap (formatProperty (VObj props)) (map fst fields) = Ret (map shown_field fields).
Proof.
  induction fields as [|[key v] rest IH]; simpl; [done|]. intros Hin.
  rewrite (formatProperty_field props key v) by auto. simpl.
  rewrite IH by auto. done.
Qed.

(** ** Dispatch on a known kind *)

Lemma prop_VStr_not_nullish v key s : v.[key] = VStr s -> nullish v = false.
Proof. by destruct v. Qed.

Lemma children_by_case cases node kind body :
  node.["type"] = VStr kind ->
  switch (VStr kind) cases = Some body ->
  children_by cases node = Ret (body node).
Proof.
  intros Hk Hs. unfold children_by.
  rewrite get_not_nullish by eauto using prop_VStr_not_nullish.
  simpl. by rewrite Hk, Hs.
Qed.

(** Row by row, the table of the later revision is that of [spiderman.js]
    with the 'ThrowStatement' row replaced by two rows. *)
Lemma Part000_grammar_rows :
  Part000.grammar =
    cases_Program_to_Return ++
    [ (["ThrowStatement"], fun node => VArr [node.["argument"]]);
      (["TryStatement"], block_handler_finalizer) ] ++
    cases_While_to_Literal.
Proof. reflexivity. Qed.

Lemma _children_ThrowStatement node :
  node.["type"] = VStr "ThrowStatement" ->
  _children node =
    Ret (VArr ([node.["block"]] ++ present node.["handler"] ++ present node.["finalizer"])).
Proof.
  intros Hk. unfold _children.
  rewrite (children_by_case _ _ _ block_handler_finalizer Hk) by reflexivity.
  unfold block_handler_finalizer, present.
  destruct (truthy node.["handler"]), (truthy node.["finalizer"]); reflexivity.
Qed.

Lemma _children_TryStatement node :
  nullish node = false ->
  node.["type"] = VStr "TryStatement" ->
  ∃ digest, formatNode node = Ret digest ∧ _children node = Exc (unknown_node_type digest).
Proof.
  intros Hn Hk. destruct (formatNode_not_nullish node Hn) as [fields Hf].
  eexists. split; [exact Hf|].
  unfold _children. rewrite children_by_unrecognized; [by rewrite Hf|done|].
  by rewrite Hk.
Qed.

Lemma Part000_children_ThrowStatement node :
  node.["type"] = VStr "ThrowStatement" ->
  Part000._children node = Ret (VArr [node.["argument"]]).
Proof.
  intros Hk. unfold Part000._children.
  by rewrite (children_by_case _ _ _ (fun node => VArr [node.["argument"]]) Hk).
Qed.

Lemma Part000_children_TryStatement node :
  node.["type"] = VStr "TryStatement" ->
  Part000._children node =
    Ret (VArr ([node.["block"]] ++ present node.["handler"] ++ present node.["finalizer"])).
Proof.
  intros Hk. unfold Part000._children.
  rewrite (children_by_case _ _ _ block_handler_finalizer Hk) by reflexivity.
  unfold block_handler_finalizer, present.
  destruct (truthy node.["handler"]), (truthy node.["finalizer"]); reflexivity.
Qed.

(** The guarded optional fields: a for statement lists the clauses it has,
    then its body. *)
Lemma _children_ForStatement node :
  node.["type"] = VStr "ForStatement" ->
  _children node =
    Ret (VArr (present node.["init"] ++ present node.["test"] ++
               present node.["update"] ++ [node.["body"]])).
Proof.
  intros Hk. unfold _children.
  erewrite children_by_case; [|exact Hk|reflexivity].
  unfold present.
  destruct (truthy node.["init"]), (truthy node.["test"]), (truthy node.["update"]);
    reflexivity.
Qed.

Lemma _children_VariableDeclarator node :
  node.["type"] = VStr "VariableDeclarator" ->
  _children node = Ret (VArr [node.["init"]]).
Proof.
  intros Hk. unfold _children.
  by erewrite children_by_case; [|exact Hk|reflexivity].
Qed.

(** C4: the child extractor on a throw statement.  [spiderman.js] runs the
    try statement's body under the 'ThrowStatement' label, so [throw e;]
    yields the one-element list holding [node.block], which is undefined,
    and not the list holding the argument; wrapping that entry then throws a
    TypeError.  The later revision of the file returns [[argument]]. *)
Theorem throw_statement_children :
  _children Sample.throw_e = Ret (VArr [VUndefined]) ∧
  _children Sample.throw_e ≠ Ret (VArr [Sample.throw_e.["argument"]]) ∧
  fst ((r <~ Spiderman Sample.throw_e ;; children r) empty_heap) = Exc TypeError ∧
  Part000._children Sample.throw_e = Ret (VArr [Sample.Identifier "e"]).
Proof. repeat split; try reflexivity. discriminate. Qed.

(** C5: the child extractor on a try statement.  [spiderman.js] has no
    'TryStatement' case, so the node falls to [default] and the extractor
    throws the unknown-node-type string; the later revision returns the
    block, the handler and the finalizer. *)
Theorem try_statement_children :
  _children Sample.try_catch_finally =
    Exc (unknown_node_type
           "TryStatement (type:string, block:BlockStatement, handler:CatchClause, finalizer:BlockStatement)") ∧
  Part000._children Sample.try_catch_finally =
    Ret (VArr [Sample.try_catch_finally.["block"];
               Sample.try_catch_finally.["handler"];
               Sample.try_catch_finally.["finalizer"]]).
Proof. split; reflexivity. Qed.

(** C6: the child extractor on a declarator without initialiser.  The
    'VariableDeclarator' case returns [[node.init]] unguarded, so the list
    for [var x;] holds the null placeholder, and wrapping it throws a
    TypeError; the cases of the for, if and return statements and of the
    switch case do leave an absent field out. *)
Theorem declarator_without_init_children :
  _children Sample.declarator_without_init = Ret (VArr [VNull]) ∧
  Part000._children Sample.declarator_without_init = Ret (VArr [VNull]) ∧
  fst ((r <~ Spiderman Sample.declarator_without_init ;; children r) empty_heap)
    = Exc TypeError.
Proof. repeat split; reflexivity. Qed.

Lemma append_assoc (a b c : string) : (a +:+ b) +:+ c = a +:+ (b +:+ c).
Proof.
  induction a as [|x a IH]; [done|].
  change (String x ((a +:+ b) +:+ c) = String x (a +:+ (b +:+ c))). by rewrite IH.
Qed.

(** C8: a raw node whose kind has no row in the table makes the child
    extractor throw, and what it throws carries the kind and the digest of
    the fields: it is the string made of "Unknown node type: ", the kind, a
    space, then in brackets one entry per field of the node, in order and
    separated by a comma and a space (name:kind for a field holding a node,
    name:[] for a list, name:type for any other truthy value, the bare name
    for a falsy one), then two line feeds and the line that asks to report
    the node.  No list is returned, and [children()] on a wrapper of that
    node throws the same string and leaves the store as it was. *)
Theorem unsupported_kind_throws (props : list (string * value)) (kind : string) :
  NoDup (map fst props) ->
  (VObj props).["type"] = VStr kind ->
  recognized grammar (VStr kind) = false ->
  let message :=
    "Unknown node type: " +:+ kind +:+ " (" +:+
    String.concat ", " (map shown_field props) +:+ ")" +:+
    String "010" (String "010" "Report this to https://github.com/dtao/spiderman/issues") in
  _children (VObj props) = Exc (Thrown message) ∧
  (∀ v, _children (VObj props) ≠ Ret v) ∧
  ∀ this self h,
    nodes h !! this = Some self ->
    Node.node self = VObj props ->
    Node.cachedChildren self = None ->
    children this h = (Exc (Thrown message), h).
Proof.
  intros Hnd Hkind Hk message.
  assert (formatNode (VObj props) =
          Ret (kind +:+ " (" +:+ String.concat ", " (map shown_field props) +:+ ")"))
    as Hf.
  { unfold formatNode. cbn [Object_keys obind].
    rewrite (omap_formatProperty_fields props props)
      by (intros key v Hin; by apply assoc_NoDup).
    cbn [obind]. by rewrite Hkind. }
  assert (_children (VObj props) = Exc (Thrown message)) as Hc.
  { unfold _children. rewrite children_by_unrecognized; [|done|by rewrite Hkind].
    rewrite Hf. cbn [obind]. unfold unknown_node_type, message, LF.
    do 2 f_equal. by rewrite !append_assoc. }
  split_and!; [exact Hc|by rewrite Hc|].
  intros this self h Hthis Hnode Hcache.
  unfold children, bind, read_node. rewrite Hthis, Hcache. unfold lift.
  by rewrite Hnode, Hc.
Qed.

Lemma unsupported_kind_throws_witness :
  let node := VObj [("type", VStr "ClassDeclaration"); ("id", Sample.Identifier "A");
                    ("superClass", VNull); ("body", VArr [])] in
  let message :=
    "Unknown node type: ClassDeclaration (type:string, id:Identifier, superClass, body:[])"
    +:+ String "010" (String "010"
          "Report this to https://github.com/dtao/spiderman/issues") in
  _children node = Exc (Thrown message) ∧
  children 0 (initial_heap node) = (Exc (Thrown message), initial_heap node).
Proof.
  destruct (unsupported_kind_throws
              [("type", VStr "ClassDeclaration"); ("id", Sample.Identifier "A");
               ("superClass", VNull); ("body", VArr [])] "ClassDeclaration")
    as (Hthrown & _ & Hchildren); [|reflexivity|reflexivity|].
  { repeat (apply NoDup_cons; split;
              [by intros ?%list_elem_of_In; simpl in *; intuition discriminate|]).
    apply NoDup_nil_2. }
  split; [exact Hthrown|].
  exact (Hchildren 0 _ (initial_heap _) eq_refl eq_refl eq_refl).
Defined.

(** C9, as the code has it: the digest of a node is its kind, then in
    brackets every field in order, separated by a comma and a space.  A
    field whose value is falsy (null, undefined, false, 0, the empty string)
    is shown as its bare name; any other field as name:kind when the value
    is a node, name:[] when it is a list and name:type otherwise.  So the
    digest is the one the specification describes exactly when no field is
    falsy. *)
Theorem formatNode_digest (props : list (string * value)) :
  NoDup (map fst props) ->
  formatNode (VObj props) =
    Ret (to_string (VObj props).["type"] +:+ " (" +:+
         String.concat ", " (map shown_field props) +:+ ")") ∧
  (Forall (fun field => truthy (snd field) = true) props ->
   formatNode (VObj props) = Ret (spec_digest props)).
Proof.
  intros Hnd.
  assert (formatNode (VObj props) =
          Ret (to_string (VObj props).["type"] +:+ " (" +:+
               String.concat ", " (map shown_field props) +:+ ")")) as Hf.
  { unfold formatNode. cbn [Object_keys obind].
    rewrite (omap_formatProperty_fields props props); [done|].
    intros key v Hin. by apply assoc_NoDup. }
  split; [exact Hf|].
  intros Hall. rewrite Hf. unfold spec_digest.
  replace (map shown_field props) with (map spec_field props); [done|].
  clear Hf Hnd. induction Hall as [|field rest Hfield _ IH]; [done|].
  cbn [map]. rewrite IH. f_equal. unfold shown_field. by rewrite Hfield.
Qed.

Lemma formatNode_digest_witness :
  formatNode (Sample.Identifier "foo") = Ret "Identifier (type:string, name:string)".
Proof.
  refine (proj2 (formatNode_digest
                   [("type", VStr "Identifier"); ("name", VStr "foo")] _) _).
  - repeat (apply NoDup_cons; split;
              [by intros ?%list_elem_of_In; simpl in *; intuition discriminate|]).
    apply NoDup_nil_2.
  - repeat constructor.
Defined.

(** C9, as the specification states it, fails on a declarator without
    initialiser: the null field is shown bare, not as [init:object]. *)
Lemma formatNode_not_spec_digest :
  let props := [("type", VStr "VariableDeclarator");
                ("id", Sample.Identifier "x"); ("init", VNull)] in
  NoDup (map fst props) ∧
  formatNode (VObj props) = Ret "VariableDeclarator (type:string, id:Identifier, init)" ∧
  spec_digest props = "VariableDeclarator (type:string, id:Identifier, init:object)" ∧
  formatNode (VObj props) ≠ Ret (spec_digest props).
Proof.
  repeat split; try reflexivity; [|discriminate].
  repeat (apply NoDup_cons; split; [by intros ?%list_elem_of_In; simpl in *; intuition discriminate|]).
  apply NoDup_nil_2.
Qed.

(** * Properties of the store layer *)

Section Wp.
Context {A : Type}.

Lemma wp_mono (c : M A) h (Q Q' : outcome A -> heap -> Prop) :
  wp c h Q -> (∀ r h', Q r h' -> Q' r h') -> wp c h Q'.
Proof. unfold wp. auto. Qed.

Lemma wp_ret (a : A) h (Q : outcome A -> heap -> Prop) :
  Q (Ret a) h -> wp (ret a) h Q.
Proof. done. Qed.

Lemma wp_throw e h (Q : outcome A -> heap -> Prop) :
  Q (Exc e) h -> wp (throw e) h Q.
Proof. done. Qed.

Lemma wp_lift (c : outcome A) h (Q : outcome A -> heap -> Prop) :
  Q c h -> wp (lift c) h Q.
Proof. done. Qed.

Lemma wp_bind {B} (c : M A) (k : A -> M B) h (Q : outcome B -> heap -> Prop) :
  wp c h (fun r h1 => match r with
                      | Ret a => wp (k a) h1 Q
                      | Exc e => Q (Exc e) h1
                      | Abort => Q Abort h1
                      end) ->
  wp (bind c k) h Q.
Proof. unfold wp, bind. by destruct (c h) as [[a|e|] h1]. Qed.
End Wp.

(** ** The order on stores *)

Lemma node_le_refl n : node_le n n.
Proof. by repeat split. Qed.

Lemma node_le_trans n1 n2 n3 : node_le n1 n2 -> node_le n2 n3 -> node_le n1 n3.
Proof.
  intros (?&?&?&?&?) (?&?&?&?&?). repeat split; try congruence; auto.
Qed.

Lemma scope_le_refl sc : scope_le sc sc.
Proof. by split. Qed.

Lemma scope_le_trans s1 s2 s3 : scope_le s1 s2 -> scope_le s2 s3 -> scope_le s1 s3.
Proof. intros [??] [??]. split; [congruence|auto]. Qed.

Lemma heap_le_refl h : h ⊑ h.
Proof.
  repeat split; eauto using node_le_refl, scope_le_refl. congruence.
Qed.

Lemma heap_le_trans h1 h2 h3 : h1 ⊑ h2 -> h2 ⊑ h3 -> h1 ⊑ h3.
Proof.
  intros (Hn12 & Hs12 & Hp12) (Hn23 & Hs23 & Hp23). repeat split.
  - intros a n Ha. destruct (Hn12 a n Ha) as (n2 & Ha2 & Hle2).
    destruct (Hn23 a n2 Ha2) as (n3 & Ha3 & Hle3). eauto using node_le_trans.
  - intros s sc Hs. destruct (Hs12 s sc Hs) as (sc2 & Hs2 & Hle2).
    destruct (Hs23 s sc2 Hs2) as (sc3 & Hs3 & Hle3). eauto using scope_le_trans.
  - intros a n3 Ha3 Ha1. destruct (nodes h2 !! a) as [n2|] eqn:Ha2; [|eauto].
    destruct (Hn23 a n2 Ha2) as (n3' & Ha3' & _ & _ & Hpar & _).
    assert (n3' = n3) as -> by congruence. rewrite Hpar. eauto.
Qed.

Lemma heap_le_nodes_length h h' : h ⊑ h' -> (length (nodes h) <= length (nodes h'))%nat.
Proof.
  intros [Hn _].
  destruct (decide (length (nodes h) <= length (nodes h'))%nat) as [|Hlt]; [done|].
  destruct (lookup_lt_is_Some_2 (nodes h) (length (nodes h'))) as [n Ha]; [lia|].
  destruct (Hn _ n Ha) as (n' & Hn' & _).
  apply lookup_lt_Some in Hn'. lia.
Qed.

Lemma heap_le_valid h h' a : h ⊑ h' -> a < length (nodes h) -> a < length (nodes h').
Proof. intros H%heap_le_nodes_length. lia. Qed.

Lemma heap_le_alloc_nodes h news :
  Forall (fun n => is_Some (Node.parent n)) news ->
  h ⊑ mkHeap (nodes h ++ news) (scopes h).
Proof.
  intros Hnews. repeat split; simpl.
  - intros a n Ha. exists n. split; [by apply lookup_app_l_Some|apply node_le_refl].
  - eauto using scope_le_refl.
  - intros a n' Ha' Ha. apply lookup_ge_None in Ha.
    rewrite lookup_app_r in Ha' by done.
    eapply Forall_lookup_1 in Hnews; eauto.
Qed.

Lemma heap_le_alloc_scope h sc :
  h ⊑ mkHeap (nodes h) (scopes h ++ [sc]).
Proof.
  repeat split; simpl.
  - eauto using node_le_refl.
  - intros s sc0 Hs. exists sc0. split; [by apply lookup_app_l_Some|apply scope_le_refl].
  - congruence.
Qed.

Lemma heap_le_update_node h a f :
  (∀ n, nodes h !! a = Some n -> node_le n (f n)) ->
  h ⊑ mkHeap (alter f a (nodes h)) (scopes h).
Proof.
  intros Hf. repeat split; simpl; [|eauto using scope_le_refl|].
  - intros b n Hb. destruct (decide (a = b)) as [->|Hne].
    + exists (f n). rewrite list_lookup_alter_eq, Hb. split; [done|auto].
    + exists n. rewrite list_lookup_alter_ne by done. split; [done|apply node_le_refl].
  - intros b n' Hb' Hb. apply lookup_ge_None in Hb.
    apply lookup_lt_Some in Hb'. rewrite length_alter in Hb'. lia.
Qed.

Lemma heap_le_update_scope h s f :
  (∀ sc, scopes h !! s = Some sc -> scope_le sc (f sc)) ->
  h ⊑ mkHeap (nodes h) (alter f s (scopes h)).
Proof.
  intros Hf. repeat split; simpl; [eauto using node_le_refl| |congruence].
  intros b sc Hb. destruct (decide (s = b)) as [->|Hne].
  - exists (f sc). rewrite list_lookup_alter_eq, Hb. split; [done|auto].
  - exists sc. rewrite list_lookup_alter_ne by done. split; [done|apply scope_le_refl].
Qed.

Lemma resolved_mono h h' d s : h ⊑ h' -> resolved h d = Some s -> resolved h' d = Some s.
Proof.
  intros [Hn _]. unfold resolved.
  destruct (nodes h !! d) as [n|] eqn:Hd; [|done].
  destruct (Hn d n Hd) as (n' & -> & _ & _ & -> & _).
  destruct (Node.parent n) as [p|]; [|done].
  destruct (nodes h !! p) as [m|] eqn:Hp; [|done].
  destruct (Hn p m Hp) as (m' & -> & _ & _ & _ & _ & Hm). auto.
Qed.

Lemma raw_mono h h' d n : h ⊑ h' -> nodes h !! d = Some n -> raw h' d = Node.node n.
Proof.
  intros [Hn _] Hd. unfold raw. by destruct (Hn d n Hd) as (n' & -> & -> & _).
Qed.

Lemma rooted_mono h h' : h ⊑ h' -> rooted h -> rooted h'.
Proof.
  intros (Hn & _ & Hp) Hr a n' Ha' Hpar.
  destruct (nodes h !! a) as [n|] eqn:Ha.
  - destruct (Hn a n Ha) as (n'' & Ha'' & _ & Hty & Hpar' & _).
    assert (n'' = n') as -> by congruence.
    rewrite Hty. apply (Hr a n Ha). congruence.
  - destruct (Hp a n' Ha' Ha) as [p Hsome]. congruence.
Qed.

(** ** Well-formedness is kept *)

Lemma cached_children_ok_mono h h' a n n' cs :
  h ⊑ h' -> Node.node n' = Node.node n ->
  cached_children_ok h a n cs -> cached_children_ok h' a n' cs.
Proof.
  intros [Hn _] Hnode (elems & Hel & Hall).
  exists elems. split; [congruence|].
  eapply Forall2_impl; [exact Hall|]. simpl.
  intros c e (Hlt & m & Hm & Hnodem & Hpar). split; [done|].
  destruct (Hn c m Hm) as (m' & Hm' & Hnode' & _ & Hpar' & _).
  exists m'. repeat split; congruence.
Qed.

Lemma cached_scope_ok_mono h h' a n n' s :
  h ⊑ h' -> Node.type n' = Node.type n -> Node.parent n' = Node.parent n ->
  cached_scope_ok h a n s -> cached_scope_ok h' a n' s.
Proof.
  intros (Hn & Hs & _) Hty Hpar (sc & Hsc1 & Hkind).
  destruct (Hs s sc Hsc1) as (sc' & Hsc' & Hnode' & _).
  exists sc'. split; [done|]. rewrite Hty.
  destruct (is_scope_kind (Node.type n)); [congruence|].
  destruct Hkind as (p & m & Hp & Hm & Hms).
  destruct (Hn p m Hm) as (m' & Hm' & _ & _ & _ & _ & Hcs').
  exists p, m'. repeat split; [congruence|done|auto].
Qed.

(** A node of the larger store is in order when it was in order before and
    each cache it has now is either the one it had or in order itself. *)
Lemma node_ok_step h h' a n n' :
  h ⊑ h' -> node_ok h a n -> node_le n n' ->
  (∀ cs, Node.cachedChildren n' = Some cs ->
         Node.cachedChildren n = Some cs ∨ cached_children_ok h' a n' cs) ->
  (∀ s, Node.cachedScope n' = Some s ->
        Node.cachedScope n = Some s ∨ cached_scope_ok h' a n' s) ->
  node_ok h' a n'.
Proof.
  intros Hle [Hty Hp Hc Hsc] (Hnode & Htype & Hpar & _ & _) Hcs Hss. split.
  - congruence.
  - intros p. rewrite Hpar. auto.
  - intros cs Hcs'. destruct (Hcs cs Hcs') as [Hold|]; [|done].
    eapply cached_children_ok_mono; eauto.
  - intros s Hs'. destruct (Hss s Hs') as [Hold|]; [|done].
    eapply cached_scope_ok_mono; eauto.
Qed.

Lemma node_ok_mono h h' a n : h ⊑ h' -> node_ok h a n -> node_ok h' a n.
Proof.
  intros Hle Hok. eapply node_ok_step; eauto using node_le_refl.
Qed.

Lemma wf_extend h h' :
  wf h -> h ⊑ h' ->
  (∀ a n', nodes h' !! a = Some n' ->
           nodes h !! a = Some n' ∨ node_ok h' a n') ->
  (∀ s sc', scopes h' !! s = Some sc' ->
            (∃ sc, scopes h !! s = Some sc ∧ Scope.node sc' = Scope.node sc) ∨
            Scope.node sc' < length (nodes h')) ->
  wf h'.
Proof.
  intros [Hn Hs] Hle Hnodes Hscopes. split.
  - intros a n' Ha. destruct (Hnodes a n' Ha) as [Hold|]; [|done].
    eapply node_ok_mono; eauto.
  - intros s sc' Hsc'. destruct (Hscopes s sc' Hsc') as [(sc & Hsc & ->)|]; [|done].
    eapply Nat.lt_le_trans; [by eapply Hs|by apply heap_le_nodes_length].
Qed.

Lemma wf_empty : wf empty_heap.
Proof. split; intros ? ?; simpl; by rewrite lookup_nil. Qed.

(** ** The entries the child extractor returns lie below the node *)

Lemma list_max_In (l : list nat) x : In x l -> (x <= list_max l)%nat.
Proof.
  induction l as [|y l IH]; simpl; [done|]. intros [->|Hin]; [lia|].
  specialize (IH Hin). lia.
Qed.

Lemma height_elem elems e : In e elems -> smaller (VArr elems) e.
Proof.
  intros Hin. unfold smaller. simpl.
  apply Nat.lt_succ_r, list_max_In, in_map_iff. eauto.
Qed.

Lemma height_assoc props key v : assoc key props = Some v -> smaller (VObj props) v.
Proof.
  intros Hk. unfold smaller. simpl. apply Nat.lt_succ_r.
  induction props as [|[k x] rest IH]; simpl in *; [done|].
  destruct (String.eqb k key).
  - injection Hk as ->. lia.
  - specialize (IH Hk). lia.
Qed.

Lemma prop_smaller props key : smaller (VObj props) (VObj props).[key].
Proof.
  simpl. destruct (assoc key props) as [v|] eqn:Hk; [by eapply height_assoc|].
  unfold smaller. simpl. lia.
Qed.

Lemma smaller_elems node elems e :
  smaller node (VArr elems) -> In e elems -> smaller node e.
Proof.
  intros Hs Hin. apply height_elem in Hin. unfold smaller in *. lia.
Qed.

Lemma prop_spliced props key : spliced (VObj props) (VObj props).[key].
Proof.
  pose proof (prop_smaller props key) as Hs. unfold spliced.
  destruct ((VObj props).[key]) eqn:E; try done.
  apply Forall_forall. intros e Hin%list_elem_of_In. by eapply smaller_elems.
Qed.

Lemma prop_elems_smaller props key elems :
  (VObj props).[key] = VArr elems -> Forall (smaller (VObj props)) elems.
Proof. intros E. pose proof (prop_spliced props key) as Hs. by rewrite E in Hs. Qed.

Lemma concat_smaller node arr item :
  Forall (smaller node) arr -> spliced node item -> Forall (smaller node) (arr +++ item).
Proof.
  intros Harr Hitem. unfold concat, spliced in *.
  destruct item; apply Forall_app; auto.
Qed.

Ltac smaller_step :=
  first [ apply Forall_nil_2
        | apply Forall_cons_2
        | apply concat_smaller
        | apply prop_smaller
        | apply prop_spliced
        | progress (unfold spliced at 1; cbv iota)
        | match goal with |- context [if ?b then _ else _] => destruct b end ].

Ltac row_smaller :=
  let props := fresh "props" in
  let elems := fresh "elems" in
  let H := fresh "H" in
  intros props elems H; cbn -[prop concat] in H;
  first [ by apply prop_elems_smaller in H
        | repeat match type of H with
                 | context [if ?b then _ else _] => destruct b
                 end;
          injection H as <-; repeat smaller_step ].

Lemma cases_Program_to_Return_smaller : Forall row_smaller cases_Program_to_Return.
Proof. repeat (apply Forall_cons_2; [row_smaller|]). apply Forall_nil_2. Qed.

Lemma block_handler_finalizer_smaller :
  row_smaller (["ThrowStatement"], block_handler_finalizer).
Proof. unfold block_handler_finalizer. row_smaller. Qed.

Lemma cases_While_to_Literal_smaller : Forall row_smaller cases_While_to_Literal.
Proof. repeat (apply Forall_cons_2; [row_smaller|]). apply Forall_nil_2. Qed.

Lemma grammar_smaller : Forall row_smaller grammar.
Proof.
  unfold grammar. repeat apply Forall_app_2.
  - apply cases_Program_to_Return_smaller.
  - apply Forall_cons_2; [apply block_handler_finalizer_smaller|apply Forall_nil_2].
  - apply cases_While_to_Literal_smaller.
Qed.

Lemma switch_In kind cases body :
  switch kind cases = Some body ->
  ∃ labels, In (labels, body) cases ∧ existsb (strict_eq_str kind) labels = true.
Proof.
  induction cases as [|[labels b] rest IH]; simpl; [done|].
  destruct (existsb _ labels) eqn:E.
  - intros [= ->]. eauto.
  - intros (labels' & Hin & Hl)%IH. eauto.
Qed.

Lemma strict_eq_str_labels kind labels :
  existsb (strict_eq_str kind) labels = true -> ∃ s, kind = VStr s.
Proof.
  intros (label & _ & Heq)%existsb_exists. destruct kind; try done. eauto.
Qed.

(** Only an object has a kind that a [case] label matches. *)
Lemma kind_of_object node s : node.["type"] = VStr s -> ∃ props, node = VObj props.
Proof.
  intros Hk. destruct node; try (rewrite prop_type_not_object in Hk; done). eauto.
Qed.

Lemma children_by_Ret cases node v :
  children_by cases node = Ret v ->
  ∃ props labels body,
    node = VObj props ∧ In (labels, body) cases ∧ v = body node.
Proof.
  unfold children_by, get. destruct (nullish node) eqn:Hn; [done|]. simpl.
  destruct (switch _ cases) as [body|] eqn:Hs.
  - intros [= <-]. apply switch_In in Hs as (labels & Hin & Hl).
    apply strict_eq_str_labels in Hl as [s Hk].
    apply kind_of_object in Hk as [props ->]. eauto 6.
  - by destruct (formatNode node).
Qed.

Lemma _children_smaller node elems :
  _children node = Ret (VArr elems) -> Forall (smaller node) elems.
Proof.
  intros (props & labels & body & -> & Hin & Hb)%children_by_Ret.
  pose proof grammar_smaller as Hg.
  apply Forall_forall with (x := (labels, body)) in Hg; [|by apply list_elem_of_In].
  by apply Hg.
Qed.

(** ** children() *)

Lemma new_Node_Ret node parent h :
  nullish node = false ->
  new_Node node parent h =
    (Ret (length (nodes h)),
     mkHeap (nodes h ++ [Node.mk node node.["type"] parent None None]) (scopes h)).
Proof.
  intros Hn. unfold new_Node, bind, lift. by rewrite get_not_nullish.
Qed.

Lemma new_Node_Exc node parent h :
  nullish node = true -> new_Node node parent h = (Exc TypeError, h).
Proof. intros Hn. unfold new_Node, bind, lift, get. by rewrite Hn. Qed.

Lemma Mmap_new_Node this elems h :
  wp (Mmap (fun child => new_Node child (Some this)) elems) h
     (fun r h' =>
        ∃ k, nodes h' = nodes h ++ fresh_children this (take k elems) ∧
             scopes h' = scopes h ∧
             Forall (fun e => nullish e = false) (take k elems) ∧
             match r with
             | Ret cs => k = length elems ∧ cs = seq (length (nodes h)) (length elems)
             | Exc e => e = TypeError
             | Abort => False
             end).
Proof.
  revert h. induction elems as [|e rest IH]; intros h.
  - apply wp_ret. exists 0. simpl. by rewrite app_nil_r.
  - cbn [Mmap]. apply wp_bind. destruct (nullish e) eqn:Hn.
    + unfold wp. rewrite new_Node_Exc by done. simpl.
      exists 0. simpl. by rewrite app_nil_r.
    + unfold wp at 1. rewrite new_Node_Ret by done. cbn [fst snd].
      apply wp_bind. eapply wp_mono; [apply IH|].
      intros r h' (k & Hnodes & Hscopes & Hall & Hr). simpl in Hnodes, Hscopes.
      assert (∃ k', nodes h' = nodes h ++ fresh_children this (take k' (e :: rest)) ∧
                    scopes h' = scopes h ∧
                    Forall (fun e => nullish e = false) (take k' (e :: rest)) ∧
                    (k = length rest -> k' = length (e :: rest))) as Hk.
      { exists (S k). simpl. rewrite Hnodes, <- app_assoc. simpl.
        repeat split; auto. }
      destruct Hk as (k' & Hn' & Hs' & Hall' & Hlen).
      destruct r as [cs|ex|]; [|by exists k'|done].
      apply wp_ret. exists k'. destruct Hr as [-> ->].
      repeat split; auto. cbn [nodes]. rewrite length_app. simpl.
      by rewrite Nat.add_1_r.
Qed.

Lemma fresh_children_lookup this elems i n :
  fresh_children this elems !! i = Some n ->
  ∃ e, elems !! i = Some e ∧ n = Node.mk e e.["type"] (Some this) None None.
Proof.
  unfold fresh_children. revert i. induction elems as [|e rest IH]; intros [|i]; simpl; try done.
  - intros [= <-]. eauto.
  - apply IH.
Qed.

Lemma fresh_children_lookup_Some this elems i e :
  elems !! i = Some e ->
  fresh_children this elems !! i = Some (Node.mk e e.["type"] (Some this) None None).
Proof.
  unfold fresh_children. revert i. induction elems as [|e' rest IH]; intros [|i]; simpl; try done.
  - by intros [= <-].
  - apply IH.
Qed.

Lemma fresh_children_parents this elems :
  Forall (fun n => is_Some (Node.parent n)) (fresh_children this elems).
Proof.
  apply Forall_forall. intros n (i & Hi)%list_elem_of_lookup.
  apply fresh_children_lookup in Hi as (e & _ & ->). simpl. eauto.
Qed.

Lemma wf_alloc_children h this elems :
  wf h -> this < length (nodes h) ->
  Forall (fun e => nullish e = false) elems ->
  wf (mkHeap (nodes h ++ fresh_children this elems) (scopes h)).
Proof.
  intros Hwf Hthis Hall.
  eapply wf_extend; [done|apply heap_le_alloc_nodes, fresh_children_parents|..]; simpl.
  - intros a n' Ha. apply lookup_app_Some in Ha as [Ha|[Hge Ha]]; [by left|right].
    apply fresh_children_lookup in Ha as (e & He & ->).
    eapply Forall_lookup_1 in Hall; [|exact He].
    split; simpl; try done.
    + by apply get_not_nullish.
    + intros p [= <-]. lia.
  - intros s sc' Hs. left. eauto.
Qed.

Lemma formatNode_not_Abort node : formatNode node ≠ Abort.
Proof.
  destruct (nullish node) eqn:Hn.
  - by destruct node.
  - by destruct (formatNode_not_nullish node Hn) as [fields ->].
Qed.

Lemma _children_not_Abort node : _children node ≠ Abort.
Proof.
  unfold _children, children_by, get. destruct (nullish node); cbn [obind]; [done|].
  destruct (switch node.["type"] grammar); [done|].
  pose proof (formatNode_not_Abort node). by destruct (formatNode node).
Qed.

Lemma children_spec this h :
  wf h ->
  wp (children this) h
     (fun r h' =>
        wf h' ∧ h ⊑ h' ∧ scopes h' = scopes h ∧
        match r with
        | Ret cs => ∃ n', nodes h' !! this = Some n' ∧ Node.cachedChildren n' = Some cs
        | Exc _ => True
        | Abort => nodes h !! this = None
        end).
Proof.
  intros Hwf. unfold children. apply wp_bind. unfold wp at 1, read_node.
  destruct (nodes h !! this) as [self|] eqn:Hthis; cbn [fst snd];
    [|eauto using heap_le_refl].
  destruct (Node.cachedChildren self) as [cs|] eqn:Hcache.
  { apply wp_ret. eauto 6 using heap_le_refl. }
  apply wp_bind, wp_lift.
  destruct (_children (Node.node self)) as [raw_children|e|] eqn:Hraw;
    [|eauto using heap_le_refl|by apply _children_not_Abort in Hraw].
  destruct raw_children as [| | | | |elems|];
    try (apply wp_throw; eauto using heap_le_refl).
  apply wp_bind. eapply wp_mono; [apply Mmap_new_Node|].
  intros r h1 (k & Hnodes & Hscopes & Hall & Hr).
  assert (this < length (nodes h)) as Hlt by (by eapply lookup_lt_Some).
  assert (h1 = mkHeap (nodes h ++ fresh_children this (take k elems)) (scopes h)) as Hh1.
  { destruct h1. simpl in *. congruence. }
  assert (wf h1) as Hwf1 by (rewrite Hh1; by apply wf_alloc_children).
  assert (h ⊑ h1) as Hle1
    by (rewrite Hh1; apply heap_le_alloc_nodes, fresh_children_parents).
  destruct r as [cs|e|]; [|done..].
  destruct Hr as [-> ->]. rewrite firstn_all in *.
  apply wp_bind. unfold wp at 1, update_node. cbn [fst snd]. apply wp_ret.
  set (h2 := mkHeap _ _).
  assert (nodes h1 !! this = Some self) as Hthis1
    by (rewrite Hnodes; by apply lookup_app_l_Some).
  assert (h1 ⊑ h2) as Hle2.
  { apply heap_le_update_node. intros n Hn.
    assert (n = self) as -> by congruence.
    repeat split; simpl; congruence. }
  assert (nodes h2 !! this = Some (Node.set_cachedChildren
            (seq (length (nodes h)) (length elems)) self)) as Hthis2.
  { unfold h2. simpl. by rewrite list_lookup_alter_eq, Hthis1. }
  split; [|split; [|split]].
  - eapply wf_extend; [exact Hwf1|exact Hle2|..].
    + intros b n' Ha. destruct (decide (b = this)) as [->|Hne].
      * right. rewrite Hthis2 in Ha. injection Ha as <-.
        eapply node_ok_step; [exact Hle2|by apply Hwf1| |..].
        -- repeat split; simpl; congruence.
        -- simpl. intros cs [= <-]. right. exists elems. split; [done|].
           apply Forall2_same_length_lookup_2; [by rewrite length_seq|].
           intros i c e [-> Hi]%lookup_seq He. split; [lia|].
           exists (Node.mk e e.["type"] (Some this) None None).
           split; [|done]. unfold h2. simpl.
           rewrite list_lookup_alter_ne by lia.
           rewrite Hnodes, lookup_app_r by lia.
           replace (length (nodes h) + i - length (nodes h)) with i by lia.
           by apply fresh_children_lookup_Some.
        -- simpl. auto.
      * left. unfold h2 in Ha. simpl in Ha.
        by rewrite list_lookup_alter_ne in Ha.
    + intros s sc' Hs. left. eauto.
  - by eapply heap_le_trans.
  - unfold h2. simpl. done.
  - eauto.
Qed.

(** ** descendents() *)

Lemma cached_children_heights h this n cs fuel :
  cached_children_ok h this n cs ->
  height (Node.node n) < S fuel ->
  Forall (fun c => this < c ∧
                   ∃ m, nodes h !! c = Some m ∧ height (Node.node m) < fuel) cs.
Proof.
  intros (elems & Hel & Hall) Hh. apply _children_smaller in Hel.
  induction Hall as [|c e cs elems (Hlt & m & Hm & Hnode & _) _ IH]; [done|].
  apply Forall_cons in Hel as [He Hel]. apply Forall_cons_2; [|auto].
  split; [done|]. exists m. split; [done|]. unfold smaller in He. rewrite Hnode. lia.
Qed.

Lemma descendents_spec fuel : ∀ this lst h n,
  wf h -> nodes h !! this = Some n -> height (Node.node n) < fuel ->
  wp (descendents fuel this lst) h
     (fun r h' =>
        wf h' ∧ h ⊑ h' ∧ scopes h' = scopes h ∧
        match r with
        | Ret l => ∃ ds, l = lst ++ ds ∧
                         Forall (fun d => this < d ∧ d < length (nodes h')) ds
        | Exc _ => True
        | Abort => False
        end).
Proof.
  induction fuel as [|fuel IH]; intros this lst h n Hwf Hthis Hh; [lia|].
  cbn [descendents]. apply wp_bind.
  eapply wp_mono; [by apply children_spec|].
  intros r h1 (Hwf1 & Hle1 & Hsc1 & Hr).
  destruct r as [cs|e|]; [|done|congruence].
  destruct Hr as (n1 & Hthis1 & Hcache).
  assert (Forall (fun c => this < c ∧
            ∃ m, nodes h1 !! c = Some m ∧ height (Node.node m) < fuel) cs) as Hcs.
  { eapply cached_children_heights; [by eapply Hwf1|].
    destruct Hle1 as (Hn & _). destruct (Hn this n Hthis) as (n' & Hn' & Hnode & _).
    assert (n' = n1) as -> by congruence. by rewrite Hnode. }
  clear Hthis1 Hcache n1.
  cut (∀ lst0,
        wp (Mfold (fun lst child => descendents fuel child (lst ++ [child])) lst0 cs) h1
          (fun r h' =>
             wf h' ∧ h1 ⊑ h' ∧ scopes h' = scopes h1 ∧
             match r with
             | Ret l => ∃ ds, l = lst0 ++ ds ∧
                              Forall (fun d => this < d ∧ d < length (nodes h')) ds
             | Exc _ => True
             | Abort => False
             end)).
  { intros Hcut. eapply wp_mono; [apply Hcut|].
    intros r h' (Hwf' & Hle' & Hsc' & Hr). split_and!; try done.
    - by eapply heap_le_trans.
    - congruence. }
  clear Hle1 Hsc1 Hthis Hh Hwf n h.
  revert h1 Hwf1 Hcs. induction cs as [|c cs IHcs]; intros h1 Hwf1 Hcs lst0.
  { apply wp_ret. split_and!; [done|apply heap_le_refl|done|].
    exists []. by rewrite app_nil_r. }
  apply Forall_cons in Hcs as [(Hlt & m & Hm & Hhm) Hcs].
  cbn [Mfold]. apply wp_bind.
  eapply wp_mono; [by eapply IH|].
  intros r h2 (Hwf2 & Hle2 & Hsc2 & Hr).
  destruct r as [l|e|]; [|by split_and!|done].
  destruct Hr as (ds1 & -> & Hds1).
  eapply wp_mono; [apply IHcs; [done|]|].
  { eapply Forall_impl; [exact Hcs|]. simpl.
    intros c' (Hlt' & m' & Hm' & Hhm'). split; [done|].
    destruct Hle2 as (Hn & _). destruct (Hn c' m' Hm') as (m2 & Hm2 & Hnode & _).
    exists m2. by rewrite Hnode. }
  intros r h3 (Hwf3 & Hle3 & Hsc3 & Hr).
  split; [done|]. split; [by eapply heap_le_trans|]. split; [congruence|].
  destruct r as [l|e|]; [|done..].
  destruct Hr as (ds2 & -> & Hds2).
  exists ([c] ++ ds1 ++ ds2). split; [by rewrite <- !app_assoc|].
  pose proof (heap_le_nodes_length _ _ Hle3) as Hlen3.
  pose proof (heap_le_nodes_length _ _ Hle2) as Hlen2.
  apply lookup_lt_Some in Hm.
  repeat apply Forall_app_2; [| |done].
  - apply Forall_singleton. lia.
  - eapply Forall_impl; [exact Hds1|]. simpl. lia.
Qed.

(** ** scope() *)

Lemma scope_spec fuel : ∀ this h,
  wf h -> this < length (nodes h) -> this < fuel ->
  wp (scope fuel this) h
     (fun r h' =>
        wf h' ∧ h ⊑ h' ∧ length (nodes h') = length (nodes h) ∧
        (∀ b, this < b -> nodes h' !! b = nodes h !! b) ∧
        match r with
        | Ret s => ∃ n', nodes h' !! this = Some n' ∧ Node.cachedScope n' = Some s
        | Exc e => e = TypeError ∧ ¬ rooted h
        | Abort => False
        end).
Proof.
  induction fuel as [|fuel IH]; intros this h Hwf Hvalid Hfuel; [lia|].
  cbn [scope]. apply wp_bind. unfold wp at 1, read_node.
  destruct (lookup_lt_is_Some_2 _ _ Hvalid) as [self Hthis]. rewrite Hthis.
  cbn [fst snd].
  destruct (Node.cachedScope self) as [s|] eqn:Hcache.
  { apply wp_ret. split_and!; eauto using heap_le_refl. }
  (* what remains after [_scope] returned [s] in the store [h1] *)
  assert (∀ s h1,
            wf h1 -> h ⊑ h1 -> length (nodes h1) = length (nodes h) ->
            (∀ b, this <= b -> nodes h1 !! b = nodes h !! b)%nat ->
            cached_scope_ok h1 this self s ->
            wp (_ <~ update_node this (Node.set_cachedScope s) ;; ret s) h1
               (fun r h' =>
                  wf h' ∧ h ⊑ h' ∧ length (nodes h') = length (nodes h) ∧
                  (∀ b, this < b -> nodes h' !! b = nodes h !! b) ∧
                  match r with
                  | Ret s => ∃ n', nodes h' !! this = Some n' ∧
                                   Node.cachedScope n' = Some s
                  | Exc e => e = TypeError ∧ ¬ rooted h
                  | Abort => False
                  end)) as Hstore.
  { intros s h1 Hwf1 Hle1 Hlen1 Hframe1 Hok.
    apply wp_bind. unfold wp at 1, update_node. cbn [fst snd]. apply wp_ret.
    set (h2 := mkHeap _ _).
    assert (nodes h1 !! this = Some self) as Hthis1 by (rewrite Hframe1; auto).
    assert (h1 ⊑ h2) as Hle2.
    { apply heap_le_update_node. intros n Hn.
      assert (n = self) as -> by congruence.
      repeat split; simpl; congruence. }
    assert (nodes h2 !! this = Some (Node.set_cachedScope s self)) as Hthis2.
    { unfold h2. simpl. by rewrite list_lookup_alter_eq, Hthis1. }
    split; [|split; [|split; [|split]]].
    - eapply wf_extend; [exact Hwf1|exact Hle2|..].
      + intros b n' Hb. destruct (decide (b = this)) as [->|Hne].
        * right. rewrite Hthis2 in Hb. injection Hb as <-.
          eapply node_ok_step; [exact Hle2|by apply Hwf1| |..].
          -- repeat split; simpl; congruence.
          -- simpl. auto.
          -- simpl. intros s' [= <-]. right.
             eapply cached_scope_ok_mono; eauto.
        * left. unfold h2 in Hb. simpl in Hb.
          by rewrite list_lookup_alter_ne in Hb.
      + intros s' sc' Hs. left. eauto.
    - by eapply heap_le_trans.
    - unfold h2. simpl. rewrite length_alter. done.
    - intros b Hb. unfold h2. simpl. rewrite list_lookup_alter_ne by lia.
      apply Hframe1. lia.
    - eauto. }
  apply wp_bind. unfold _scope_with. apply wp_bind.
  unfold wp at 1, read_node. rewrite Hthis. cbn [fst snd].
  destruct (is_scope_kind (Node.type self)) eqn:Hkind.
  - unfold wp at 1, new_Scope, alloc_scope. cbn [fst snd].
    apply Hstore; simpl; try done.
    + eapply wf_extend; [exact Hwf|apply heap_le_alloc_scope|..]; simpl.
      * auto.
      * intros s sc' [Hs|[_ Hs]]%lookup_app_Some; [left; eauto|right].
        apply list_lookup_singleton_Some in Hs as [_ <-]. done.
    + apply heap_le_alloc_scope.
    + exists (Scope.mk this None). rewrite Hkind. split; [|done].
      simpl. apply list_lookup_middle. done.
  - destruct (Node.parent self) as [p|] eqn:Hpar.
    + assert (p < this) as Hp by (by eapply (parent_ok _ _ _ (wf_nodes _ Hwf _ _ Hthis))).
      eapply wp_mono; [apply IH; [done|lia..]|].
      intros r h1 (Hwf1 & Hle1 & Hlen1 & Hframe1 & Hr).
      destruct r as [s|e|];
        [|destruct Hr; split_and!; try done; intros b Hb; apply Hframe1; lia|done].
      destruct Hr as (m & Hm & Hms).
      apply Hstore; try done.
      * intros b Hb. apply Hframe1. lia.
      * destruct (scope_ok _ _ _ (wf_nodes _ Hwf1 _ _ Hm) _ Hms) as (sc & Hsc & _).
        exists sc. split; [done|]. rewrite Hkind. eauto.
    + apply wp_throw. split_and!; eauto using heap_le_refl.
      intros Hrooted. specialize (Hrooted this self Hthis Hpar). congruence.
Qed.

(** ** Pre-order: the accumulating traversal against concatenation *)

Lemma bind_run {A B} (c : M A) (k : A -> M B) h :
  bind c k h = match c h with
               | (Ret a, h') => k a h'
               | (Exc e, h') => (Exc e, h')
               | (Abort, h') => (Abort, h')
               end.
Proof. reflexivity. Qed.

Lemma child_then_descendants_run fuel acc c h :
  child_then_descendants fuel acc c h =
  match descendents fuel c [] h with
  | (Ret ds, h') => (Ret (acc ++ c :: ds), h')
  | (Exc e, h') => (Exc e, h')
  | (Abort, h') => (Abort, h')
  end.
Proof. reflexivity. Qed.

Lemma Mfold_child_then_descendants fuel cs : ∀ acc h,
  Mfold (child_then_descendants fuel) acc cs h =
  (ds <~ Mfold (child_then_descendants fuel) [] cs ;; ret (acc ++ ds)) h.
Proof.
  induction cs as [|c cs IH]; intros acc h.
  - rewrite bind_run. simpl. unfold ret. by rewrite app_nil_r.
  - cbn [Mfold]. rewrite !bind_run, !child_then_descendants_run.
    destruct (descendents fuel c [] h) as [[ds|e|] h1]; try done.
    rewrite IH, (IH ([] ++ c :: ds)), !bind_run.
    destruct (Mfold _ [] cs h1) as [[ds'|e|] h2]; try done.
    unfold ret. simpl. by rewrite <- app_assoc.
Qed.

Lemma descendents_accumulates fuel : ∀ this lst h,
  descendents fuel this lst h =
  (ds <~ descendents fuel this [] ;; ret (lst ++ ds)) h.
Proof.
  induction fuel as [|fuel IH]; intros this lst h; [done|].
  cbn [descendents]. rewrite !bind_run.
  destruct (children this h) as [[cs|e|] h1]; try done.
  clear h. revert lst h1. induction cs as [|c cs IHcs]; intros lst h.
  - simpl. unfold ret. by rewrite app_nil_r.
  - cbn [Mfold]. rewrite !bind_run, IH, (IH c ([] ++ [c])), !bind_run.
    destruct (descendents fuel c [] h) as [[ds|e|] h1]; try done.
    unfold ret. cbv beta iota. rewrite IHcs, (IHcs (([] ++ [c]) ++ ds)).
    destruct (Mfold _ [] cs h1) as [[ds'|e|] h2]; try done.
    unfold ret. simpl. by rewrite <- !app_assoc.
Qed.

Lemma Mfold_descendents fuel cs : ∀ lst h,
  Mfold (fun lst child => descendents fuel child (lst ++ [child])) lst cs h =
  (ds <~ Mfold (child_then_descendants fuel) [] cs ;; ret (lst ++ ds)) h.
Proof.
  induction cs as [|c cs IH]; intros lst h.
  - rewrite bind_run. simpl. unfold ret. by rewrite app_nil_r.
  - cbn [Mfold]. rewrite !bind_run, descendents_accumulates,
      child_then_descendants_run, bind_run.
    destruct (descendents fuel c [] h) as [[ds|e|] h1]; try done.
    unfold ret. cbv beta iota. rewrite IH, Mfold_child_then_descendants, !bind_run.
    destruct (Mfold _ [] cs h1) as [[ds'|e|] h2]; try done.
    unfold ret. simpl. by rewrite <- !app_assoc.
Qed.

Lemma descendents_concatenates fuel this h :
  descendents (S fuel) this [] h =
  (cs <~ children this ;; Mfold (child_then_descendants fuel) [] cs) h.
Proof.
  cbn [descendents]. rewrite !bind_run.
  destruct (children this h) as [[cs|e|] h1]; try done.
  rewrite Mfold_descendents, bind_run.
  by destruct (Mfold _ [] cs h1) as [[ds|e|] h2].
Qed.

Lemma leaf_kinds_children node kind :
  get node "type" = Ret kind ->
  existsb (strict_eq_str kind) leaf_kinds = true ->
  _children node = Ret (VArr []).
Proof.
  intros Hget (label & Hin & Heq)%existsb_exists.
  unfold _children, children_by. rewrite Hget. cbn [obind].
  destruct kind as [| | | |s| |]; try done. simpl in Heq.
  apply String.eqb_eq in Heq as ->.
  simpl in Hin.
  repeat (destruct Hin as [<-|Hin]; [reflexivity|]). done.
Qed.

Lemma children_leaf this h n :
  wf h -> nodes h !! this = Some n ->
  _children (Node.node n) = Ret (VArr []) ->
  ∃ h', children this h = (Ret [], h').
Proof.
  intros Hwf Hthis Hleaf. unfold children, bind, read_node. rewrite Hthis.
  destruct (Node.cachedChildren n) as [cs|] eqn:Hcache.
  - destruct (children_ok _ _ _ (wf_nodes _ Hwf _ _ Hthis) _ Hcache)
      as (elems & Hel & Hall).
    assert (elems = []) as -> by congruence.
    apply Forall2_nil_inv_r in Hall as ->. eauto.
  - unfold lift. rewrite Hleaf. simpl. eauto.
Qed.

(** ** More fuel changes nothing

    A run that does not stop for lack of fuel gives the same outcome and the
    same store with any larger amount. *)

Lemma refines_refl {A} (c : M A) : refines c c.
Proof. by intros h r h' H _. Qed.

Lemma refines_bind {A B} (c c' : M A) (k k' : A -> M B) :
  refines c c' -> (∀ a, refines (k a) (k' a)) -> refines (bind c k) (bind c' k').
Proof.
  intros Hc Hk h r h' Hrun Hr. rewrite bind_run in *.
  destruct (c h) as [[a|e|] h1] eqn:E.
  - rewrite (Hc h (Ret a) h1) by done. by apply Hk.
  - rewrite (Hc h (Exc e) h1) by done. done.
  - congruence.
Qed.

Lemma refines_Mfold {A S} (f g : S -> A -> M S) :
  (∀ s a, refines (f s a) (g s a)) -> ∀ l s, refines (Mfold f s l) (Mfold g s l).
Proof.
  intros Hfg l. induction l as [|a l IH]; intros s; [apply refines_refl|].
  cbn [Mfold]. apply refines_bind; auto.
Qed.

Lemma descendents_fuel_mono n : ∀ m this lst,
  (n <= m)%nat -> refines (descendents n this lst) (descendents m this lst).
Proof.
  induction n as [|n IH]; intros m this lst Hle.
  - intros h r h' [= <- <-]. done.
  - destruct m as [|m]; [lia|]. cbn [descendents].
    apply refines_bind; [apply refines_refl|].
    intros cs. apply refines_Mfold. intros l c. apply IH. lia.
Qed.

Lemma scope_with_fuel_mono (f g : nat -> M nat) this :
  (∀ p, refines (f p) (g p)) -> refines (_scope_with f this) (_scope_with g this).
Proof.
  intros Hfg. unfold _scope_with. apply refines_bind; [apply refines_refl|].
  intros self. destruct (is_scope_kind _); [apply refines_refl|].
  destruct (Node.parent self); [apply Hfg|apply refines_refl].
Qed.

Lemma scope_fuel_mono n : ∀ m this,
  (n <= m)%nat -> refines (scope n this) (scope m this).
Proof.
  induction n as [|n IH]; intros m this Hle.
  - intros h r h' [= <- <-]. done.
  - destruct m as [|m]; [lia|]. cbn [scope].
    apply refines_bind; [apply refines_refl|].
    intros self. destruct (Node.cachedScope self); [apply refines_refl|].
    apply refines_bind; [|intros; apply refines_refl].
    apply scope_with_fuel_mono. intros p. apply IH. lia.
Qed.

Lemma parentScope_fuel_mono n m this :
  (n <= m)%nat -> refines (parentScope n this) (parentScope m this).
Proof.
  intros Hle. unfold parentScope. apply refines_bind; [apply refines_refl|].
  intros self. destruct (Node.parent self); [by apply scope_fuel_mono|apply refines_refl].
Qed.

Lemma collect_fuel_mono n m scope lst d :
  (n <= m)%nat -> refines (collect n scope lst d) (collect m scope lst d).
Proof.
  intros Hle. unfold collect.
  apply refines_bind; [by apply parentScope_fuel_mono|intros; apply refines_refl].
Qed.

Lemma _identifiers_fuel_mono n m this :
  (n <= m)%nat -> refines (_identifiers n this) (_identifiers m this).
Proof.
  intros Hle. unfold _identifiers. apply refines_bind; [apply refines_refl|].
  intros sc. apply refines_bind; [by apply descendents_fuel_mono|].
  intros ds. apply refines_Mfold. intros l d. by apply collect_fuel_mono.
Qed.

Lemma identifiers_fuel_mono n m this :
  (n <= m)%nat -> refines (identifiers n this) (identifiers m this).
Proof.
  intros Hle. unfold identifiers. apply refines_bind; [apply refines_refl|].
  intros sc. destruct (Scope.cachedIdentifiers sc); [apply refines_refl|].
  apply refines_bind; [by apply _identifiers_fuel_mono|intros; apply refines_refl].
Qed.

(** ** identifiers() *)

Lemma parentScope_spec fuel d h :
  wf h -> d < length (nodes h) -> (length (nodes h) <= fuel)%nat ->
  wp (parentScope fuel d) h
     (fun r h' =>
        wf h' ∧ h ⊑ h' ∧ length (nodes h') = length (nodes h) ∧
        match r with
        | Ret s => resolved h' d = Some s
        | Exc e => e = TypeError
        | Abort => False
        end).
Proof.
  intros Hwf Hvalid Hfuel. unfold parentScope. apply wp_bind.
  unfold wp at 1, read_node.
  destruct (lookup_lt_is_Some_2 _ _ Hvalid) as [self Hd]. rewrite Hd. cbn [fst snd].
  destruct (Node.parent self) as [p|] eqn:Hpar.
  - assert (p < d) as Hp by (by eapply (parent_ok _ _ _ (wf_nodes _ Hwf _ _ Hd))).
    eapply wp_mono; [apply scope_spec; [done|lia..]|].
    intros r h' (Hwf' & Hle' & Hlen' & _ & Hr). split_and!; try done.
    destruct r as [s|e|]; [|by destruct Hr|done].
    destruct Hr as (m & Hm & Hms). unfold resolved.
    destruct Hle' as (Hn & _). destruct (Hn d self Hd) as (n' & -> & _ & _ & -> & _).
    by rewrite Hpar, Hm.
  - apply wp_throw. split_and!; eauto using heap_le_refl.
Qed.

Lemma declaring_sites_cons h scope d ds :
  declaring_sites h scope (d :: ds) =
  declaring_sites h scope [d] ++ declaring_sites h scope ds.
Proof. unfold declaring_sites. by rewrite (filter_app _ [d] ds). Qed.

(** Once the parent of [d] has resolved, [d] registers the same name in
    every later store. *)
Lemma declaring_sites_stable h h' scope d :
  h ⊑ h' -> d < length (nodes h) -> is_Some (resolved h d) ->
  map (declared_name h') (declaring_sites h' scope [d]) =
  map (declared_name h) (declaring_sites h scope [d]).
Proof.
  intros Hle Hvalid [s Hs].
  destruct (lookup_lt_is_Some_2 _ _ Hvalid) as [n Hd].
  pose proof (raw_mono _ _ _ _ Hle Hd) as Hraw'.
  pose proof (raw_mono _ _ _ _ (heap_le_refl h) Hd) as Hraw.
  pose proof (resolved_mono _ _ _ _ Hle Hs) as Hs'.
  unfold declaring_sites. rewrite !filter_cons, !filter_nil.
  rewrite Hraw, Hraw', Hs, Hs'.
  repeat case_decide; try done; simpl; unfold declared_name;
    by rewrite ?Hraw, ?Hraw'.
Qed.

Lemma declaring_sites_single h scope d :
  declaring_sites h scope [d] =
  if decide (resolved h d = Some scope ∧ has_identifier (raw h d) = true)
  then [d] else [].
Proof. unfold declaring_sites. by rewrite filter_cons, filter_nil. Qed.

Lemma collect_spec fuel scope lst d h :
  wf h -> d < length (nodes h) -> (length (nodes h) <= fuel)%nat ->
  wp (collect fuel scope lst d) h
     (fun r h' =>
        wf h' ∧ h ⊑ h' ∧ length (nodes h') = length (nodes h) ∧
        match r with
        | Ret l => is_Some (resolved h' d) ∧
                   l = lst ++ map (declared_name h') (declaring_sites h' scope [d])
        | Exc _ => True
        | Abort => False
        end).
Proof.
  intros Hwf Hvalid Hfuel. unfold collect. apply wp_bind.
  eapply wp_mono; [by apply parentScope_spec|].
  intros r h' (Hwf' & Hle' & Hlen' & Hr).
  destruct r as [ps|e|]; [|done..].
  destruct (Nat.eqb_spec ps scope) as [->|Hne]; cbn [negb].
  - apply wp_bind. unfold wp at 1, read_node.
    assert (d < length (nodes h')) as Hvalid' by lia.
    destruct (lookup_lt_is_Some_2 _ _ Hvalid') as [self Hd]. rewrite Hd. cbn [fst snd].
    pose proof (raw_mono _ _ _ _ (heap_le_refl h') Hd) as Hraw.
    apply wp_bind, wp_lift.
    rewrite get_not_nullish.
    2: { pose proof (type_ok _ _ _ (wf_nodes _ Hwf' _ _ Hd)) as Hty.
         unfold get in Hty. by destruct (nullish (Node.node self)). }
    destruct (truthy _ && strict_eq_str _ _) eqn:Hid; apply wp_ret;
      (split_and!; [done|done|done|eauto|]);
      rewrite declaring_sites_single; unfold declared_name, has_identifier;
      rewrite Hraw, Hr; case_decide as Hdec; simpl;
      rewrite ?Hraw, ?app_nil_r; try done.
    + destruct Hdec. done.
    + destruct Hdec as [_ Hdec]. congruence.
  - apply wp_ret. split_and!; [done|done|done|eauto|].
    rewrite declaring_sites_single.
    case_decide as Hdec; [destruct Hdec; congruence|]. simpl. by rewrite app_nil_r.
Qed.

Lemma Mfold_collect_spec fuel scope ds : ∀ lst h,
  wf h -> Forall (fun d => d < length (nodes h)) ds ->
  (length (nodes h) <= fuel)%nat ->
  wp (Mfold (collect fuel scope) lst ds) h
     (fun r h' =>
        wf h' ∧ h ⊑ h' ∧ length (nodes h') = length (nodes h) ∧
        match r with
        | Ret l => Forall (fun d => is_Some (resolved h' d)) ds ∧
                   l = lst ++ map (declared_name h') (declaring_sites h' scope ds)
        | Exc _ => True
        | Abort => False
        end).
Proof.
  induction ds as [|d ds IH]; intros lst h Hwf Hds Hfuel.
  - apply wp_ret. split_and!; eauto using heap_le_refl. simpl. by rewrite app_nil_r.
  - apply Forall_cons in Hds as [Hd Hds]. cbn [Mfold]. apply wp_bind.
    eapply wp_mono; [by apply collect_spec|].
    intros r h1 (Hwf1 & Hle1 & Hlen1 & Hr).
    destruct r as [l1|e|]; [|done..]. destruct Hr as [Hres ->].
    eapply wp_mono; [apply IH; [done| |lia]|].
    { eapply Forall_impl; [exact Hds|]. simpl. lia. }
    intros r h' (Hwf' & Hle' & Hlen' & Hr).
    split_and!; [done|by eapply heap_le_trans|lia|].
    destruct r as [l|e|]; [|done..]. destruct Hr as [Hall ->]. split.
    + apply Forall_cons_2; [|done].
      destruct Hres as [s Hs]. exists s. by eapply resolved_mono.
    + rewrite (declaring_sites_cons h' scope d ds), map_app, app_assoc.
      by rewrite (declaring_sites_stable h1 h') by (done || lia).
Qed.

Lemma _identifiers_spec fuel h this sc n r1 h1 :
  wf h -> scopes h !! this = Some sc ->
  nodes h !! Scope.node sc = Some n -> height (Node.node n) < fuel ->
  descendents fuel (Scope.node sc) [] h = (r1, h1) ->
  (length (nodes h1) <= fuel)%nat ->
  wp (_identifiers fuel this) h
     (fun r h' =>
        wf h' ∧ h ⊑ h' ∧
        match r with
        | Ret l => ∃ ds, r1 = Ret ds ∧ h1 ⊑ h' ∧
                         Forall (fun d => is_Some (resolved h' d)) ds ∧
                         l = map (declared_name h') (declaring_sites h' this ds)
        | Exc _ => True
        | Abort => False
        end).
Proof.
  intros Hwf Hthis Hnode Hh Hrun Hfuel. unfold _identifiers. apply wp_bind.
  unfold wp at 1, read_scope. rewrite Hthis. cbn [fst snd]. apply wp_bind.
  pose proof (descendents_spec fuel _ [] _ _ Hwf Hnode Hh) as Hdesc.
  unfold wp in Hdesc |- *. rewrite Hrun in *. cbn [fst snd] in *.
  destruct Hdesc as (Hwf1 & Hle1 & Hsc1 & Hr).
  destruct r1 as [l1|e|]; [|done..].
  destruct Hr as (ds & -> & Hds). simpl.
  eapply (wp_mono (Mfold (collect fuel this) [] ds));
    [apply Mfold_collect_spec; [done| |done]|].
  { eapply Forall_impl; [exact Hds|]. simpl. lia. }
  intros r h' (Hwf' & Hle' & Hlen' & Hr).
  split_and!; [done|by eapply heap_le_trans|].
  destruct r as [l|e|]; [|done..]. destruct Hr as [Hall ->]. eauto.
Qed.

(** ** Runs that did not stop for lack of fuel *)

Lemma descendents_run fuel this h n r h' :
  wf h -> nodes h !! this = Some n ->
  descendents fuel this [] h = (r, h') -> r ≠ Abort ->
  wf h' ∧ h ⊑ h' ∧
  ∀ ds, r = Ret ds -> Forall (fun d => this < d) ds.
Proof.
  intros Hwf Hthis Hrun Hr.
  set (m := Nat.max fuel (S (height (Node.node n)))).
  pose proof (descendents_fuel_mono fuel m this [] (Nat.le_max_l _ _) h r h' Hrun Hr)
    as Hrun'.
  pose proof (descendents_spec m this [] h n Hwf Hthis) as Hspec.
  unfold wp in Hspec. rewrite Hrun' in Hspec. cbn [fst snd] in Hspec.
  destruct Hspec as (Hwf' & Hle' & _ & Hds); [lia|]. split_and!; try done.
  intros ds ->. destruct Hds as (ds' & -> & Hds). simpl.
  eapply Forall_impl; [exact Hds|]. simpl. lia.
Qed.

Lemma scope_run fuel this h s h' :
  wf h -> this < length (nodes h) ->
  scope fuel this h = (Ret s, h') ->
  wf h' ∧ h ⊑ h' ∧ ∃ n', nodes h' !! this = Some n' ∧ Node.cachedScope n' = Some s.
Proof.
  intros Hwf Hvalid Hrun.
  set (m := Nat.max fuel (S this)).
  assert (scope m this h = (Ret s, h')) as Hrun'
    by (eapply scope_fuel_mono; [apply Nat.le_max_l|exact Hrun|done]).
  pose proof (scope_spec m this h Hwf Hvalid) as Hspec.
  unfold wp in Hspec. rewrite Hrun' in Hspec. cbn [fst snd] in Hspec.
  destruct Hspec as (Hwf' & Hle' & _ & _ & Hr); [lia|]. done.
Qed.

Lemma parentScope_run fuel d h s h' :
  wf h -> d < length (nodes h) ->
  parentScope fuel d h = (Ret s, h') ->
  wf h' ∧ h ⊑ h' ∧ resolved h' d = Some s.
Proof.
  intros Hwf Hvalid Hrun.
  set (m := Nat.max fuel (length (nodes h))).
  assert (parentScope m d h = (Ret s, h')) as Hrun'
    by (eapply parentScope_fuel_mono; [apply Nat.le_max_l|exact Hrun|done]).
  pose proof (parentScope_spec m d h Hwf Hvalid) as Hspec.
  unfold wp in Hspec. rewrite Hrun' in Hspec. cbn [fst snd] in Hspec.
  destruct Hspec as (Hwf' & Hle' & _ & Hr); [lia|]. done.
Qed.

(** ** The store right after wrapping a tree *)

Lemma Spiderman_initial ast :
  nullish ast = false -> Spiderman ast empty_heap = (Ret 0, initial_heap ast).
Proof. intros Hn. unfold Spiderman. by rewrite new_Node_Ret. Qed.

Lemma initial_heap_wf ast : nullish ast = false -> wf (initial_heap ast).
Proof.
  intros Hn. split.
  - intros [|a] n Ha; [|done]. injection Ha as <-. split; simpl; try done.
    by apply get_not_nullish.
  - intros s sc Hs. done.
Qed.

Lemma initial_heap_rooted ast :
  is_scope_kind ast.["type"] = true -> rooted (initial_heap ast).
Proof. intros Hk [|a] n Ha; [|done]. by injection Ha as <-. Qed.

(** C3: [descendents()] is the concatenation, over the children in order,
    of the child followed by the child's own [descendents()]; on a node of a
    kind without children it is empty; and with fuel above the height of the
    raw node the traversal does not stop for lack of fuel. *)
Theorem descendents_preorder (fuel this : nat) (h : heap) (n : Node.t) :
  wf h -> nodes h !! this = Some n ->
  descendents (S fuel) this [] h =
    (cs <~ children this ;;
     Mfold (fun acc child =>
              ds <~ descendents fuel child [] ;; ret (acc ++ child :: ds)) [] cs) h ∧
  (existsb (strict_eq_str (Node.type n)) leaf_kinds = true ->
   ∃ h', descendents (S fuel) this [] h = (Ret [], h')) ∧
  ((height (Node.node n) <= fuel)%nat ->
   (descendents (S fuel) this [] h).1 ≠ Abort ∧
   ∀ more, (fuel <= more)%nat ->
           descendents (S more) this [] h = descendents (S fuel) this [] h).
Proof.
  intros Hwf Hthis. split_and!.
  - apply descendents_concatenates.
  - intros Hleaf.
    assert (_children (Node.node n) = Ret (VArr [])) as Hc.
    { eapply leaf_kinds_children; [|exact Hleaf].
      apply (type_ok _ _ _ (wf_nodes _ Hwf _ _ Hthis)). }
    destruct (children_leaf this h n Hwf Hthis Hc) as [h' Hrun].
    exists h'. cbn [descendents]. by rewrite bind_run, Hrun.
  - intros Hfuel.
    assert ((descendents (S fuel) this [] h).1 ≠ Abort) as Hna.
    { pose proof (descendents_spec (S fuel) this [] h n Hwf Hthis) as Hspec.
      unfold wp in Hspec. destruct Hspec as (_ & _ & _ & Hr); [lia|].
      by destruct ((descendents (S fuel) this [] h).1). }
    split; [done|]. intros more Hmore.
    destruct (descendents (S fuel) this [] h) as [r h'] eqn:Hrun.
    eapply descendents_fuel_mono; [|exact Hrun|done]. lia.
Qed.

Lemma descendents_preorder_witness :
  (descendents 2 0 [] (initial_heap (Sample.Program [Sample.Identifier "a"]))).1
  = Ret [1].
Proof.
  pose proof (descendents_preorder 1 0
                (initial_heap (Sample.Program [Sample.Identifier "a"])) _
                (initial_heap_wf (Sample.Program [Sample.Identifier "a"]) eq_refl)
                eq_refl) as (Heq & _ & _).
  rewrite Heq. reflexivity.
Defined.

(** ** The introducer of the scope *)

Lemma introducer_mono fuel : ∀ h h' a a0,
  h ⊑ h' -> introducer fuel h a = Some a0 -> introducer fuel h' a = Some a0.
Proof.
  induction fuel as [|fuel IH]; intros h h' a a0 Hle; [done|]. cbn [introducer].
  destruct (nodes h !! a) as [n|] eqn:Ha; [|done].
  destruct Hle as (Hn & Hrest). destruct (Hn a n Ha) as (n' & -> & _ & -> & -> & _).
  destruct (is_scope_kind (Node.type n)); [done|].
  destruct (Node.parent n) as [p|]; [|done]. by apply IH.
Qed.

(** In a well-formed tree every node has an introducer. *)
Lemma introducer_total h : wf h -> rooted h -> ∀ a fuel,
  a < length (nodes h) -> a < fuel -> is_Some (introducer fuel h a).
Proof.
  intros Hwf Hrooted a. induction (lt_wf a) as [a _ IH]. intros fuel Hvalid Hfuel.
  destruct fuel as [|fuel]; [lia|]. cbn [introducer].
  destruct (lookup_lt_is_Some_2 _ _ Hvalid) as [n Ha]. rewrite Ha.
  destruct (is_scope_kind (Node.type n)) eqn:Hk; [eauto|].
  destruct (Node.parent n) as [p|] eqn:Hp.
  - pose proof (parent_ok _ _ _ (wf_nodes _ Hwf _ _ Ha) _ Hp) as Hlt.
    apply IH; lia.
  - specialize (Hrooted a n Ha Hp). congruence.
Qed.

(** A cached scope is the one cached at the introducer, whose node is the
    introducer. *)
Lemma cached_scope_introducer h : wf h -> ∀ a n s fuel,
  nodes h !! a = Some n -> Node.cachedScope n = Some s -> a < fuel ->
  ∃ a0 n0 sc,
    introducer fuel h a = Some a0 ∧
    nodes h !! a0 = Some n0 ∧ Node.cachedScope n0 = Some s ∧
    scopes h !! s = Some sc ∧ Scope.node sc = a0.
Proof.
  intros Hwf a. induction (lt_wf a) as [a _ IH]. intros n s fuel Ha Hs Hfuel.
  destruct fuel as [|fuel]; [lia|]. cbn [introducer]. rewrite Ha.
  destruct (scope_ok _ _ _ (wf_nodes _ Hwf _ _ Ha) _ Hs) as (sc & Hsc & Hk).
  destruct (is_scope_kind (Node.type n)); [eauto 10|].
  destruct Hk as (p & m & Hp & Hm & Hms). rewrite Hp.
  pose proof (parent_ok _ _ _ (wf_nodes _ Hwf _ _ Ha) _ Hp) as Hlt.
  apply (IH p Hlt m s fuel Hm Hms). lia.
Qed.

(** [scope()] in terms of the test the code makes on the kind. *)
Lemma scope_resolves (fuel this : nat) (h : heap) (self : Node.t) :
  wf h -> rooted h -> nodes h !! this = Some self -> this < fuel ->
  ∃ s h' sc,
    scope fuel this h = (Ret s, h') ∧
    scopes h' !! s = Some sc ∧
    (is_scope_kind (Node.type self) = true -> Scope.node sc = this) ∧
    (is_scope_kind (Node.type self) = false ->
     ∃ p, Node.parent self = Some p ∧
          (scope fuel p h).1 = Ret s ∧ scope fuel p h' = (Ret s, h')) ∧
    introducer fuel h this = Some (Scope.node sc) ∧
    scope fuel this h' = (Ret s, h') ∧
    (∀ other s2 h2,
       other < length (nodes h) -> other < fuel ->
       introducer fuel h other = introducer fuel h this ->
       scope fuel other h' = (Ret s2, h2) -> s2 = s) ∧
    (Node.parent self = None -> Scope.node sc = this).
Proof.
  intros Hwf Hrooted Hthis Hfuel.
  assert (this < length (nodes h)) as Hvalid by (by eapply lookup_lt_Some).
  pose proof (scope_spec fuel this h Hwf Hvalid Hfuel) as Hspec.
  unfold wp in Hspec. destruct (scope fuel this h) as [r h'] eqn:Hrun.
  cbn [fst snd] in Hspec. destruct Hspec as (Hwf' & Hle' & Hlen' & _ & Hr).
  destruct r as [s|e|]; [|by destruct Hr|done].
  destruct Hr as (n' & Hn' & Hcached).
  destruct (scope_ok _ _ _ (wf_nodes _ Hwf' _ _ Hn') _ Hcached) as (sc & Hsc & Hkind).
  pose proof Hle' as (Hnodes & _).
  destruct (Hnodes this self Hthis) as (n'' & Hn'' & _ & Hty & Hpar & _).
  assert (n'' = n') as -> by congruence. rewrite Hty in Hkind.
  (* a node whose scope is cached answers from the cache *)
  assert (∀ a m h0, nodes h0 !! a = Some m -> Node.cachedScope m = Some s ->
                    scope fuel a h0 = (Ret s, h0)) as Hhit.
  { intros a m h0 Ha Hm. destruct fuel as [|fuel]; [lia|].
    cbn [scope]. rewrite bind_run. unfold read_node. by rewrite Ha, Hm. }
  (* the scope is the one cached at the introducer *)
  destruct (cached_scope_introducer h' Hwf' this n' s fuel Hn' Hcached Hfuel)
    as (a0 & n0 & sc0 & Hintro' & Hn0 & Hs0 & Hsc0 & Hnode0).
  assert (sc0 = sc) as -> by congruence.
  assert (introducer fuel h this = Some a0) as Hintro.
  { destruct (introducer_total h Hwf Hrooted this fuel Hvalid Hfuel) as [x Hx].
    pose proof (introducer_mono fuel h h' this x Hle' Hx). congruence. }
  exists s, h', sc. split_and!; try done.
  - intros Hk. by rewrite Hk in Hkind.
  - intros Hk. rewrite Hk in Hkind. destruct Hkind as (p & m & Hp & Hm & Hms).
    rewrite Hpar in Hp. exists p. split_and!; [done| |by eapply Hhit].
    destruct fuel as [|fuel]; [lia|].
    cbn [scope] in Hrun. rewrite bind_run in Hrun. unfold read_node at 1 in Hrun.
    rewrite Hthis in Hrun.
    destruct (Node.cachedScope self) as [s0|] eqn:Hcache.
    + injection Hrun as <- <-.
      destruct (scope_ok _ _ _ (wf_nodes _ Hwf _ _ Hthis) _ Hcache) as (sc1 & _ & Hk0).
      rewrite Hk in Hk0. destruct Hk0 as (p0 & m0 & Hp0 & Hm0 & Hms0).
      assert (p0 = p) as -> by congruence.
      by rewrite (Hhit p m0 h).
    + rewrite bind_run in Hrun. unfold _scope_with at 1 in Hrun.
      rewrite bind_run in Hrun. unfold read_node at 1 in Hrun.
      rewrite Hthis, Hk, Hp in Hrun.
      destruct (scope fuel p h) as [[s1|e|] h1] eqn:Hprun; try done.
      rewrite bind_run in Hrun. cbn in Hrun. injection Hrun as -> _.
      by rewrite (scope_fuel_mono fuel (S fuel) p (Nat.le_succ_diag_r _) h (Ret s) h1).
  - by rewrite Hintro, Hnode0.
  - by eapply Hhit.
  - intros other s2 h2 Hother Hofuel Hsame Hrun2.
    assert (other < length (nodes h')) as Hother' by lia.
    destruct (scope_run _ _ _ _ _ Hwf' Hother' Hrun2) as (Hwf2 & Hle2 & m & Hm & Hms).
    destruct (cached_scope_introducer h2 Hwf2 other m s2 fuel Hm Hms Hofuel)
      as (b0 & m0 & _ & Hintro2 & Hm0 & Hms0 & _).
    rewrite Hintro in Hsame.
    pose proof (introducer_mono fuel h h2 other a0
                  (heap_le_trans _ _ _ Hle' Hle2) Hsame) as Hintro2'.
    assert (b0 = a0) as -> by congruence.
    destruct Hle2 as (Hnodes2 & _).
    destruct (Hnodes2 a0 n0 Hn0) as (m0' & Hm0' & _ & _ & _ & _ & Hkeep).
    specialize (Hkeep s Hs0). congruence.
  - intros Hroot. rewrite (Hrooted this self Hthis Hroot) in Hkind. done.
Qed.

(** The test of the code picks out the three kinds. *)
Lemma is_scope_kind_introduces kind : is_scope_kind kind = introduces_scope kind.
Proof.
  destruct kind as [| | | |name| |]; try reflexivity.
  unfold is_scope_kind, introduces_scope, scope_kinds. apply Bool.eq_iff_eq_true.
  rewrite existsb_exists, bool_decide_eq_true. split.
  - intros (label & Hin & Heq). simpl in Heq. apply String.eqb_eq in Heq as ->.
    by apply list_elem_of_In.
  - intros Hin. exists name. split; [by apply list_elem_of_In|].
    simpl. apply String.eqb_refl.
Qed.

Lemma introduces_scope_kinds kind :
  introduces_scope kind = true <->
  kind = VStr "Program" ∨ kind = VStr "FunctionDeclaration" ∨
  kind = VStr "FunctionExpression".
Proof.
  destruct kind as [| | | |name| |]; simpl;
    try (split; [done|by intros [|[|]]]).
  rewrite bool_decide_eq_true. unfold scope_kinds.
  rewrite !elem_of_cons, elem_of_nil. split.
  - intros [->|[->|[->|[]]]]; auto.
  - intros [[= ->]|[[= ->]|[= ->]]]; auto.
Qed.

Lemma introducer_nearest fuel : ∀ h a,
  introducer fuel h a = nearest_introducer fuel h a.
Proof.
  induction fuel as [|fuel IH]; intros h a; [done|]. cbn [introducer nearest_introducer].
  destruct (nodes h !! a) as [n|]; [|done]. rewrite is_scope_kind_introduces.
  destruct (introduces_scope (Node.type n)); [done|].
  destruct (Node.parent n); [apply IH|done].
Qed.

Lemma well_rooted_rooted h : well_rooted h -> rooted h.
Proof. intros Hr a n Ha Hp. rewrite is_scope_kind_introduces. by eapply Hr. Qed.

(** C2: in a well-formed tree [scope()] returns, for every wrapped node, a
    Scope of the store.  When the kind of the node is Program,
    FunctionDeclaration or FunctionExpression, the node of that Scope is the
    wrapped node itself.  When it is none of the three, the node has a
    parent and the Scope is the one [scope()] returns on the parent.  So the
    node of the Scope is the nearest node of one of the three kinds from the
    wrapped node upwards, every node resolves to one Scope (a second call,
    and a call on any node with the same nearest such node, returns the same
    Scope object), and the root resolves to a Scope whose node is the
    root. *)
Theorem scope_resolution (fuel this : nat) (h : heap) (self : Node.t) :
  wf h -> well_rooted h -> nodes h !! this = Some self -> this < fuel ->
  ∃ s h' sc,
    scope fuel this h = (Ret s, h') ∧
    scopes h' !! s = Some sc ∧
    (Node.type self = VStr "Program" ∨ Node.type self = VStr "FunctionDeclaration" ∨
     Node.type self = VStr "FunctionExpression" ->
     Scope.node sc = this) ∧
    (Node.type self ≠ VStr "Program" -> Node.type self ≠ VStr "FunctionDeclaration" ->
     Node.type self ≠ VStr "FunctionExpression" ->
     ∃ p, Node.parent self = Some p ∧
          (scope fuel p h).1 = Ret s ∧ scope fuel p h' = (Ret s, h')) ∧
    nearest_introducer fuel h this = Some (Scope.node sc) ∧
    scope fuel this h' = (Ret s, h') ∧
    (∀ other s2 h2,
       other < length (nodes h) -> other < fuel ->
       nearest_introducer fuel h other = nearest_introducer fuel h this ->
       scope fuel other h' = (Ret s2, h2) -> s2 = s) ∧
    (Node.parent self = None -> Scope.node sc = this).
Proof.
  intros Hwf Hrooted Hthis Hfuel.
  destruct (scope_resolves fuel this h self Hwf (well_rooted_rooted h Hrooted) Hthis Hfuel)
    as (s & h' & sc & Hrun & Hsc & Hown & Hparent & Hintro & Hagain & Hshare & Hroot).
  exists s, h', sc. split_and!; try done.
  - intros Hkind. apply Hown. rewrite is_scope_kind_introduces.
    by apply introduces_scope_kinds.
  - intros H1 H2 H3. apply Hparent. rewrite is_scope_kind_introduces.
    destruct (introduces_scope (Node.type self)) eqn:Hk; [|done].
    apply introduces_scope_kinds in Hk as [?|[?|?]]; done.
  - by rewrite <- introducer_nearest.
  - intros other s2 h2 Hother Hofuel Hsame. apply Hshare; [done..|].
    by rewrite !introducer_nearest.
Qed.

(** A declarator inside the body of the function of the sample program,
    after a walk of the tree: its chain of parents is the declaration, the
    block and the function declaration, and it resolves to the Scope of the
    function (wrapper 3), which is the Scope its parent resolves to, and
    not to a Scope of its own or of the root. *)
Lemma scope_resolution_witness :
  let h := (descendents 10 0 [] (initial_heap Sample.ast)).2 in
  ∃ s h' sc,
    scope 40 27 h = (Ret s, h') ∧
    scopes h' !! s = Some sc ∧
    Scope.node sc = 3 ∧
    raw h 3 = Sample.function_f ∧
    (scope 40 25 h).1 = Ret s ∧
    scope 40 27 h' = (Ret s, h').
Proof.
  pose (h := (descendents 10 0 [] (initial_heap Sample.ast)).2).
  assert (wf h ∧ initial_heap Sample.ast ⊑ h) as [Hwf Hle].
  { unfold h. clear h.
    destruct (descendents 10 0 [] (initial_heap Sample.ast)) as [r h0] eqn:Hrun.
    destruct (descendents_run 10 0 (initial_heap Sample.ast) _ r h0
                (initial_heap_wf Sample.ast eq_refl) eq_refl Hrun) as (? & ? & _);
      [intros ->; by vm_compute in Hrun|].
    split; assumption. }
  assert (well_rooted h) as Hrooted.
  { intros a n Ha Hp. rewrite <- is_scope_kind_introduces.
    exact (rooted_mono _ _ Hle (initial_heap_rooted Sample.ast eq_refl) a n Ha Hp). }
  assert (∃ self, nodes h !! 27 = Some self ∧
                  Node.type self = VStr "VariableDeclarator" ∧
                  Node.parent self = Some 25) as (self & Hself & Htype & Hpar).
  { eexists. split_and!; [by vm_compute|reflexivity..]. }
  destruct (scope_resolution 40 27 h self Hwf Hrooted Hself) as
    (s & h' & sc & Hrun & Hsc & _ & Hparent & Hintro & Hagain & _); [lia|].
  exists s, h', sc. split_and!.
  - exact Hrun.
  - exact Hsc.
  - assert (nearest_introducer 40 h 27 = Some 3) as Hnearest
      by (vm_compute; reflexivity).
    rewrite Hnearest in Hintro. injection Hintro as Hnode. symmetry. exact Hnode.
  - vm_compute. reflexivity.
  - destruct Hparent as (p & Hp & Hprun & _); try (rewrite Htype; discriminate).
    rewrite Hpar in Hp. injection Hp as <-. exact Hprun.
  - exact Hagain.
Defined.

(** ** What a run of [_identifiers] collected *)

Lemma _identifiers_sites fuel this h sc l h' :
  wf h -> scopes h !! this = Some sc ->
  _identifiers fuel this h = (Ret l, h') ->
  ∃ ds h1,
    descendents fuel (Scope.node sc) [] h = (Ret ds, h1) ∧
    wf h' ∧ h ⊑ h' ∧
    Forall (fun d => Scope.node sc < d) ds ∧
    Forall (fun d => is_Some (resolved h' d)) ds ∧
    l = map (declared_name h') (declaring_sites h' this ds).
Proof.
  intros Hwf Hthis Hrun.
  destruct (lookup_lt_is_Some_2 _ _ (wf_scopes _ Hwf _ _ Hthis)) as [n Hnode].
  destruct (descendents fuel (Scope.node sc) [] h) as [r1 h1] eqn:Hdesc.
  assert (∃ ds, r1 = Ret ds) as [ds ->].
  { unfold _identifiers in Hrun. rewrite bind_run in Hrun.
    unfold read_scope at 1 in Hrun. rewrite Hthis, bind_run, Hdesc in Hrun.
    destruct r1; [eauto|done..]. }
  destruct (descendents_run _ _ _ _ _ _ Hwf Hnode Hdesc) as (Hwf1 & Hle1 & Hds); [done|].
  set (m := Nat.max fuel (Nat.max (S (height (Node.node n))) (length (nodes h1)))).
  assert (fuel <= m)%nat as Hm by lia.
  pose proof (descendents_fuel_mono fuel m _ [] Hm h _ h1 Hdesc) as Hdesc'.
  pose proof (_identifiers_fuel_mono fuel m this Hm h _ h' Hrun) as Hrun'.
  pose proof (_identifiers_spec m h this sc n (Ret ds) h1 Hwf Hthis Hnode) as Hspec.
  unfold wp in Hspec. rewrite Hrun' in Hspec by done. cbn [fst snd] in Hspec.
  destruct Hspec as (Hwf' & Hle' & ds' & [= <-] & _ & Hall & ->);
    [lia|by apply Hdesc'|lia|].
  exists ds, h1. split_and!; auto.
Qed.

(** With enough fuel a run of [_identifiers] does not stop for lack of it,
    and more fuel gives the same run. *)
Lemma _identifiers_enough_fuel this h sc :
  wf h -> scopes h !! this = Some sc ->
  ∃ enough, ∀ more, (enough <= more)%nat ->
    (_identifiers more this h).1 ≠ Abort ∧
    _identifiers more this h = _identifiers enough this h.
Proof.
  intros Hwf Hthis.
  destruct (lookup_lt_is_Some_2 _ _ (wf_scopes _ Hwf _ _ Hthis)) as [n Hnode].
  set (f1 := S (height (Node.node n))).
  destruct (descendents f1 (Scope.node sc) [] h) as [r1 h1] eqn:Hdesc.
  assert (r1 ≠ Abort) as Hr1.
  { pose proof (descendents_spec f1 _ [] h n Hwf Hnode) as Hspec.
    unfold wp in Hspec. rewrite Hdesc in Hspec. cbn [fst snd] in Hspec.
    destruct Hspec as (_ & _ & _ & Hr); [unfold f1; lia|]. by destruct r1. }
  set (enough := Nat.max f1 (length (nodes h1))).
  assert (∀ more, (enough <= more)%nat -> (_identifiers more this h).1 ≠ Abort) as Hna.
  { intros more Hmore.
    assert (descendents more (Scope.node sc) [] h = (r1, h1)) as Hdesc'
      by (eapply descendents_fuel_mono; [|exact Hdesc|done]; lia).
    pose proof (_identifiers_spec more h this sc n r1 h1 Hwf Hthis Hnode) as Hspec.
    unfold wp in Hspec.
    destruct Hspec as (_ & _ & Hr); [unfold f1 in *; lia|done|lia|].
    by destruct ((_identifiers more this h).1). }
  exists enough. intros more Hmore. split; [by apply Hna|].
  destruct (_identifiers enough this h) as [r h'] eqn:Hrun.
  eapply _identifiers_fuel_mono; [exact Hmore|exact Hrun|].
  specialize (Hna enough (Nat.le_refl _)). by rewrite Hrun in Hna.
Qed.

(** [identifiers()] on a scope without cached list runs [_identifiers],
    stores the list and returns it; a second call answers from the cache. *)
Lemma identifiers_first_call fuel this h sc l h' :
  wf h -> scopes h !! this = Some sc -> Scope.cachedIdentifiers sc = None ->
  _identifiers fuel this h = (Ret l, h') ->
  ∃ h'', identifiers fuel this h = (Ret l, h'') ∧
         identifiers fuel this h'' = (Ret l, h'').
Proof.
  intros Hwf Hthis Hcache Hrun.
  destruct (_identifiers_sites _ _ _ _ _ _ Hwf Hthis Hrun)
    as (_ & _ & _ & _ & (_ & Hs & _) & _).
  destruct (Hs this sc Hthis) as (sc' & Hsc' & _).
  eexists. split.
  - unfold identifiers. rewrite bind_run. unfold read_scope at 1.
    rewrite Hthis, Hcache, bind_run, Hrun. reflexivity.
  - unfold identifiers. rewrite bind_run. unfold read_scope at 1. simpl.
    by rewrite list_lookup_alter_eq, Hsc'.
Qed.

(** After a walk, asking a node for its parent's scope answers from the
    cache. *)
Lemma parentScope_resolved fuel h d s :
  resolved h d = Some s -> parentScope (S fuel) d h = (Ret s, h).
Proof.
  unfold resolved, parentScope. rewrite bind_run. unfold read_node at 1.
  destruct (nodes h !! d) as [n|]; [|done].
  destruct (Node.parent n) as [p|]; [|done].
  destruct (nodes h !! p) as [m|] eqn:Hp; [|done]. intros Hm.
  cbn [scope]. rewrite bind_run. unfold read_node. by rewrite Hp, Hm.
Qed.

(** C1: [identifiers()] walks the descendants of the scope's node in
    pre-order and returns, in that order and with duplicates, the [id.name]
    of exactly those descendants whose parent's [scope()] is this very Scope
    and whose raw node has an [id] of kind Identifier.  On the first call it
    runs [_identifiers] and caches the list; with enough fuel the run does
    not depend on the fuel.  For the sample program the root scope lists
    foo, i and f. *)
Theorem identifiers_collects (fuel this : nat) (h : heap) (sc : Scope.t) :
  wf h -> scopes h !! this = Some sc ->
  (∀ l h', _identifiers fuel this h = (Ret l, h') ->
     ∃ ds h1,
       descendents fuel (Scope.node sc) [] h = (Ret ds, h1) ∧
       l = map (declared_name h') (declaring_sites h' this ds) ∧
       Forall (fun d => ∃ s, resolved h' d = Some s ∧
                             parentScope fuel d h' = (Ret s, h')) ds ∧
       (Scope.cachedIdentifiers sc = None ->
        ∃ h'', identifiers fuel this h = (Ret l, h'') ∧
               identifiers fuel this h'' = (Ret l, h''))) ∧
  (∃ enough, ∀ more, (enough <= more)%nat ->
     (_identifiers more this h).1 ≠ Abort ∧
     _identifiers more this h = _identifiers enough this h) ∧
  ((r <~ Spiderman Sample.ast ;; s <~ scope 1 r ;; identifiers 40 s) empty_heap).1
    = Ret [VStr "foo"; VStr "i"; VStr "f"].
Proof.
  intros Hwf Hthis. split_and!.
  - intros l h' Hrun.
    destruct (_identifiers_sites _ _ _ _ _ _ Hwf Hthis Hrun)
      as (ds & h1 & Hdesc & _ & _ & _ & Hall & Hl).
    exists ds, h1. split_and!; [done..| |].
    + destruct fuel as [|fuel]; [done|].
      eapply Forall_impl; [exact Hall|]. simpl.
      intros d [s Hs]. exists s. split; [done|]. by apply parentScope_resolved.
    + intros Hcache. by eapply identifiers_first_call.
  - by eapply _identifiers_enough_fuel.
  - vm_compute. reflexivity.
Qed.

Lemma identifiers_collects_witness :
  ∃ enough, ∀ more, (enough <= more)%nat ->
    (_identifiers more 0 (scope 1 0 (initial_heap Sample.ast)).2).1 ≠ Abort.
Proof.
  destruct (identifiers_collects 0 0 (scope 1 0 (initial_heap Sample.ast)).2
              (Scope.mk 0 None)) as (_ & [enough Hen] & _).
  - destruct (scope_run 1 0 (initial_heap Sample.ast) 0 (scope 1 0 (initial_heap Sample.ast)).2)
      as (Hwf & _); [apply (initial_heap_wf Sample.ast eq_refl)|simpl; lia|reflexivity|done].
  - reflexivity.
  - exists enough. intros more Hmore. by apply Hen.
Defined.

(** ** A function's own name *)

Lemma function_kind_scope_kind type :
  is_function_kind type = true -> is_scope_kind type = true.
Proof.
  unfold is_function_kind, is_scope_kind. simpl.
  destruct (strict_eq_str type "Program"); [done|]. by intros ->.
Qed.

(** A cached scope was introduced at the node that caches it or above. *)
Lemma cached_scope_above h : wf h -> ∀ a n s sc,
  nodes h !! a = Some n -> Node.cachedScope n = Some s ->
  scopes h !! s = Some sc -> (Scope.node sc <= a)%nat.
Proof.
  intros Hwf a. induction (lt_wf a) as [a _ IH]. intros n s sc Ha Hs Hsc.
  destruct (scope_ok _ _ _ (wf_nodes _ Hwf _ _ Ha) _ Hs) as (sc' & Hsc' & Hk).
  assert (sc' = sc) as -> by congruence.
  destruct (is_scope_kind (Node.type n)); [lia|].
  destruct Hk as (p & m & Hp & Hm & Hms).
  pose proof (parent_ok _ _ _ (wf_nodes _ Hwf _ _ Ha) _ Hp) as Hlt.
  specialize (IH p Hlt m s sc Hm Hms Hsc). lia.
Qed.

(** C10: a function node with a name, whose parent resolves to the scope
    [outer], has that name collected into the list of [outer] whenever the walk over
    the descendants of [outer]'s node reaches it; the scope the function itself
    introduces is another Scope, and the walk for that one runs over the
    function's descendants only, so the function node is not among the nodes
    it collects from. *)
Theorem function_name_in_enclosing_scope
    (fuel f outer : nat) (h0 h : heap) (fn : Node.t) (sc : Scope.t) :
  wf h0 -> nodes h0 !! f = Some fn ->
  is_function_kind (Node.type fn) = true ->
  has_identifier (Node.node fn) = true ->
  parentScope fuel f h0 = (Ret outer, h) ->
  scopes h !! outer = Some sc ->
  (∀ ds h1 l h',
     descendents fuel (Scope.node sc) [] h = (Ret ds, h1) -> In f ds ->
     _identifiers fuel outer h = (Ret l, h') ->
     l = map (declared_name h') (declaring_sites h' outer ds) ∧
     In f (declaring_sites h' outer ds) ∧
     In (Node.node fn).["id"].["name"] l) ∧
  (∀ Sf hf lf hf',
     scope fuel f h = (Ret Sf, hf) ->
     _identifiers fuel Sf hf = (Ret lf, hf') ->
     Sf ≠ outer ∧
     ∃ scf dsf hf1,
       scopes hf !! Sf = Some scf ∧ Scope.node scf = f ∧
       descendents fuel f [] hf = (Ret dsf, hf1) ∧
       lf = map (declared_name hf') (declaring_sites hf' Sf dsf) ∧
       ¬ In f dsf ∧ ¬ In f (declaring_sites hf' Sf dsf)).
Proof.
  intros Hwf0 Hf Hkind Hid Hps Houter.
  assert (f < length (nodes h0)) as Hvalid0 by (by eapply lookup_lt_Some).
  destruct (parentScope_run _ _ _ _ _ Hwf0 Hvalid0 Hps) as (Hwf & Hle0 & Hres).
  assert (f < length (nodes h)) as Hvalid by (by eapply heap_le_valid).
  split.
  - intros ds h1 l h' Hdesc Hin Hrun.
    destruct (_identifiers_sites _ _ _ _ _ _ Hwf Houter Hrun)
      as (ds' & h1' & Hdesc' & Hwf' & Hle' & _ & _ & Hl).
    assert (ds' = ds) as -> by congruence.
    assert (raw h' f = Node.node fn) as Hraw
      by (apply (raw_mono h0 h' f fn); [by apply (heap_le_trans h0 h h')|done]).
    assert (In f (declaring_sites h' outer ds)) as Hsite.
    { apply list_elem_of_In, list_elem_of_filter. split; [|by apply list_elem_of_In].
      split; [by eapply resolved_mono|]. by rewrite Hraw. }
    split_and!; [done..|].
    rewrite Hl. apply in_map_iff. exists f. split; [|done].
    unfold declared_name. by rewrite Hraw.
  - intros Sf hf lf hf' Hscope Hrun.
    destruct (scope_run _ _ _ _ _ Hwf Hvalid Hscope) as (Hwff & Hlef & nf & Hnf & Hcached).
    destruct (scope_ok _ _ _ (wf_nodes _ Hwff _ _ Hnf) _ Hcached) as (scf & Hscf & Hk).
    assert (Node.type nf = Node.type fn) as Hty.
    { destruct (heap_le_trans _ _ _ Hle0 Hlef) as (Hn & _).
      destruct (Hn f fn Hf) as (nf' & Hnf' & _ & Hty & _). congruence. }
    rewrite Hty, (function_kind_scope_kind _ Hkind) in Hk.
    destruct (_identifiers_sites _ _ _ _ _ _ Hwff Hscf Hrun)
      as (dsf & hf1 & Hdesc & _ & _ & Hds & _ & Hl).
    rewrite Hk in Hdesc, Hds.
    assert (¬ In f dsf) as Hnotin.
    { intros Hin%list_elem_of_In. eapply Forall_forall in Hds; [|exact Hin]. lia. }
    split.
    + intros ->.
      destruct Hlef as (_ & Hs & _). destruct (Hs outer sc Houter) as (sc' & Hsc' & Hnode & _).
      assert (sc' = scf) as -> by congruence.
      unfold resolved in Hres.
      destruct (nodes h !! f) as [nfh|] eqn:Hfh; [|done].
      destruct (Node.parent nfh) as [p|] eqn:Hp; [|done].
      destruct (nodes h !! p) as [m|] eqn:Hm; [|done].
      pose proof (parent_ok _ _ _ (wf_nodes _ Hwf _ _ Hfh) _ Hp) as Hlt.
      pose proof (cached_scope_above h Hwf p m outer sc Hm Hres Houter) as Hab.
      lia.
    + exists scf, dsf, hf1. split_and!; try done.
      intros Hin%list_elem_of_In%list_elem_of_filter.
      destruct Hin as [_ Hin]. by apply Hnotin, list_elem_of_In.
Qed.

Lemma function_name_in_enclosing_scope_witness :
  let h := (parentScope 1 3 (children 0 (initial_heap Sample.ast)).2).2 in
  (∃ l h', _identifiers 40 0 h = (Ret l, h') ∧ In (VStr "f") l) ∧
  (∃ own hf lf hf',
     scope 40 3 h = (Ret own, hf) ∧ _identifiers 40 own hf = (Ret lf, hf') ∧
     own ≠ 0 ∧ lf = [VStr "inner"]).
Proof.
  set (h0 := (children 0 (initial_heap Sample.ast)).2).
  intros h.
  assert (wf h0) as Hwf0.
  { pose proof (children_spec 0 (initial_heap Sample.ast)
                  (initial_heap_wf Sample.ast eq_refl)) as Hspec.
    unfold wp in Hspec. by destruct Hspec as (Hwf0 & _). }
  destruct (function_name_in_enclosing_scope 40 3 0 h0 h
              (Node.mk Sample.function_f (VStr "FunctionDeclaration") (Some 0) None None)
              (Scope.mk 0 None) Hwf0 eq_refl eq_refl eq_refl) as [Hin Hown].
  - vm_compute. reflexivity.
  - vm_compute. reflexivity.
  - split.
    + destruct (_identifiers 40 0 h) as [r h'] eqn:Hrun.
      assert (∃ l, r = Ret l) as [l ->].
      { pose proof Hrun as Hval. vm_compute in Hval. injection Hval as <- _. eauto. }
      exists l, h'. split; [done|].
      destruct (descendents 40 0 [] h) as [r h1] eqn:Hdesc.
      assert (∃ ds, r = Ret ds ∧ In 3 ds) as (ds & -> & H3).
      { pose proof Hdesc as Hval. vm_compute in Hval. injection Hval as <- _.
        eexists. split; [done|]. simpl. tauto. }
      destruct (Hin ds h1 l h' Hdesc H3 eq_refl) as (_ & _ & Hname). exact Hname.
    + destruct (scope 40 3 h) as [r hf] eqn:Hscope.
      assert (∃ own, r = Ret own) as [own ->].
      { pose proof Hscope as Hval. vm_compute in Hval. injection Hval as <- _. eauto. }
      destruct (_identifiers 40 own hf) as [r hf'] eqn:Hrun.
      assert (r = Ret [VStr "inner"]) as ->.
      { pose proof Hscope as Hval. vm_compute in Hval. injection Hval as <- <-.
        pose proof Hrun as Hval. vm_compute in Hval. by injection Hval as <- _. }
      exists own, hf, [VStr "inner"], hf'. split_and!; [done..| |done].
      by destruct (Hown own hf _ hf' eq_refl Hrun) as [Hne _].
Defined.

(** ** A missing child *)

(** The later revision's guard, on an entry that is missing: the digest is
    asked of [Spiderman.formatNode], which is not there, so what is thrown
    is the TypeError of that call and not the missing-child string. *)
Lemma Part000_wrap_child_missing self child h :
  truthy child = false -> Part000.wrap_child self child h = (Exc TypeError, h).
Proof. intros Hc. unfold Part000.wrap_child. by rewrite Hc. Qed.

Lemma Part000_wrap_child_present self child h :
  truthy child = true -> Part000.wrap_child self child h = new_Node child (Some self) h.
Proof. intros Hc. unfold Part000.wrap_child. by rewrite Hc. Qed.

(** C7: [children()] on a node with a missing required child.  For an if
    statement without consequent the extractor returns the test followed by
    undefined.  [spiderman.js] wraps every entry unchecked, and wrapping
    undefined throws a TypeError; the later revision has the check, but
    builds its message with [Spiderman.formatNode], which that revision does
    not define, so it throws a TypeError as well.  Neither throws the
    missing-child string with the parent's digest. *)
Theorem missing_child_children :
  _children Sample.if_without_consequent
    = Ret (VArr [Sample.Identifier "c"; VUndefined]) ∧
  ((r <~ Spiderman Sample.if_without_consequent ;; children r) empty_heap).1
    = Exc TypeError ∧
  ((r <~ Spiderman Sample.if_without_consequent ;; Part000.children r) empty_heap).1
    = Exc TypeError ∧
  ∀ digest,
    ((r <~ Spiderman Sample.if_without_consequent ;; Part000.children r) empty_heap).1
    ≠ Exc (Thrown ("Missing child: " +:+ digest)).
Proof. split_and!; try reflexivity. intros digest. discriminate. Qed.

(** The guard of the later revision never throws the missing-child string:
    for any wrapper without cache whose entries include a falsy one,
    [children] ends in the TypeError. *)
Lemma Part000_Mmap_wrap_child_missing this elems : ∀ h,
  Exists (fun e => truthy e = false) elems ->
  (Mmap (Part000.wrap_child this) elems h).1 = Exc TypeError.
Proof.
  induction elems as [|e rest IH]; intros h Hex; [by apply Exists_nil in Hex|].
  cbn [Mmap]. rewrite bind_run. destruct (truthy e) eqn:He.
  - rewrite Part000_wrap_child_present, new_Node_Ret
      by eauto using truthy_not_nullish.
    apply Exists_cons in Hex as [Hex|Hex]; [congruence|].
    rewrite bind_run.
    match goal with
    | |- context [Mmap _ rest ?h1] =>
        specialize (IH h1 Hex);
        destruct (Mmap (Part000.wrap_child this) rest h1) as [[cs|ex|] h2]
    end; simpl in *; congruence.
  - by rewrite Part000_wrap_child_missing.
Qed.

Lemma Part000_children_missing this h self elems :
  nodes h !! this = Some self -> Node.cachedChildren self = None ->
  Part000._children (Node.node self) = Ret (VArr elems) ->
  Exists (fun e => truthy e = false) elems ->
  (Part000.children this h).1 = Exc TypeError.
Proof.
  intros Hthis Hcache Hraw Hex. unfold Part000.children.
  rewrite bind_run. unfold read_node at 1. rewrite Hthis, Hcache.
  rewrite bind_run. unfold lift at 1. rewrite Hraw, bind_run.
  pose proof (Part000_Mmap_wrap_child_missing this elems h Hex) as Hm.
  destruct (Mmap (Part000.wrap_child this) elems h) as [[cs|ex|] h1];
    simpl in *; congruence.
Qed.

(** ** More runs on programs *)

(** [var a = 1; var a = 2;]: a redeclared name is listed twice. *)
Example identifiers_keeps_duplicates :
  ((r <~ Spiderman
           (Sample.Program
              [Sample.VariableDeclaration
                 [Sample.VariableDeclarator (Sample.Identifier "a") (Sample.Literal 1)];
               Sample.VariableDeclaration
                 [Sample.VariableDeclarator (Sample.Identifier "a") (Sample.Literal 2)]]) ;;
    s <~ scope 1 r ;; identifiers 10 s) empty_heap).1
  = Ret [VStr "a"; VStr "a"].
Proof. vm_compute. reflexivity. Qed.

(** The scope of the function [f] of the sample lists what its body
    declares, and the root scope does not list that. *)
Example identifiers_of_function_scope :
  ((r <~ Spiderman Sample.ast ;; cs <~ children r ;;
    s <~ scope 2 (nth 2 cs 0) ;; identifiers 40 s) empty_heap).1
  = Ret [VStr "inner"].
Proof. vm_compute. reflexivity. Qed.

(** [var g = function h() { };]: the name of the function expression is
    listed in the enclosing scope, after the declarator's, and not in the
    function's own. *)
Example named_function_expression :
  let ast := Sample.Program
               [Sample.VariableDeclaration
                  [Sample.VariableDeclarator (Sample.Identifier "g")
                     (Sample.FunctionExpression (Sample.Identifier "h") []
                        (Sample.BlockStatement []))]] in
  ((r <~ Spiderman ast ;; s <~ scope 1 r ;; identifiers 10 s) empty_heap).1
    = Ret [VStr "g"; VStr "h"] ∧
  ((r <~ Spiderman ast ;; ds <~ descendents 10 r [] ;;
    s <~ scope 10 (nth 2 ds 0) ;; identifiers 10 s) empty_heap).1
    = Ret [].
Proof. split; vm_compute; reflexivity. Qed.

(** A Scope made by [_scope()] directly is not the one the nodes cache, so
    no descendant's parent resolves to it and it lists nothing. *)
Example uncached_scope_lists_nothing :
  ((r <~ Spiderman Sample.ast ;; s <~ _scope 1 r ;; identifiers 40 s) empty_heap).1
  = Ret [].
Proof. vm_compute. reflexivity. Qed.

(** * Further properties of the pure layer *)

(** ** What the child extractor returns *)

Lemma prop_part node key : part_of node node.[key].
Proof. left. eauto. Qed.

Lemma prop_spliced_part node key : spliced_part node node.[key].
Proof.
  unfold spliced_part. destruct (node.[key]) eqn:E; try (left; eauto).
  apply Forall_forall. intros e Hin%list_elem_of_In. right. eauto.
Qed.

Lemma concat_parts node arr item :
  Forall (part_of node) arr -> spliced_part node item ->
  Forall (part_of node) (arr +++ item).
Proof.
  intros Harr Hitem. unfold concat, spliced_part in *.
  destruct item; apply Forall_app; auto.
Qed.

Lemma prop_row_parts node key :
  match node.[key] with
  | VArr elems => Forall (part_of node) elems
  | _ => ∃ k, node.[k] = node.[key]
  end.
Proof.
  pose proof (prop_spliced_part node key) as Hs. unfold spliced_part in Hs.
  destruct (node.[key]) eqn:E; eauto.
Qed.

Ltac parts_step :=
  first [ apply Forall_nil_2
        | apply Forall_cons_2
        | apply concat_parts
        | apply prop_part
        | apply prop_spliced_part
        | progress (unfold spliced_part at 1; cbv iota)
        | match goal with |- context [if ?b then _ else _] => destruct b end ].

Ltac row_parts :=
  let node := fresh "node" in
  let v := fresh "v" in
  let H := fresh "H" in
  intros node v H; cbn -[prop concat] in H; subst v;
  first [ apply prop_row_parts
        | repeat match goal with
                 | |- context [if ?b then _ else _] => destruct b
                 end;
          repeat parts_step ].

Lemma cases_Program_to_Return_parts : Forall row_parts cases_Program_to_Return.
Proof. repeat (apply Forall_cons_2; [row_parts|]). apply Forall_nil_2. Qed.

Lemma block_handler_finalizer_parts label :
  row_parts ([label], block_handler_finalizer).
Proof. unfold block_handler_finalizer. row_parts. Qed.

Lemma cases_While_to_Literal_parts : Forall row_parts cases_While_to_Literal.
Proof. repeat (apply Forall_cons_2; [row_parts|]). apply Forall_nil_2. Qed.

Lemma grammar_parts : Forall row_parts grammar.
Proof.
  unfold grammar. repeat apply Forall_app_2.
  - apply cases_Program_to_Return_parts.
  - apply Forall_cons_2; [apply block_handler_finalizer_parts|apply Forall_nil_2].
  - apply cases_While_to_Literal_parts.
Qed.

Lemma Part000_grammar_parts : Forall row_parts Part000.grammar.
Proof.
  rewrite Part000_grammar_rows. repeat apply Forall_app_2.
  - apply cases_Program_to_Return_parts.
  - apply Forall_cons_2; [row_parts|].
    apply Forall_cons_2; [apply block_handler_finalizer_parts|apply Forall_nil_2].
  - apply cases_While_to_Literal_parts.
Qed.

Lemma children_by_parts cases node v :
  Forall row_parts cases ->
  children_by cases node = Ret v ->
  match v with
  | VArr elems => Forall (part_of node) elems
  | _ => ∃ key, node.[key] = v
  end.
Proof.
  intros Hrows (props & labels & body & -> & Hin & ->)%children_by_Ret.
  apply Forall_forall with (x := (labels, body)) in Hrows; [|by apply list_elem_of_In].
  by apply (Hrows (VObj props)).
Qed.

(** X2: the child extractor invents nothing.  Whatever it returns for a
    node, in spiderman.js and in the later revision alike, is made of the
    node's own parts: when it returns a list, every entry is the value of a
    field of the node or an element of a field that is a list; when it
    returns something else (a missing list field), that is the value of a
    field. *)
Theorem extractor_parts (node v : value) :
  _children node = Ret v ∨ Part000._children node = Ret v ->
  match v with
  | VArr elems => Forall (part_of node) elems
  | _ => ∃ key, node.[key] = v
  end.
Proof.
  intros [H|H].
  - exact (children_by_parts grammar node v grammar_parts H).
  - exact (children_by_parts Part000.grammar node v Part000_grammar_parts H).
Qed.

Lemma extractor_parts_witness :
  Forall (part_of Sample.function_f) [Sample.function_f.["body"]].
Proof.
  apply (extractor_parts Sample.function_f (VArr [Sample.function_f.["body"]])).
  left. reflexivity.
Defined.

Lemma switch_recognized kind cases :
  recognized cases kind = true -> is_Some (switch kind cases).
Proof.
  induction cases as [|[labels body] rest IH]; simpl; [done|].
  destruct (existsb _ labels); simpl; eauto.
Qed.

(** X1: the only way the child extractor fails on a node that is not null
    is the unknown kind: it returns exactly when the node's type is one of
    the case labels, whatever fields the node has or lacks. *)
Theorem extractor_returns_iff_recognized (node : value) :
  nullish node = false ->
  (recognized grammar node.["type"] = true <-> ∃ v, _children node = Ret v).
Proof.
  intros Hn. split.
  - intros [body Hs]%switch_recognized. exists (body node).
    unfold _children, children_by. rewrite get_not_nullish by done.
    cbn [obind]. by rewrite Hs.
  - intros [v Hv]. destruct (recognized grammar node.["type"]) eqn:Hk; [done|].
    unfold _children in Hv. rewrite children_by_unrecognized in Hv by done.
    by destruct (formatNode node).
Qed.

Lemma extractor_returns_iff_recognized_witness :
  recognized grammar (Sample.Identifier "x").["type"] = true <->
  ∃ v, _children (Sample.Identifier "x") = Ret v.
Proof. apply (extractor_returns_iff_recognized (Sample.Identifier "x")). reflexivity. Defined.

(** ** The later revision against spiderman.js *)

Lemma switch_app kind (c1 c2 : case_table) :
  switch kind (c1 ++ c2) =
  match switch kind c1 with
  | Some body => Some body
  | None => switch kind c2
  end.
Proof.
  induction c1 as [|[labels body] rest IH]; simpl; [done|].
  by destruct (existsb (strict_eq_str kind) labels).
Qed.

(** X3: the two revisions of the child extractor differ on throw and try
    statements only: on every node whose type is neither 'ThrowStatement'
    nor 'TryStatement' the later revision, whose table is written out from
    its own file, returns, or throws, exactly what spiderman.js does. *)
Theorem Part000_children_agrees (node : value) :
  strict_eq_str node.["type"] "ThrowStatement" = false ->
  strict_eq_str node.["type"] "TryStatement" = false ->
  Part000._children node = _children node.
Proof.
  intros Hthrow Htry. unfold Part000._children, _children, children_by.
  unfold get. destruct (nullish node); cbn [obind]; [reflexivity|].
  rewrite Part000_grammar_rows. unfold grammar. rewrite !switch_app.
  destruct (switch node.["type"] cases_Program_to_Return); [reflexivity|].
  cbn [switch existsb]. rewrite Hthrow, Htry. reflexivity.
Qed.

Lemma Part000_children_agrees_witness :
  Part000._children Sample.for_i = _children Sample.for_i.
Proof. apply (Part000_children_agrees Sample.for_i); reflexivity. Defined.


(** * Further properties of the store layer *)

(** ** children(), first and later calls *)

Lemma Mmap_new_Node_all this elems : ∀ h,
  Forall (fun e => nullish e = false) elems ->
  Mmap (fun child => new_Node child (Some this)) elems h =
    (Ret (seq (length (nodes h)) (length elems)),
     mkHeap (nodes h ++ fresh_children this elems) (scopes h)).
Proof.
  induction elems as [|e rest IH]; intros h Hall.
  - simpl. unfold ret. rewrite app_nil_r. by destruct h.
  - apply Forall_cons in Hall as [He Hall]. cbn [Mmap]. rewrite bind_run.
    rewrite new_Node_Ret by done. rewrite bind_run, IH by done.
    unfold ret. cbn [nodes scopes length]. rewrite length_app. simpl.
    rewrite Nat.add_1_r, <- app_assoc. done.
Qed.

Lemma Mmap_new_Node_throws this elems h e h' :
  Mmap (fun child => new_Node child (Some this)) elems h = (Exc e, h') ->
  e = TypeError ∧ Exists (fun e => nullish e = true) elems ∧
  scopes h' = scopes h ∧ ∃ news, nodes h' = nodes h ++ news.
Proof.
  intros Hrun. pose proof (Mmap_new_Node this elems h) as Hspec.
  unfold wp in Hspec. rewrite Hrun in Hspec. cbn [fst snd] in Hspec.
  destruct Hspec as (k & Hnodes & Hscopes & _ & ->). split_and!; eauto.
  destruct (decide (Forall (fun e => nullish e = false) elems)) as [Hall|Hex].
  - by rewrite Mmap_new_Node_all in Hrun.
  - apply not_Forall_Exists in Hex; [|intros x; apply _].
    eapply Exists_impl; [exact Hex|]. simpl. intros x. by destruct (nullish x).
Qed.

Lemma Mmap_new_Node_missing this elems h :
  Exists (fun e => nullish e = true) elems ->
  ∃ h', Mmap (fun child => new_Node child (Some this)) elems h = (Exc TypeError, h').
Proof.
  intros Hex. pose proof (Mmap_new_Node this elems h) as Hspec. unfold wp in Hspec.
  destruct (Mmap _ elems h) as [[cs|e|] h'] eqn:Hrun; cbn [fst snd] in Hspec;
    destruct Hspec as (k & _ & _ & Hall & Hr).
  - destruct Hr as [-> _]. rewrite firstn_all in Hall.
    apply Exists_exists in Hex as (x & Hx & Hnull).
    apply Forall_forall with (x := x) in Hall; [congruence|done].
  - subst e. eauto.
  - done.
Qed.

(** X4: the first call of [children()] on a wrapper whose raw node the
    extractor gives a list of entries for, none of them null or undefined:
    it makes one new wrapper per entry, in the order of the list, each with
    the entry as raw node, the entry's type as type, this wrapper as parent
    and empty caches; it stores the list of these wrappers in the cache of
    this wrapper and returns it; nothing else in the store changes. *)
Theorem children_first_call (this : nat) (h : heap) (self : Node.t) (elems : list value) :
  nodes h !! this = Some self -> Node.cachedChildren self = None ->
  _children (Node.node self) = Ret (VArr elems) ->
  Forall (fun e => nullish e = false) elems ->
  let cs := seq (length (nodes h)) (length elems) in
  children this h =
    (Ret cs,
     mkHeap (alter (Node.set_cachedChildren cs) this
                   (nodes h ++ fresh_children this elems))
            (scopes h)).
Proof.
  intros Hthis Hcache Hraw Hall cs. unfold children. rewrite bind_run.
  unfold read_node at 1. rewrite Hthis, Hcache, bind_run. unfold lift at 1.
  rewrite Hraw, bind_run, Mmap_new_Node_all by done. done.
Qed.

Lemma children_first_call_witness :
  children 0 (initial_heap Sample.ast) =
    (Ret [1; 2; 3; 4; 5],
     mkHeap (alter (Node.set_cachedChildren [1; 2; 3; 4; 5]) 0
               (nodes (initial_heap Sample.ast) ++
                fresh_children 0 [Sample.var_foo; Sample.for_i; Sample.function_f;
                                  Sample.call_f; Sample.assign_bar]))
            []).
Proof.
  apply (children_first_call 0 (initial_heap Sample.ast)
           (Node.mk Sample.ast Sample.ast.["type"] None None None)
           [Sample.var_foo; Sample.for_i; Sample.function_f;
            Sample.call_f; Sample.assign_bar]); try reflexivity.
  repeat constructor.
Defined.

(** X5: [children()] is computed once.  After a call that returned, a
    second call returns the very same wrappers and leaves the store as it
    is: no wrapper is made twice for the same entry. *)
Theorem children_cached (this : nat) (h h' : heap) (cs : list nat) :
  children this h = (Ret cs, h') -> children this h' = (Ret cs, h').
Proof.
  unfold children. rewrite !bind_run. unfold read_node at 1.
  destruct (nodes h !! this) as [self|] eqn:Hthis; [|done].
  destruct (Node.cachedChildren self) as [cs0|] eqn:Hcache.
  { intros [= <- <-]. unfold read_node. by rewrite Hthis, Hcache. }
  rewrite bind_run. unfold lift at 1.
  destruct (_children (Node.node self)) as [[| | | | |elems|]|e|]; try done.
  rewrite bind_run. pose proof (Mmap_new_Node this elems h) as Hspec.
  unfold wp in Hspec.
  destruct (Mmap _ elems h) as [[cs1|e|] h1]; try done. cbn [fst snd] in Hspec.
  destruct Hspec as (k & Hnodes & _). intros [= <- <-].
  unfold read_node. cbn [nodes update_node fst snd].
  assert (nodes h1 !! this = Some self) as H1
    by (rewrite Hnodes; by apply lookup_app_l_Some).
  rewrite list_lookup_alter_eq, H1. done.
Qed.

Lemma children_cached_witness :
  let h' := (children 0 (initial_heap Sample.ast)).2 in
  children 0 h' = (Ret [1; 2; 3; 4; 5], h').
Proof. apply (children_cached 0 (initial_heap Sample.ast)). reflexivity. Defined.

(** X6: a call of [children()] that throws caches nothing: the wrapper it
    was called on is as before (in particular its cache is still empty),
    no Scope is touched, and calling it again throws the same exception. *)
Theorem children_throws_again (this : nat) (h h' : heap) (e : exn) :
  children this h = (Exc e, h') ->
  nodes h' !! this = nodes h !! this ∧
  scopes h' = scopes h ∧
  ∃ h'', children this h' = (Exc e, h'').
Proof.
  unfold children. rewrite !bind_run. unfold read_node at 1.
  destruct (nodes h !! this) as [self|] eqn:Hthis; [|done].
  destruct (Node.cachedChildren self) as [cs0|] eqn:Hcache; [done|].
  rewrite bind_run. unfold lift at 1.
  destruct (_children (Node.node self)) as [raw_children|e0|] eqn:Hraw; [| |done].
  - assert (∀ h0, nodes h0 !! this = Some self ->
              (self <~ read_node this ;;
               match Node.cachedChildren self with
               | Some cs => ret cs
               | None =>
                   raw <~ lift (_children (Node.node self)) ;;
                   match raw with
                   | VArr elems =>
                       cs <~ Mmap (fun child => new_Node child (Some this)) elems ;;
                       _ <~ update_node this (Node.set_cachedChildren cs) ;;
                       ret cs
                   | _ => throw TypeError
                   end
               end) h0 =
              match raw_children with
              | VArr elems =>
                  (cs <~ Mmap (fun child => new_Node child (Some this)) elems ;;
                   _ <~ update_node this (Node.set_cachedChildren cs) ;;
                   ret cs) h0
              | _ => (Exc TypeError, h0)
              end) as Hagain.
    { intros h0 H0. rewrite bind_run. unfold read_node at 1.
      rewrite H0, Hcache, bind_run. unfold lift at 1. rewrite Hraw.
      by destruct raw_children. }
    destruct raw_children as [| | | | |elems|];
      try (intros [= <- <-]; split_and!; try done; eexists;
           rewrite <- bind_run, Hagain by done; reflexivity).
    rewrite bind_run.
    destruct (Mmap _ elems h) as [[cs1|e1|] h1] eqn:Hmap; try done.
    intros [= <- <-].
    apply Mmap_new_Node_throws in Hmap as (-> & Hex & Hsc & news & Hnodes).
    assert (nodes h1 !! this = Some self) as H1
      by (rewrite Hnodes; by apply lookup_app_l_Some).
    split_and!; [congruence|done|].
    destruct (Mmap_new_Node_missing this elems h1 Hex) as [h2 Hmap2].
    exists h2. rewrite <- bind_run, Hagain by done. by rewrite bind_run, Hmap2.
  - intros [= <- <-]. split_and!; try done. exists h.
    unfold read_node. rewrite Hthis, Hcache, bind_run. unfold lift. by rewrite Hraw.
Qed.

Lemma children_throws_again_witness :
  let h := initial_heap Sample.if_without_consequent in
  let h' := (children 0 h).2 in
  nodes h' !! 0 = nodes h !! 0 ∧ scopes h' = scopes h ∧
  ∃ h'', children 0 h' = (Exc TypeError, h'').
Proof.
  apply (children_throws_again 0 (initial_heap Sample.if_without_consequent)).
  reflexivity.
Defined.

(** ** descendents(), second call *)

Lemma children_run this h cs h' :
  wf h -> children this h = (Ret cs, h') ->
  wf h' ∧ h ⊑ h' ∧ scopes h' = scopes h ∧
  ∃ n', nodes h' !! this = Some n' ∧ Node.cachedChildren n' = Some cs.
Proof.
  intros Hwf Hrun. pose proof (children_spec this h Hwf) as Hspec.
  unfold wp in Hspec. by rewrite Hrun in Hspec.
Qed.

Lemma children_of_cache this h n cs :
  nodes h !! this = Some n -> Node.cachedChildren n = Some cs ->
  children this h = (Ret cs, h).
Proof.
  intros Hthis Hcache. unfold children. rewrite bind_run. unfold read_node.
  by rewrite Hthis, Hcache.
Qed.

Lemma descendents_valid fuel this lst h r h' :
  descendents fuel this lst h = (r, h') -> r ≠ Abort -> is_Some (nodes h !! this).
Proof.
  destruct fuel as [|fuel]; [by intros [= <- <-]|]. cbn [descendents].
  rewrite bind_run. unfold children. rewrite bind_run. unfold read_node at 1.
  destruct (nodes h !! this); [eauto|]. by intros [= <- <-].
Qed.

Lemma descendents_run_from fuel this lst h r h' :
  wf h -> descendents fuel this lst h = (r, h') -> r ≠ Abort ->
  wf h' ∧ h ⊑ h'.
Proof.
  intros Hwf Hrun Hr.
  destruct (descendents_valid _ _ _ _ _ _ Hrun Hr) as [n Hthis].
  rewrite descendents_accumulates, bind_run in Hrun.
  destruct (descendents fuel this [] h) as [r0 h0] eqn:Hrun0.
  assert (r0 ≠ Abort ∧ h0 = h') as [Hr0 ->].
  { destruct r0; injection Hrun as <- <-; done. }
  by destruct (descendents_run _ _ _ _ _ _ Hwf Hthis Hrun0 Hr0) as (? & ? & _).
Qed.

Lemma Mfold_descendents_stable fuel
  (IH : ∀ this lst h l h', wf h -> descendents fuel this lst h = (Ret l, h') ->
          ∀ h'', h' ⊑ h'' -> descendents fuel this lst h'' = (Ret l, h'')) :
  ∀ cs lst h l h', wf h ->
    Mfold (fun lst child => descendents fuel child (lst ++ [child])) lst cs h = (Ret l, h') ->
    wf h' ∧ h ⊑ h' ∧
    ∀ h'', h' ⊑ h'' ->
      Mfold (fun lst child => descendents fuel child (lst ++ [child])) lst cs h'' = (Ret l, h'').
Proof.
  induction cs as [|c cs IHcs]; intros lst h l h' Hwf Hrun.
  - injection Hrun as <- <-. split_and!; eauto using heap_le_refl.
  - cbn [Mfold] in *. rewrite bind_run in Hrun.
    destruct (descendents fuel c (lst ++ [c]) h) as [[l1|e|] h1] eqn:Hc; try done.
    destruct (descendents_run_from _ _ _ _ _ _ Hwf Hc) as [Hwf1 Hle1]; [done|].
    destruct (IHcs _ _ _ _ Hwf1 Hrun) as (Hwf' & Hle' & Hstable).
    split_and!; [done|by eapply heap_le_trans|].
    intros h'' Hle''. rewrite bind_run.
    rewrite (IH _ _ _ _ _ Hwf Hc h'') by (by eapply heap_le_trans).
    by apply Hstable.
Qed.

Lemma descendents_stable fuel : ∀ this lst h l h',
  wf h -> descendents fuel this lst h = (Ret l, h') ->
  ∀ h'', h' ⊑ h'' -> descendents fuel this lst h'' = (Ret l, h'').
Proof.
  induction fuel as [|fuel IH]; intros this lst h l h' Hwf Hrun h'' Hle; [done|].
  cbn [descendents] in *. rewrite bind_run in *.
  destruct (children this h) as [[cs|e|] h1] eqn:Hcs; try done.
  destruct (children_run _ _ _ _ Hwf Hcs) as (Hwf1 & Hle1 & _ & n1 & Hn1 & Hcache).
  destruct (Mfold_descendents_stable fuel IH _ _ _ _ _ Hwf1 Hrun) as (Hwf' & Hle' & Hstable).
  assert (h1 ⊑ h'') as Hle1'' by (by eapply heap_le_trans).
  destruct Hle1'' as (Hnodes & _). destruct (Hnodes _ _ Hn1) as (n'' & Hn'' & Hnle).
  destruct Hnle as (_ & _ & _ & Hkeep & _).
  rewrite (children_of_cache this h'' n'' cs) by auto. by apply Hstable.
Qed.

(** X7: [descendents()] a second time.  After a walk that returned, the
    same call on the resulting store returns the same list of wrappers and
    changes nothing: the whole walk is answered from the caches. *)
Theorem descendents_again (fuel this : nat) (h h' : heap) (ds : list nat) :
  wf h -> descendents fuel this [] h = (Ret ds, h') ->
  descendents fuel this [] h' = (Ret ds, h').
Proof.
  intros Hwf Hrun. eapply descendents_stable; eauto using heap_le_refl.
Qed.

Lemma descendents_again_witness :
  let h' := (descendents 10 0 [] (initial_heap Sample.ast)).2 in
  descendents 10 0 [] h' =
    (Ret [1; 6; 7; 8; 9; 10; 2; 11; 15; 16; 12; 17; 18; 13; 19; 14; 20; 21; 22; 23;
          3; 24; 25; 27; 28; 26; 29; 4; 30; 31; 32; 5; 33; 34; 36; 37; 35], h').
Proof.
  destruct (descendents 10 0 [] (initial_heap Sample.ast)) as [r h'] eqn:Hrun.
  pose proof (f_equal fst Hrun) as Hr. vm_compute in Hr. subst r.
  apply (descendents_again 10 0 (initial_heap Sample.ast) h' _
           (initial_heap_wf Sample.ast eq_refl) Hrun).
Defined.

(** ** scope() without a root Program, and sharing *)

Lemma introducer_back fuel : ∀ h h' a,
  wf h -> h ⊑ h' -> a < length (nodes h) ->
  introducer fuel h' a = introducer fuel h a.
Proof.
  induction fuel as [|fuel IH]; intros h h' a Hwf Hle Hvalid; [done|].
  cbn [introducer]. destruct (lookup_lt_is_Some_2 _ _ Hvalid) as [n Ha].
  rewrite Ha. pose proof Hle as (Hn & _).
  destruct (Hn a n Ha) as (n' & -> & _ & -> & -> & _).
  destruct (is_scope_kind (Node.type n)); [done|].
  destruct (Node.parent n) as [p|] eqn:Hp; [|done].
  pose proof (parent_ok _ _ _ (wf_nodes _ Hwf _ _ Ha) _ Hp) as Hlt.
  apply IH; [done..|lia].
Qed.

Lemma scope_no_introducer fuel : ∀ this h,
  wf h -> this < fuel -> this < length (nodes h) ->
  introducer fuel h this = None -> scope fuel this h = (Exc TypeError, h).
Proof.
  induction fuel as [|fuel IH]; intros this h Hwf Hfuel Hvalid Hintro; [lia|].
  destruct (lookup_lt_is_Some_2 _ _ Hvalid) as [self Hthis].
  cbn [scope]. rewrite bind_run. unfold read_node at 1. rewrite Hthis.
  destruct (Node.cachedScope self) as [s|] eqn:Hcache.
  { destruct (cached_scope_introducer h Hwf this self s (S fuel) Hthis Hcache Hfuel)
      as (a0 & _ & _ & Ha0 & _). congruence. }
  cbn [introducer] in Hintro. rewrite Hthis in Hintro.
  rewrite bind_run. unfold _scope_with. rewrite bind_run. unfold read_node at 1.
  rewrite Hthis. destruct (is_scope_kind (Node.type self)); [done|].
  destruct (Node.parent self) as [p|] eqn:Hp; [|done].
  pose proof (parent_ok _ _ _ (wf_nodes _ Hwf _ _ Hthis) _ Hp) as Hlt.
  rewrite IH; [done|done|lia|lia|done].
Qed.

Lemma scope_throws_no_introducer fuel : ∀ this h e h',
  scope fuel this h = (Exc e, h') -> introducer fuel h this = None.
Proof.
  induction fuel as [|fuel IH]; intros this h e h'; [done|].
  cbn [scope introducer]. rewrite bind_run. unfold read_node at 1.
  destruct (nodes h !! this) as [self|] eqn:Hthis; [|done].
  destruct (Node.cachedScope self) as [s|]; [done|].
  rewrite bind_run. unfold _scope_with. rewrite bind_run. unfold read_node at 1.
  rewrite Hthis. destruct (is_scope_kind (Node.type self)); [done|].
  destruct (Node.parent self) as [p|]; [|done].
  destruct (scope fuel p h) as [[s|e1|] h1] eqn:Hp; try done.
  intros _. eapply IH. exact Hp.
Qed.

(** X9: [scope()] on any node of a well-formed store, whether or not its
    tree has a Program at the root.  If some node from this one upwards is
    a Program, FunctionDeclaration or FunctionExpression, the call returns
    a Scope whose node is the nearest such node.  If there is none (a
    wrapped expression or statement on its own), the call throws a
    TypeError, from reading the scope of the missing parent, and leaves the
    store as it was. *)
Theorem scope_outcome (fuel this : nat) (h : heap) :
  wf h -> this < length (nodes h) -> this < fuel ->
  match introducer fuel h this with
  | Some a0 =>
      ∃ s h' sc, scope fuel this h = (Ret s, h') ∧
                 scopes h' !! s = Some sc ∧ Scope.node sc = a0
  | None => scope fuel this h = (Exc TypeError, h)
  end.
Proof.
  intros Hwf Hvalid Hfuel.
  destruct (introducer fuel h this) as [a0|] eqn:Hintro;
    [|by apply scope_no_introducer].
  pose proof (scope_spec fuel this h Hwf Hvalid Hfuel) as Hspec. unfold wp in Hspec.
  destruct (scope fuel this h) as [[s|e|] h'] eqn:Hrun; cbn [fst snd] in Hspec.
  - destruct Hspec as (Hwf' & Hle & _ & _ & n' & Hn' & Hcache).
    destruct (cached_scope_introducer h' Hwf' this n' s fuel Hn' Hcache Hfuel)
      as (a1 & _ & sc & Ha1 & _ & _ & Hsc & Hnode).
    rewrite (introducer_mono fuel h h' this a0 Hle Hintro) in Ha1.
    injection Ha1 as <-. by exists s, h', sc.
  - apply scope_throws_no_introducer in Hrun. congruence.
  - by destruct Hspec as (_ & _ & _ & _ & ?).
Qed.

Lemma scope_outcome_witness :
  let h := initial_heap (Sample.Identifier "x") in
  scope 1 0 h = (Exc TypeError, h).
Proof.
  apply (scope_outcome 1 0 (initial_heap (Sample.Identifier "x"))).
  - by apply initial_heap_wf.
  - simpl. lia.
  - lia.
Defined.

(** X10: two nodes get the same Scope object exactly when the nearest
    node of kind Program, FunctionDeclaration or FunctionExpression from
    them upwards is the same: nodes under different functions never share a
    Scope. *)
Theorem scope_shared_iff (fuel a b : nat) (h h1 h2 : heap) (sa sb : nat) :
  wf h -> a < length (nodes h) -> b < length (nodes h) -> a < fuel -> b < fuel ->
  scope fuel a h = (Ret sa, h1) ->
  scope fuel b h1 = (Ret sb, h2) ->
  sa = sb <-> nearest_introducer fuel h a = nearest_introducer fuel h b.
Proof.
  intros Hwf Ha Hb Hfa Hfb Hrun1 Hrun2. rewrite <- !introducer_nearest.
  destruct (scope_run _ _ _ _ _ Hwf Ha Hrun1) as (Hwf1 & Hle1 & na & Hna & Hca).
  assert (b < length (nodes h1)) as Hb1 by (by eapply heap_le_valid).
  destruct (scope_run _ _ _ _ _ Hwf1 Hb1 Hrun2) as (Hwf2 & Hle2 & nb & Hnb & Hcb).
  pose proof Hle2 as (Hnodes & _).
  destruct (Hnodes _ _ Hna) as (na' & Hna' & _ & _ & _ & _ & Hkeep).
  apply Hkeep in Hca.
  destruct (cached_scope_introducer h2 Hwf2 a na' sa fuel Hna' Hca Hfa)
    as (a0 & n0 & sca & Hia & Hn0 & Hc0 & Hsca & Hnode_a).
  destruct (cached_scope_introducer h2 Hwf2 b nb sb fuel Hnb Hcb Hfb)
    as (b0 & m0 & scb & Hib & Hm0 & Hd0 & Hscb & Hnode_b).
  assert (h ⊑ h2) as Hle by (by eapply heap_le_trans).
  rewrite (introducer_back fuel h h2 a Hwf Hle Ha) in Hia.
  rewrite (introducer_back fuel h h2 b Hwf Hle Hb) in Hib.
  rewrite Hia, Hib. split.
  - intros <-. congruence.
  - intros [= <-]. congruence.
Qed.

Lemma scope_shared_iff_witness :
  let h := (descendents 10 0 [] (initial_heap Sample.ast)).2 in
  let h1 := (scope 40 25 h).2 in
  (Ret 0 = (scope 40 25 h).1 ∧ Ret 1 = (scope 40 6 h1).1) ∧
  (0 = 1 <-> nearest_introducer 40 h 25 = nearest_introducer 40 h 6).
Proof.
  split; [by vm_compute|].
  pose (h := (descendents 10 0 [] (initial_heap Sample.ast)).2).
  apply (scope_shared_iff 40 25 6 h (scope 40 25 h).2 (scope 40 6 (scope 40 25 h).2).2).
  - destruct (descendents 10 0 [] (initial_heap Sample.ast)) as [r h'] eqn:Hrun.
    eapply (descendents_run 10 0 (initial_heap Sample.ast)); [|reflexivity|exact Hrun|].
    + by apply initial_heap_wf.
    + intros ->. by vm_compute in Hrun.
  - vm_compute. lia.
  - vm_compute. lia.
  - lia.
  - lia.
  - by vm_compute.
  - by vm_compute.
Defined.

(** ** scope() only fills scope caches *)

Lemma without_scope_update s a (l : list Node.t) :
  without_scope <$> alter (Node.set_cachedScope s) a l = without_scope <$> l.
Proof.
  revert a. induction l as [|n l IH]; intros [|a]; csimpl; try done.
  f_equal. apply IH.
Qed.

(** X11: [scope()] writes scope caches and nothing else: whatever its
    outcome, it makes no wrapper, leaves the raw node, type, parent and
    cached children of every wrapper as they were, and creates at most one
    Scope object, with an empty identifier cache. *)
Theorem scope_only_caches (fuel : nat) : ∀ this h r h',
  scope fuel this h = (r, h') ->
  without_scope <$> nodes h' = without_scope <$> nodes h ∧
  (scopes h' = scopes h ∨ ∃ a, scopes h' = scopes h ++ [Scope.mk a None]).
Proof.
  induction fuel as [|fuel IH]; intros this h r h'; [intros [= <- <-]; auto|].
  cbn [scope]. rewrite bind_run. unfold read_node at 1.
  destruct (nodes h !! this) as [self|] eqn:Hthis; [|intros [= <- <-]; auto].
  destruct (Node.cachedScope self) as [s|]; [intros [= <- <-]; auto|].
  rewrite bind_run. unfold _scope_with. rewrite bind_run. unfold read_node at 1.
  rewrite Hthis. destruct (is_scope_kind (Node.type self)).
  { intros [= <- <-]. simpl. rewrite without_scope_update. eauto. }
  destruct (Node.parent self) as [p|]; [|intros [= <- <-]; auto].
  destruct (scope fuel p h) as [[s|e|] h1] eqn:Hp;
    try (intros [= <- <-]; by eapply IH).
  intros [= <- <-]. simpl. rewrite without_scope_update. by eapply IH.
Qed.

Lemma scope_only_caches_witness :
  let h := (descendents 10 0 [] (initial_heap Sample.ast)).2 in
  let h' := (scope 40 25 h).2 in
  without_scope <$> nodes h' = without_scope <$> nodes h ∧
  (scopes h' = scopes h ∨ ∃ a, scopes h' = scopes h ++ [Scope.mk a None]).
Proof.
  pose (h := (descendents 10 0 [] (initial_heap Sample.ast)).2).
  apply (scope_only_caches 40 25 h (scope 40 25 h).1 (scope 40 25 h).2).
  by destruct (scope 40 25 h).
Defined.

(** ** A Scope that no node has cached *)

Section Avoids.
Context (s : nat).

Lemma avoids_ret {A} (a : A) (Q : A -> Prop) : Q a -> avoids s (ret a) Q.
Proof. intros HQ h r h' [= <- <-] Hs Hu. split_and!; [done..|]. by intros ? [= <-]. Qed.

Lemma avoids_throw {A} e (Q : A -> Prop) : avoids s (throw e) Q.
Proof. intros h r h' [= <- <-] Hs Hu. done. Qed.

Lemma avoids_abort {A} (Q : A -> Prop) : avoids s abort Q.
Proof. intros h r h' [= <- <-] Hs Hu. done. Qed.

Lemma avoids_lift {A} (c : outcome A) : avoids s (lift c) (fun _ => True).
Proof. intros h r h' [= <- <-] Hs Hu. done. Qed.

Lemma avoids_bind {A B} (c : M A) (k : A -> M B) (Q : A -> Prop) (Q' : B -> Prop) :
  avoids s c Q -> (∀ a, Q a -> avoids s (k a) Q') -> avoids s (bind c k) Q'.
Proof.
  intros Hc Hk h r h' Hrun Hs Hu. rewrite bind_run in Hrun.
  destruct (c h) as [r1 h1] eqn:Hrun1.
  destruct (Hc h r1 h1 Hrun1 Hs Hu) as (Hu1 & Hs1 & HQ).
  destruct r1 as [a|e|]; [|by injection Hrun as <- <-..].
  by apply (Hk a (HQ a eq_refl) h1 r h').
Qed.

Lemma avoids_weaken {A} (c : M A) (Q Q' : A -> Prop) :
  avoids s c Q -> (∀ a, Q a -> Q' a) -> avoids s c Q'.
Proof.
  intros Hc HQ h r h' Hrun Hs Hu. destruct (Hc h r h' Hrun Hs Hu) as (? & ? & Hr).
  split_and!; auto.
Qed.

Lemma avoids_read_node a :
  avoids s (read_node a) (fun n => Node.cachedScope n ≠ Some s).
Proof.
  intros h r h'. unfold read_node. destruct (nodes h !! a) as [n|] eqn:Ha;
    intros [= <- <-] Hs Hu; split_and!; try done.
  intros ? [= <-]. by eapply Hu.
Qed.

Lemma avoids_read_scope a : avoids s (read_scope a) (fun _ => True).
Proof.
  intros h r h'. unfold read_scope. by destruct (scopes h !! a); intros [= <- <-] Hs Hu.
Qed.

Lemma avoids_alloc_node n :
  Node.cachedScope n = None -> avoids s (alloc_node n) (fun _ => True).
Proof.
  intros Hn h r h' [= <- <-] Hs Hu. split_and!; try done.
  intros a n' [Ha|[_ Ha]]%lookup_app_Some; [by eapply Hu|].
  apply list_lookup_singleton_Some in Ha as [_ <-]. by rewrite Hn.
Qed.

Lemma avoids_alloc_scope sc : avoids s (alloc_scope sc) (fun s' => s' ≠ s).
Proof.
  intros h r h' [= <- <-] Hs Hu. cbn [scopes]. rewrite length_app.
  split_and!; [done|lia|]. intros ? [= <-]. lia.
Qed.

Lemma avoids_update_children a cs :
  avoids s (update_node a (Node.set_cachedChildren cs)) (fun _ => True).
Proof.
  intros h r h' [= <- <-] Hs Hu. split_and!; try done.
  intros b n Hb. cbn [nodes] in Hb. destruct (decide (a = b)) as [<-|Hne].
  - rewrite list_lookup_alter_eq in Hb.
    destruct (nodes h !! a) as [n0|] eqn:Ha; [|done]. injection Hb as <-.
    simpl. by eapply Hu.
  - rewrite list_lookup_alter_ne in Hb by done. by eapply Hu.
Qed.

Lemma avoids_update_scope a s' :
  s' ≠ s -> avoids s (update_node a (Node.set_cachedScope s')) (fun _ => True).
Proof.
  intros Hne h r h' [= <- <-] Hs Hu. split_and!; try done.
  intros b n Hb. cbn [nodes] in Hb. destruct (decide (a = b)) as [<-|Hab].
  - rewrite list_lookup_alter_eq in Hb.
    destruct (nodes h !! a) as [n0|] eqn:Ha; [|done]. injection Hb as <-.
    simpl. congruence.
  - rewrite list_lookup_alter_ne in Hb by done. by eapply Hu.
Qed.

Lemma avoids_Mmap {A B} (f : A -> M B) l :
  (∀ a, avoids s (f a) (fun _ => True)) -> avoids s (Mmap f l) (fun _ => True).
Proof.
  intros Hf. induction l as [|a l IH]; cbn [Mmap]; [by apply avoids_ret|].
  eapply avoids_bind; [apply Hf|]. intros b _.
  eapply avoids_bind; [apply IH|]. intros bs _. by apply avoids_ret.
Qed.

Lemma avoids_Mfold {A S} (f : S -> A -> M S) l : ∀ acc,
  (∀ acc a, avoids s (f acc a) (fun _ => True)) ->
  avoids s (Mfold f acc l) (fun _ => True).
Proof.
  induction l as [|a l IH]; intros acc Hf; cbn [Mfold]; [by apply avoids_ret|].
  eapply avoids_bind; [apply Hf|]. intros acc' _. by apply IH.
Qed.

Lemma avoids_new_Node node parent : avoids s (new_Node node parent) (fun _ => True).
Proof.
  unfold new_Node. eapply avoids_bind; [apply avoids_lift|]. intros type _.
  by apply avoids_alloc_node.
Qed.

Lemma avoids_children this : avoids s (children this) (fun _ => True).
Proof.
  unfold children. eapply avoids_bind; [apply avoids_read_node|]. intros self _.
  destruct (Node.cachedChildren self); [by apply avoids_ret|].
  eapply avoids_bind; [apply avoids_lift|]. intros raw_children _.
  destruct raw_children; try apply avoids_throw.
  eapply avoids_bind; [apply avoids_Mmap; intros; apply avoids_new_Node|].
  intros cs _. eapply avoids_bind; [apply avoids_update_children|].
  intros _ _. by apply avoids_ret.
Qed.

Lemma avoids_descendents fuel : ∀ this lst,
  avoids s (descendents fuel this lst) (fun _ => True).
Proof.
  induction fuel as [|fuel IH]; intros this lst; cbn [descendents];
    [apply avoids_abort|].
  eapply avoids_bind; [apply avoids_children|]. intros cs _.
  apply avoids_Mfold. intros acc c. apply IH.
Qed.

Lemma avoids_scope fuel : ∀ this, avoids s (scope fuel this) (fun s' => s' ≠ s).
Proof.
  induction fuel as [|fuel IH]; intros this; cbn [scope]; [apply avoids_abort|].
  eapply avoids_bind; [apply avoids_read_node|]. intros self Hself.
  destruct (Node.cachedScope self) as [s0|] eqn:Hcache;
    [apply avoids_ret; congruence|].
  eapply avoids_bind with (Q := fun s' => s' ≠ s).
  - unfold _scope_with. eapply avoids_bind; [apply avoids_read_node|].
    intros self' _. destruct (is_scope_kind (Node.type self'));
      [apply avoids_alloc_scope|].
    destruct (Node.parent self'); [apply IH|apply avoids_throw].
  - intros s' Hs'. eapply avoids_bind; [by apply avoids_update_scope|].
    intros _ _. by apply avoids_ret.
Qed.

Lemma avoids_parentScope fuel d : avoids s (parentScope fuel d) (fun s' => s' ≠ s).
Proof.
  unfold parentScope. eapply avoids_bind; [apply avoids_read_node|]. intros self _.
  destruct (Node.parent self); [apply avoids_scope|apply avoids_throw].
Qed.

Lemma avoids_collect fuel scope lst d : avoids s (collect fuel scope lst d) (fun _ => True).
Proof.
  unfold collect. eapply avoids_bind; [apply avoids_parentScope|]. intros ps _.
  destruct (negb (Nat.eqb ps scope)); [by apply avoids_ret|].
  eapply avoids_bind; [apply avoids_read_node|]. intros self _.
  eapply avoids_bind; [apply avoids_lift|]. intros id _.
  destruct (truthy id && strict_eq_str id.["type"] "Identifier"); by apply avoids_ret.
Qed.

Lemma avoids_identifiers fuel this : avoids s (_identifiers fuel this) (fun _ => True).
Proof.
  unfold _identifiers. eapply avoids_bind; [apply avoids_read_scope|]. intros sc _.
  eapply avoids_bind; [apply avoids_descendents|]. intros ds _.
  apply avoids_Mfold. intros acc d. apply avoids_collect.
Qed.

End Avoids.

Lemma declaring_sites_uncached h s ds : uncached h s -> declaring_sites h s ds = [].
Proof.
  intros Hu. unfold declaring_sites. induction ds as [|d ds IH]; [done|].
  rewrite filter_cons, IH. case_decide as Hd; [|done]. destruct Hd as [Hres _].
  unfold resolved in Hres. destruct (nodes h !! d) as [n|]; [|done].
  destruct (Node.parent n) as [p|]; [|done].
  destruct (nodes h !! p) as [m|] eqn:Hp; [|done]. by apply Hu in Hp.
Qed.

Lemma uncached_scope_identifiers fuel s h sc l h' :
  wf h -> scopes h !! s = Some sc -> uncached h s ->
  _identifiers fuel s h = (Ret l, h') -> l = [].
Proof.
  intros Hwf Hs Hu Hrun.
  destruct (_identifiers_sites _ _ _ _ _ _ Hwf Hs Hrun) as (ds & _ & _ & _ & _ & _ & _ & ->).
  destruct (avoids_identifiers s fuel s h _ h' Hrun) as (Hu' & _); [by eapply lookup_lt_Some|done|].
  by rewrite declaring_sites_uncached.
Qed.

(** X12: [_scope()] called directly on a Program or function node makes a
    new Scope object on every call and caches it nowhere: it is not the
    Scope that [scope()] hands out for that node, no node's parent scope is
    ever identical to it, and so [_identifiers] on it lists nothing,
    whatever the tree declares. *)
Theorem fresh_scope_lists_nothing (fuel this : nat) (h : heap) (self : Node.t) :
  wf h -> nodes h !! this = Some self -> is_scope_kind (Node.type self) = true ->
  let s := length (scopes h) in
  let h1 := mkHeap (nodes h) (scopes h ++ [Scope.mk this None]) in
  _scope fuel this h = (Ret s, h1) ∧
  Node.cachedScope self ≠ Some s ∧
  ∀ fuel' l h', _identifiers fuel' s h1 = (Ret l, h') -> l = [].
Proof.
  intros Hwf Hthis Hkind s h1.
  assert (∀ a n, nodes h !! a = Some n -> Node.cachedScope n ≠ Some s) as Hu.
  { intros a n Ha Hc.
    destruct (scope_ok _ _ _ (wf_nodes _ Hwf _ _ Ha) _ Hc) as (sc & Hsc & _).
    apply lookup_lt_Some in Hsc. unfold s in Hsc. lia. }
  split_and!.
  - unfold _scope, _scope_with. rewrite bind_run. unfold read_node at 1.
    by rewrite Hthis, Hkind.
  - by eapply Hu.
  - intros fuel' l h' Hrun.
    assert (wf h1) as Hwf1.
    { eapply wf_extend; [done|apply heap_le_alloc_scope|..]; simpl.
      - intros a n' Ha. by left.
      - intros s' sc' [Hs'|[_ Hs']]%lookup_app_Some; [left; eauto|right].
        apply list_lookup_singleton_Some in Hs' as [_ <-]. simpl.
        by eapply lookup_lt_Some. }
    eapply (uncached_scope_identifiers fuel' s h1); [done| |done|done].
    unfold h1, s. simpl. by rewrite lookup_app_r, Nat.sub_diag by lia.
Qed.

Lemma fresh_scope_lists_nothing_witness :
  let h := initial_heap Sample.ast in
  let h1 := mkHeap (nodes h) [Scope.mk 0 None] in
  _scope 1 0 h = (Ret 0, h1) ∧ (_identifiers 10 0 h1).1 = Ret [].
Proof.
  destruct (fresh_scope_lists_nothing 1 0 (initial_heap Sample.ast)
              (Node.mk Sample.ast Sample.ast.["type"] None None None))
    as (Hrun & _ & Hnone); [by apply initial_heap_wf|reflexivity|reflexivity|].
  split; [exact Hrun|].
  destruct (_identifiers 10 0 (mkHeap (nodes (initial_heap Sample.ast)) [Scope.mk 0 None]))
    as [r h'] eqn:Hids.
  assert (∃ l, r = Ret l) as [l ->].
  { vm_compute in Hids. injection Hids as <- _. eauto. }
  by rewrite (Hnone 10 l h' Hids).
Defined.

(** ** The walk and the raw tree *)

Lemma Mfold_walked fuel
  (IH : ∀ a h ds h', wf h -> descendents fuel a [] h = (Ret ds, h') ->
          ∀ h'', h' ⊑ h'' -> walked fuel h'' a ds) :
  ∀ cs acc h l h', wf h ->
    Mfold (child_then_descendants fuel) acc cs h = (Ret l, h') ->
    wf h' ∧ h ⊑ h' ∧
    ∃ ds, l = acc ++ ds ∧ ∀ h'', h' ⊑ h'' -> walked_list (walked fuel h'') cs ds.
Proof.
  induction cs as [|c cs IHcs]; intros acc h l h' Hwf Hrun.
  - injection Hrun as <- <-. split_and!; eauto using heap_le_refl.
    exists []. by rewrite app_nil_r.
  - cbn [Mfold] in Hrun. rewrite bind_run, child_then_descendants_run in Hrun.
    destruct (descendents fuel c [] h) as [[dc|e|] h1] eqn:Hc; try done.
    destruct (descendents_run_from _ _ _ _ _ _ Hwf Hc) as [Hwf1 Hle1]; [done|].
    destruct (IHcs _ _ _ _ Hwf1 Hrun) as (Hwf' & Hle' & ds' & -> & Hrest).
    split_and!; [done|by eapply heap_le_trans|].
    exists (c :: dc ++ ds'). split; [by rewrite <- app_assoc|].
    intros h'' Hle''. exists dc, ds'. split_and!; [|by apply Hrest|done].
    eapply IH; [exact Hwf|exact Hc|]. by eapply heap_le_trans.
Qed.

Lemma descendents_walked fuel : ∀ a h ds h',
  wf h -> descendents fuel a [] h = (Ret ds, h') ->
  ∀ h'', h' ⊑ h'' -> walked fuel h'' a ds.
Proof.
  induction fuel as [|fuel IH]; intros a h ds h' Hwf Hrun h'' Hle; [done|].
  rewrite descendents_concatenates, bind_run in Hrun.
  destruct (children a h) as [[cs|e|] h1] eqn:Hcs; try done.
  destruct (children_run _ _ _ _ Hwf Hcs) as (Hwf1 & Hle1 & _ & n1 & Hn1 & Hcache).
  destruct (Mfold_walked fuel IH _ _ _ _ _ Hwf1 Hrun) as (Hwf' & Hle' & ds' & -> & Hw).
  assert (h1 ⊑ h'') as (Hnodes & _) by (by eapply heap_le_trans).
  destruct (Hnodes _ _ Hn1) as (n'' & Hn'' & _ & _ & _ & Hkeep & _).
  exists n'', cs. split_and!; auto.
Qed.

Lemma introducer_fuel h : wf h -> ∀ a f1 f2,
  a < f1 -> a < f2 -> introducer f1 h a = introducer f2 h a.
Proof.
  intros Hwf a. induction (lt_wf a) as [a _ IH]. intros f1 f2 H1 H2.
  destruct f1 as [|f1]; [lia|]. destruct f2 as [|f2]; [lia|]. cbn [introducer].
  destruct (nodes h !! a) as [n|] eqn:Ha; [|done].
  destruct (is_scope_kind (Node.type n)); [done|].
  destruct (Node.parent n) as [p|] eqn:Hp; [|done].
  pose proof (parent_ok _ _ _ (wf_nodes _ Hwf _ _ Ha) _ Hp) as Hlt.
  apply IH; lia.
Qed.

Lemma introducer_le h : wf h -> ∀ fuel a x,
  introducer fuel h a = Some x -> (x <= a)%nat.
Proof.
  intros Hwf. induction fuel as [|fuel IH]; intros a x; [done|]. cbn [introducer].
  destruct (nodes h !! a) as [n|] eqn:Ha; [|done].
  destruct (is_scope_kind (Node.type n)); [by intros [= ->]|].
  destruct (Node.parent n) as [p|] eqn:Hp; [|done].
  pose proof (parent_ok _ _ _ (wf_nodes _ Hwf _ _ Ha) _ Hp) as Hlt.
  intros Hx%IH. lia.
Qed.

(** What well-formedness says of a cached child. *)
Lemma cached_child h a n c e :
  wf h -> nodes h !! a = Some n ->
  (a < c ∧ ∃ m, nodes h !! c = Some m ∧ Node.node m = e ∧ Node.parent m = Some a) ->
  raw h c = e ∧ enclosing h c = introducer (S a) h a ∧
  introducer (S c) h c =
    if is_scope_kind e.["type"] then Some c else introducer (S a) h a.
Proof.
  intros Hwf Ha (Hlt & m & Hc & Hnode & Hpar).
  assert (Node.type m = e.["type"]) as Htype.
  { pose proof (type_ok _ _ _ (wf_nodes _ Hwf _ _ Hc)) as Ht. unfold get in Ht.
    rewrite Hnode in Ht. destruct (nullish e); [done|]. by injection Ht. }
  assert (introducer c h a = introducer (S a) h a) as Hfuel
    by (apply introducer_fuel; [done|lia..]).
  split_and!.
  - unfold raw. by rewrite Hc.
  - unfold enclosing. by rewrite Hc, Hpar.
  - cbn [introducer]. rewrite Hc, Htype, Hpar.
    destruct (is_scope_kind e.["type"]); [done|]. rewrite Hfuel. done.
Qed.

Lemma walked_enclosing_above fuel : ∀ h a ds x0, wf h ->
  walked fuel h a ds -> introducer (S a) h a = Some x0 ->
  Forall (fun d => ∃ x, enclosing h d = Some x ∧ (x0 <= x)%nat) ds.
Proof.
  induction fuel as [|fuel IH]; intros h a ds x0 Hwf Hw Hintro; [done|].
  destruct Hw as (n & cs & Ha & Hcache & Hlist).
  destruct (children_ok _ _ _ (wf_nodes _ Hwf _ _ Ha) _ Hcache) as (elems & _ & Hall).
  pose proof (introducer_le h Hwf _ _ _ Hintro) as Hx0.
  clear Hcache. revert ds Hlist.
  induction Hall as [|c e cs elems Hc _ IHcs]; intros ds Hlist.
  - simpl in Hlist. by subst ds.
  - destruct Hlist as (dc & ds' & Hdc & Hrest & ->).
    destruct (cached_child h a n c e Hwf Ha Hc) as (_ & Henc & Hic).
    destruct Hc as (Hlt & _).
    apply Forall_cons_2; [|apply Forall_app_2; [|by apply IHcs]].
    + exists x0. by rewrite Henc, Hintro.
    + destruct (is_scope_kind e.["type"]).
      * eapply Forall_impl; [by apply (IH h c dc c)|].
        intros d (x & Hx & Hle). exists x. split; [done|]. lia.
      * rewrite Hintro in Hic. by apply (IH h c dc x0).
Qed.

Lemma declared_under_app h w ds1 ds2 :
  declared_under h w (ds1 ++ ds2) = declared_under h w ds1 ++ declared_under h w ds2.
Proof. apply filter_app. Qed.

Lemma declared_under_none h w ds :
  Forall (fun d => ∃ x, enclosing h d = Some x ∧ w < x) ds ->
  declared_under h w ds = [].
Proof.
  induction 1 as [|d ds (x & Hx & Hlt) _ IH]; [done|].
  unfold declared_under in *. rewrite filter_cons, IH.
  case_decide as Hd; [|done]. destruct Hd as [Hd _]. rewrite Hx in Hd.
  injection Hd as ->. lia.
Qed.

Lemma walked_declared fuel : ∀ h a ds w, wf h ->
  walked fuel h a ds -> introducer (S a) h a = Some w ->
  map (declared_name h) (declared_under h w ds) = declared_names fuel (raw h a).
Proof.
  induction fuel as [|fuel IH]; intros h a ds w Hwf Hw Hintro; [done|].
  destruct Hw as (n & cs & Ha & Hcache & Hlist).
  destruct (children_ok _ _ _ (wf_nodes _ Hwf _ _ Ha) _ Hcache) as (elems & Hel & Hall).
  pose proof (introducer_le h Hwf _ _ _ Hintro) as Hwa.
  cbn [declared_names]. unfold raw at 1. rewrite Ha, Hel.
  clear Hcache Hel. revert ds Hlist.
  induction Hall as [|c e cs elems Hc _ IHcs]; intros ds Hlist.
  - simpl in Hlist. by subst ds.
  - destruct Hlist as (dc & ds' & Hdc & Hrest & ->).
    destruct (cached_child h a n c e Hwf Ha Hc)
      as (Hraw & Henc & Hic).
    destruct Hc as (Hlt & _).
    change (c :: dc ++ ds') with ([c] ++ dc ++ ds').
    rewrite !declared_under_app, !map_app. cbn [flat_map].
    rewrite <- app_assoc. f_equal; [|f_equal; [|by apply IHcs]].
    + unfold declared_under. rewrite filter_cons, filter_nil.
      rewrite Henc, Hintro, Hraw. unfold declared_name.
      destruct (has_identifier e); case_decide as Hd; simpl; rewrite ?Hraw; try done.
      * destruct Hd; split; done.
      * by destruct Hd.
    + destruct (is_scope_kind e.["type"]).
      * rewrite declared_under_none; [done|].
        eapply Forall_impl; [by apply (walked_enclosing_above fuel h c dc c)|].
        intros d (x & Hx & Hle). exists x. split; [done|]. lia.
      * rewrite Hintro in Hic. rewrite (IH h c dc w) by done. by rewrite Hraw.
Qed.

Lemma walked_preorder fuel : ∀ h a ds, wf h ->
  walked fuel h a ds -> map (raw h) ds = preorder fuel (raw h a).
Proof.
  induction fuel as [|fuel IH]; intros h a ds Hwf Hw; [done|].
  destruct Hw as (n & cs & Ha & Hcache & Hlist).
  destruct (children_ok _ _ _ (wf_nodes _ Hwf _ _ Ha) _ Hcache) as (elems & Hel & Hall).
  cbn [preorder]. unfold raw at 2. rewrite Ha, Hel.
  clear Hcache Hel. revert ds Hlist.
  induction Hall as [|c e cs elems Hc _ IHcs]; intros ds Hlist.
  - simpl in Hlist. by subst ds.
  - destruct Hlist as (dc & ds' & Hdc & Hrest & ->).
    destruct (cached_child h a n c e Hwf Ha Hc) as (Hraw & _).
    cbn [flat_map map]. rewrite map_app, Hraw, (IH h c dc) by done.
    rewrite Hraw. simpl. f_equal. f_equal. by apply IHcs.
Qed.
Lemma filter_agree {A} (P Q : A -> Prop) `{∀ x, Decision (P x)} `{∀ x, Decision (Q x)}
  (l : list A) :
  Forall (fun x => P x <-> Q x) l -> filter P l = filter Q l.
Proof.
  induction 1 as [|x l Hx _ IH]; [done|]. rewrite !filter_cons, IH.
  repeat case_decide; tauto.
Qed.

Lemma resolved_enclosing h s sc w n d :
  wf h -> scopes h !! s = Some sc -> Scope.node sc = w ->
  nodes h !! w = Some n -> Node.cachedScope n = Some s ->
  is_Some (resolved h d) ->
  resolved h d = Some s <-> enclosing h d = Some w.
Proof.
  intros Hwf Hs Hnode Hw Hcache [s2 Hres]. unfold enclosing. rewrite Hres.
  unfold resolved in Hres. destruct (nodes h !! d) as [nd|] eqn:Hd; [|done].
  destruct (Node.parent nd) as [p|] eqn:Hp; [|done].
  destruct (nodes h !! p) as [m|] eqn:Hm; [|done].
  pose proof (parent_ok _ _ _ (wf_nodes _ Hwf _ _ Hd) _ Hp) as Hlt.
  destruct (cached_scope_introducer h Hwf p m s2 d Hm Hres Hlt)
    as (a0 & n0 & sc2 & -> & Hn0 & Hc0 & Hsc2 & Hnode2).
  split.
  - intros [= ->]. congruence.
  - intros [= ->]. congruence.
Qed.

Lemma _identifiers_walk fuel this h sc l h' :
  wf h -> scopes h !! this = Some sc ->
  _identifiers fuel this h = (Ret l, h') ->
  ∃ ds h1,
    descendents fuel (Scope.node sc) [] h = (Ret ds, h1) ∧
    wf h' ∧ h ⊑ h' ∧ h1 ⊑ h' ∧
    Forall (fun d => is_Some (resolved h' d)) ds ∧
    l = map (declared_name h') (declaring_sites h' this ds).
Proof.
  intros Hwf Hthis Hrun.
  destruct (lookup_lt_is_Some_2 _ _ (wf_scopes _ Hwf _ _ Hthis)) as [n Hnode].
  destruct (descendents fuel (Scope.node sc) [] h) as [r1 h1] eqn:Hdesc.
  assert (∃ ds, r1 = Ret ds) as [ds ->].
  { unfold _identifiers in Hrun. rewrite bind_run in Hrun.
    unfold read_scope at 1 in Hrun. rewrite Hthis, bind_run, Hdesc in Hrun.
    destruct r1; [eauto|done..]. }
  set (m := Nat.max fuel (Nat.max (S (height (Node.node n))) (length (nodes h1)))).
  assert (fuel <= m)%nat as Hm by lia.
  pose proof (descendents_fuel_mono fuel m _ [] Hm h _ h1 Hdesc) as Hdesc'.
  pose proof (_identifiers_fuel_mono fuel m this Hm h _ h' Hrun) as Hrun'.
  pose proof (_identifiers_spec m h this sc n (Ret ds) h1 Hwf Hthis Hnode) as Hspec.
  unfold wp in Hspec. rewrite Hrun' in Hspec by done. cbn [fst snd] in Hspec.
  destruct Hspec as (Hwf' & Hle' & ds' & [= <-] & Hle1 & Hall & ->);
    [lia|by apply Hdesc'|lia|].
  exists ds, h1. split_and!; auto.
Qed.

(** X8: the raw nodes of the wrappers that [descendents()] returns are
    the pre-order list of the raw tree below the node: for each entry the
    extractor gives, the entry followed by the pre-order list of the
    entry.  The list depends on the raw tree only, not on what the store
    had cached before. *)
Theorem descendents_raw_preorder (fuel this : nat) (h h' : heap) (n : Node.t)
    (ds : list nat) :
  wf h -> nodes h !! this = Some n ->
  descendents fuel this [] h = (Ret ds, h') ->
  map (raw h') ds = preorder fuel (Node.node n).
Proof.
  intros Hwf Hthis Hrun.
  destruct (descendents_run _ _ _ _ _ _ Hwf Hthis Hrun) as (Hwf' & Hle & _); [done|].
  rewrite <- (raw_mono h h' this n Hle Hthis).
  apply walked_preorder; [done|].
  apply (descendents_walked fuel this h ds h' Hwf Hrun h'), heap_le_refl.
Qed.

Lemma descendents_raw_preorder_witness :
  let h := initial_heap Sample.ast in
  map (raw (descendents 10 0 [] h).2) [1; 6; 7; 8; 9; 10; 2; 11; 15; 16; 12; 17; 18;
     13; 19; 14; 20; 21; 22; 23; 3; 24; 25; 27; 28; 26; 29; 4; 30; 31; 32; 5; 33;
     34; 36; 37; 35] = preorder 10 Sample.ast.
Proof.
  apply (descendents_raw_preorder 10 0 (initial_heap Sample.ast)
           (descendents 10 0 [] (initial_heap Sample.ast)).2
           (Node.mk Sample.ast Sample.ast.["type"] None None None)).
  - by apply initial_heap_wf.
  - reflexivity.
  - vm_compute. reflexivity.
Defined.

(** X13: the names a Scope lists, read off the raw tree.  For a Scope
    that is the cached scope of its node, [_identifiers] returns the names
    the raw node declares: going through the entries of the extractor in
    order, the [id.name] of an entry that has an [id] of kind Identifier,
    followed by the names the entry declares in turn unless the entry is a
    Program, FunctionDeclaration or FunctionExpression.  So what is
    declared inside a nested function is not listed, while the nested
    function's own name is. *)
Theorem identifiers_declared_names (fuel s : nat) (h h' : heap) (sc : Scope.t)
    (n : Node.t) (l : list value) :
  wf h -> scopes h !! s = Some sc ->
  nodes h !! Scope.node sc = Some n -> Node.cachedScope n = Some s ->
  _identifiers fuel s h = (Ret l, h') ->
  l = declared_names fuel (Node.node n).
Proof.
  intros Hwf Hs Hn Hcache Hrun.
  destruct (_identifiers_walk _ _ _ _ _ _ Hwf Hs Hrun)
    as (ds & h1 & Hdesc & Hwf' & Hle & Hle1 & Hres & ->).
  pose proof Hle as (Hnodes & Hscopes & _).
  destruct (Hnodes _ _ Hn) as (n' & Hn' & _ & _ & _ & _ & Hkeep).
  destruct (Hscopes _ _ Hs) as (sc' & Hsc' & Hnode' & _).
  apply Hkeep in Hcache.
  assert (declaring_sites h' s ds = declared_under h' (Scope.node sc) ds) as ->.
  { unfold declaring_sites, declared_under.
    apply filter_agree. eapply Forall_impl; [exact Hres|]. intros d Hd. cbv beta.
    by rewrite (resolved_enclosing h' s sc' (Scope.node sc) n' d). }
  rewrite <- (raw_mono h h' _ n Hle Hn).
  apply walked_declared;
    [done|by apply (descendents_walked fuel _ h ds h1 Hwf Hdesc h')|].
  destruct (cached_scope_introducer h' Hwf' _ n' s (S (Scope.node sc)) Hn' Hcache)
    as (a0 & _ & sc2 & Hintro & _ & _ & Hsc2 & Hnode2); [lia|].
  congruence.
Qed.

Lemma identifiers_declared_names_witness :
  let h := (scope 1 0 (initial_heap Sample.ast)).2 in
  (_identifiers 40 0 h).1 = Ret [VStr "foo"; VStr "i"; VStr "f"] ∧
  [VStr "foo"; VStr "i"; VStr "f"] = declared_names 40 Sample.ast.
Proof.
  split; [by vm_compute|].
  pose (h := (scope 1 0 (initial_heap Sample.ast)).2).
  apply (identifiers_declared_names 40 0 h (_identifiers 40 0 h).2
           (Scope.mk 0 None)
           (Node.mk Sample.ast Sample.ast.["type"] None None (Some 0))).
  - assert (scope 1 0 (initial_heap Sample.ast) = (Ret 0, h)) as Hrun by reflexivity.
    eapply (scope_run 1 0 (initial_heap Sample.ast)); [|simpl; lia|exact Hrun].
    by apply initial_heap_wf.
  - reflexivity.
  - reflexivity.
  - reflexivity.
  - vm_compute. reflexivity.
Defined.

(** ** The later revision: the [children] getter *)

Lemma Part000_Mmap_wrap_child_present this elems h :
  Forall (fun e => truthy e = true) elems ->
  Mmap (Part000.wrap_child this) elems h =
    (Ret (seq (length (nodes h)) (length elems)),
     mkHeap (nodes h ++ fresh_children this elems) (scopes h)).
Proof.
  intros Hall. rewrite <- (Mmap_new_Node_all this elems h)
    by (eapply Forall_impl; [exact Hall|]; apply truthy_not_nullish).
  clear -Hall. revert h. induction Hall as [|e rest He _ IH]; intros h; [done|].
  cbn [Mmap]. rewrite !bind_run, Part000_wrap_child_present by done.
  destruct (new_Node e (Some this) h) as [[c|ex|] h1]; [|done..].
  by rewrite !bind_run, IH.
Qed.

Lemma Part000_Mmap_wrap_child_nodes this elems : ∀ h r h1,
  Mmap (Part000.wrap_child this) elems h = (r, h1) ->
  ∃ news, nodes h1 = nodes h ++ news.
Proof.
  induction elems as [|e rest IH]; intros h r h1.
  - intros [= <- <-]. exists []. by rewrite app_nil_r.
  - cbn [Mmap]. rewrite bind_run. destruct (truthy e) eqn:He.
    + rewrite Part000_wrap_child_present, new_Node_Ret
        by eauto using truthy_not_nullish.
      rewrite bind_run.
      match goal with
      | |- context [Mmap _ rest ?h0] =>
          destruct (Mmap (Part000.wrap_child this) rest h0) as [r2 h2] eqn:Hrest
      end.
      apply IH in Hrest as [news Hnews]. cbn [nodes] in Hnews.
      intros Hrun. exists ([Node.mk e e.["type"] (Some this) None None] ++ news).
      rewrite app_assoc, <- Hnews. by destruct r2; injection Hrun as <- <-.
    + rewrite Part000_wrap_child_missing by done. intros [= <- <-].
      exists []. by rewrite app_nil_r.
Qed.

(** X14: the first call of the later revision's [children] getter on a
    wrapper whose raw node the extractor gives a list for.  When every
    entry is truthy it does what spiderman.js does: one new wrapper per
    entry, in order, with this wrapper as parent, and the list is cached.
    When some entry is falsy (null, undefined, 0, the empty string, false)
    it throws a TypeError and the wrapper stays as it was, with no cache. *)
Theorem Part000_children_first_call (this : nat) (h : heap) (self : Node.t)
    (elems : list value) :
  nodes h !! this = Some self -> Node.cachedChildren self = None ->
  Part000._children (Node.node self) = Ret (VArr elems) ->
  if forallb truthy elems
  then let cs := seq (length (nodes h)) (length elems) in
       Part000.children this h =
         (Ret cs,
          mkHeap (alter (Node.set_cachedChildren cs) this
                        (nodes h ++ fresh_children this elems))
                 (scopes h))
  else (Part000.children this h).1 = Exc TypeError ∧
       nodes (Part000.children this h).2 !! this = Some self.
Proof.
  intros Hthis Hcache Hraw.
  destruct (forallb truthy elems) eqn:Hall.
  - intros cs. unfold Part000.children. rewrite bind_run. unfold read_node at 1.
    rewrite Hthis, Hcache, bind_run. unfold lift at 1.
    rewrite Hraw, bind_run, Part000_Mmap_wrap_child_present; [done|].
    apply Forall_forall. intros e He. rewrite forallb_forall in Hall.
    by apply Hall, list_elem_of_In.
  - assert (Exists (fun e => truthy e = false) elems) as Hex.
    { apply Exists_exists. clear -Hall. induction elems as [|e rest IH]; [done|].
      simpl in Hall. destruct (truthy e) eqn:He.
      - destruct (IH Hall) as (x & Hx & Hfalse). exists x. split; [by right|done].
      - exists e. split; [by left|done]. }
    split; [by eapply Part000_children_missing|].
    unfold Part000.children. rewrite bind_run. unfold read_node at 1.
    rewrite Hthis, Hcache, bind_run. unfold lift at 1. rewrite Hraw, bind_run.
    pose proof (Part000_Mmap_wrap_child_missing this elems h Hex) as Hm.
    destruct (Mmap (Part000.wrap_child this) elems h) as [[cs|ex|] h1] eqn:Hmap;
      simpl in Hm; try done. simpl.
    apply Part000_Mmap_wrap_child_nodes in Hmap as [news ->].
    by apply lookup_app_l_Some.
Qed.

Lemma Part000_children_first_call_witness :
  let h := initial_heap Sample.if_without_consequent in
  (Part000.children 0 h).1 = Exc TypeError ∧
  nodes (Part000.children 0 h).2 !! 0 = nodes h !! 0.
Proof.
  apply (Part000_children_first_call 0 (initial_heap Sample.if_without_consequent)
           (Node.mk Sample.if_without_consequent
              Sample.if_without_consequent.["type"] None None None)
           [Sample.Identifier "c"; VUndefined]); reflexivity.
Defined.


(** ** The revision without parent links *)

Lemma Part001_new_Node_run e h :
  Part001.new_Node e h =
    (Ret (length (nodes h)), mkHeap (nodes h ++ [Part001_wrapper e]) (scopes h)).
Proof.
  unfold Part001.new_Node, Part001_wrapper. destruct (truthy e) eqn:He; [|done].
  simpl. rewrite bind_run. unfold lift. by rewrite get_not_nullish by (by apply truthy_not_nullish).
Qed.

Lemma Part001_Mmap_new_Node elems : ∀ h,
  Mmap Part001.new_Node elems h =
    (Ret (seq (length (nodes h)) (length elems)),
     mkHeap (nodes h ++ map Part001_wrapper elems) (scopes h)).
Proof.
  induction elems as [|e rest IH]; intros h.
  - simpl. unfold ret. rewrite app_nil_r. by destruct h.
  - cbn [Mmap]. rewrite bind_run, Part001_new_Node_run, bind_run, IH.
    unfold ret. cbn [nodes scopes length map]. rewrite length_app. simpl.
    by rewrite Nat.add_1_r, <- app_assoc.
Qed.

(** X15: in the revision without parent links, the first [children()]
    call on a wrapper never fails on account of an entry: it makes one
    wrapper per entry, whatever the entries are.  The wrapper made for a
    falsy entry is empty (no node, no type), and the failure surfaces
    later: [children()] and [descendents()] on that wrapper throw a
    TypeError. *)
Theorem Part001_children_first_call (this : nat) (h : heap) (self : Node.t)
    (elems : list value) :
  nodes h !! this = Some self -> Node.cachedChildren self = None ->
  Part001._children (Node.node self) = Ret (VArr elems) ->
  let cs := seq (length (nodes h)) (length elems) in
  let h' := mkHeap (alter (Node.set_cachedChildren cs) this
                          (nodes h ++ map Part001_wrapper elems)) (scopes h) in
  Part001.children this h = (Ret cs, h') ∧
  ∀ i e, elems !! i = Some e -> truthy e = false ->
    Part001.children (length (nodes h) + i) h' = (Exc TypeError, h') ∧
    ∀ fuel, Part001.descendents (S fuel) (length (nodes h) + i) h' = (Exc TypeError, h').
Proof.
  intros Hthis Hcache Hraw cs h'. split.
  - unfold Part001.children. rewrite bind_run. unfold read_node at 1.
    rewrite Hthis, Hcache, bind_run. unfold lift at 1.
    by rewrite Hraw, bind_run, Part001_Mmap_new_Node.
  - intros i e Hi He.
    assert (Part001.children (length (nodes h) + i) h' = (Exc TypeError, h')) as Hc.
    { unfold Part001.children. rewrite bind_run. unfold read_node at 1.
      assert (this < length (nodes h)) as Hlt by (by eapply lookup_lt_Some).
      unfold h' at 1. cbn [nodes].
      rewrite list_lookup_alter_ne by lia.
      rewrite lookup_app_r by lia.
      replace (length (nodes h) + i - length (nodes h)) with i by lia.
      rewrite list_lookup_fmap, Hi. simpl. unfold Part001_wrapper. by rewrite He. }
    split; [done|]. intros fuel. cbn [Part001.descendents]. by rewrite bind_run, Hc.
Qed.

Lemma Part001_children_first_call_witness :
  let h := initial_heap Sample.if_without_consequent in
  let h' := mkHeap (alter (Node.set_cachedChildren [1; 2]) 0
                      (nodes h ++ map Part001_wrapper [Sample.Identifier "c"; VUndefined]))
                   [] in
  Part001.children 0 h = (Ret [1; 2], h') ∧
  Part001.children 2 h' = (Exc TypeError, h') ∧
  (Part001.descendents 5 0 h).1 = Exc TypeError.
Proof.
  destruct (Part001_children_first_call 0 (initial_heap Sample.if_without_consequent)
              (Node.mk Sample.if_without_consequent
                 Sample.if_without_consequent.["type"] None None None)
              [Sample.Identifier "c"; VUndefined])
    as [Hrun Hmissing]; try reflexivity.
  split; [exact Hrun|].
  destruct (Hmissing 1 VUndefined) as [Hc _]; try reflexivity.
  split; [exact Hc|]. vm_compute. reflexivity.
Defined.

Lemma erase_node_set_cachedChildren cs n :
  erase_node (Node.set_cachedChildren cs n) = Node.set_cachedChildren cs (erase_node n).
Proof. unfold erase_node. simpl. by destruct (truthy (Node.node n)). Qed.

Lemma erase_fresh_children this elems :
  erase_node <$> fresh_children this elems = map Part001_wrapper elems.
Proof. induction elems as [|e rest IH]; [done|]. cbn. by rewrite <- IH. Qed.

Lemma erase_lookup h a n :
  nodes h !! a = Some n -> nodes (erase h) !! a = Some (erase_node n).
Proof. intros Ha. unfold erase. cbn [nodes]. by rewrite list_lookup_fmap, Ha. Qed.

Lemma Part001_children_simulates this h cs h' :
  children this h = (Ret cs, h') ->
  Part001.children this (erase h) = (Ret cs, erase h').
Proof.
  intros Hrun. unfold children in Hrun. rewrite bind_run in Hrun.
  unfold read_node at 1 in Hrun.
  destruct (nodes h !! this) as [self|] eqn:Hthis; [|done].
  unfold Part001.children. rewrite bind_run. unfold read_node at 1.
  rewrite (erase_lookup h this self Hthis).
  replace (Node.cachedChildren (erase_node self)) with (Node.cachedChildren self)
    by (unfold erase_node; by destruct (truthy (Node.node self))).
  destruct (Node.cachedChildren self) as [cs0|] eqn:Hcache.
  { by injection Hrun as <- <-. }
  rewrite bind_run in Hrun |- *. unfold lift at 1 in Hrun. unfold lift at 1.
  destruct (_children (Node.node self)) as [raw_children|e|] eqn:Hraw; try done.
  pose proof Hraw as (props & _ & _ & Hobj & _)%children_by_Ret.
  replace (Node.node (erase_node self)) with (Node.node self)
    by (unfold erase_node; by rewrite Hobj).
  unfold Part001._children. fold (_children (Node.node self)). rewrite Hraw.
  destruct raw_children as [| | | | |elems|]; try done.
  rewrite bind_run in Hrun |- *. rewrite Part001_Mmap_new_Node.
  pose proof (Mmap_new_Node this elems h) as Hspec. unfold wp in Hspec.
  destruct (Mmap _ elems h) as [[cs1|e|] h1] eqn:Hmap; try done.
  injection Hrun as <- <-. cbn [fst snd] in Hspec.
  destruct Hspec as (k & Hnodes & _ & Hall & -> & ->).
  rewrite firstn_all in Hnodes.
  cbn [update_node nodes scopes erase bind ret]. rewrite length_fmap.
  f_equal. unfold erase. cbn [nodes]. f_equal.
  rewrite Hnodes.
  rewrite (list_fmap_alter erase_node _
             (Node.set_cachedChildren (seq (length (nodes h)) (length elems)))).
  - by rewrite fmap_app, erase_fresh_children.
  - apply Forall_forall. intros x _. apply erase_node_set_cachedChildren.
Qed.

Lemma Part001_Mfold_simulates fuel
  (IH : ∀ this h ds h', descendents fuel this [] h = (Ret ds, h') ->
          Part001.descendents fuel this (erase h) = (Ret ds, erase h')) :
  ∀ cs acc h l h',
    Mfold (child_then_descendants fuel) acc cs h = (Ret l, h') ->
    Mfold (fun acc child => ds <~ Part001.descendents fuel child ;;
                            ret (acc ++ child :: ds)) acc cs (erase h) =
      (Ret l, erase h').
Proof.
  induction cs as [|c cs IHcs]; intros acc h l h' Hrun.
  - by injection Hrun as <- <-.
  - cbn [Mfold] in *. rewrite bind_run, child_then_descendants_run in Hrun.
    destruct (descendents fuel c [] h) as [[dc|e|] h1] eqn:Hc; try done.
    rewrite !bind_run, (IH _ _ _ _ Hc). unfold ret at 1. cbv beta iota.
    by apply IHcs.
Qed.

(** X16: the revision without parent links walks the same tree.  Whenever
    [descendents()] of spiderman.js returns, the concatenating
    [descendents()] of that revision, run on the same store with parents
    and scopes forgotten, returns the same wrappers in the same order and
    ends in the same store, parents and scopes forgotten. *)
Theorem Part001_descendents_simulates (fuel : nat) : ∀ this h ds h',
  descendents fuel this [] h = (Ret ds, h') ->
  Part001.descendents fuel this (erase h) = (Ret ds, erase h').
Proof.
  induction fuel as [|fuel IH]; intros this h ds h' Hrun; [done|].
  rewrite descendents_concatenates, bind_run in Hrun. cbn [Part001.descendents].
  destruct (children this h) as [[cs|e|] h1] eqn:Hcs; try done.
  rewrite bind_run, (Part001_children_simulates _ _ _ _ Hcs).
  by apply (Part001_Mfold_simulates fuel IH).
Qed.

Lemma Part001_descendents_simulates_witness :
  let h := initial_heap Sample.ast in
  Part001.descendents 10 0 (erase h) =
    (Ret [1; 6; 7; 8; 9; 10; 2; 11; 15; 16; 12; 17; 18; 13; 19; 14; 20; 21; 22; 23;
          3; 24; 25; 27; 28; 26; 29; 4; 30; 31; 32; 5; 33; 34; 36; 37; 35],
     erase (descendents 10 0 [] h).2).
Proof.
  cbv zeta.
  destruct (descendents 10 0 [] (initial_heap Sample.ast)) as [r h'] eqn:Hrun.
  pose proof (f_equal fst Hrun) as Hr. vm_compute in Hr. subst r.
  apply (Part001_descendents_simulates 10 0 (initial_heap Sample.ast) _ h' Hrun).
Defined.
